(** * A Rocq model of the cube scrambler core

    Shallow embedding of the TypeScript sources of the two-phase (Kociemba)
    solver: the cubie model ([core/cubie.ts]), the eighteen face turns
    ([core/moves.ts]), the move notation ([core/notation.ts]), the coordinate
    encodings ([solver/kociemba/coordinates.ts], in the two revisions the
    sources contain), the pruning tables ([solver/kociemba/pruning.ts]), the
    IDA* search ([solver/kociemba/ida.ts]) and the solver orchestration
    ([solver/kociemba/solver.ts]).

    JavaScript numbers are modelled by [Z] (every number that occurs is a
    small integer, and the two floating-point divisions of the sources are
    exact, see [binomial] and [permutationToIndex]); arrays of numbers by
    [list Z]. *)

From Stdlib Require Import String Ascii.
From Stdlib Require Import ZArith List Lia Bool Permutation Sorted.
Import ListNotations.
Local Open Scope Z_scope.

(* ================================================================= *)
(** * Part I: the model *)
(* ================================================================= *)

(** ** Arrays of numbers *)

(** [a[i]].  A read outside the array gives [undefined] in JavaScript; the
    model gives [0] there.  On well-formed cubes and move tables every read
    of the sources is in range. *)
Definition aget (a : list Z) (i : Z) : Z :=
  if i <? 0 then 0 else nth (Z.to_nat i) a 0.

(** [a[i] = v] on an ordinary array: a write past the end extends the array
    (the holes read as [undefined], here [0]). *)
Fixpoint aset_nat (a : list Z) (i : nat) (v : Z) : list Z :=
  match i, a with
  | O, [] => [v]
  | O, _ :: t => v :: t
  | S k, [] => 0 :: aset_nat [] k v
  | S k, x :: t => x :: aset_nat t k v
  end.

Definition aset (a : list Z) (i : Z) (v : Z) : list Z :=
  if i <? 0 then a else aset_nat a (Z.to_nat i) v.

(** [new Array(n)]: [n] holes. *)
Definition newArray (n : nat) : list Z := repeat 0 n.

(** The index sequence [0, 1, ..., n-1] of a counting [for] loop. *)
Definition range (n : nat) : list Z := map Z.of_nat (seq 0 n).

(** [a.indexOf(x)], [-1] when absent. *)
Fixpoint indexOf_from (a : list Z) (x : Z) (i : Z) : Z :=
  match a with
  | [] => -1
  | y :: t => if y =? x then i else indexOf_from t x (i + 1)
  end.

Definition indexOf (a : list Z) (x : Z) : Z := indexOf_from a x 0.

(** [a.includes(x)]. *)
Definition includes (a : list Z) (x : Z) : bool := existsb (Z.eqb x) a.

(** [a.reduce((sum, x) => sum + x, 0)]. *)
Definition sumArray (a : list Z) : Z := fold_left Z.add a 0.

(** ** core/cubie.ts *)

Module Cubie.

(** [interface Cube]. *)
Record Cube : Type := mkCube {
  cPerm : list Z;   (* length 8, values 0-7 *)
  cOri  : list Z;   (* length 8, values 0-2 *)
  ePerm : list Z;   (* length 12, values 0-11 *)
  eOri  : list Z    (* length 12, values 0-1 *)
}.

(** [interface MoveTable]. *)
Record MoveTable : Type := mkMove {
  cornerPerm     : list Z;
  cornerOriDelta : list Z;
  edgePerm       : list Z;
  edgeOriDelta   : list Z
}.

Definition solvedCube : Cube :=
  {| cPerm := [0; 1; 2; 3; 4; 5; 6; 7];
     cOri  := [0; 0; 0; 0; 0; 0; 0; 0];
     ePerm := [0; 1; 2; 3; 4; 5; 6; 7; 8; 9; 10; 11];
     eOri  := [0; 0; 0; 0; 0; 0; 0; 0; 0; 0; 0; 0] |}.

(** [applyMove]: the result is built from new arrays; [%] is the
    JavaScript remainder ([Z.rem]) and [^] the bitwise exclusive or. *)
Definition applyMove (cube : Cube) (move : MoveTable) : Cube :=
  {| cPerm := map (fun i => aget (cPerm cube) (aget (cornerPerm move) i))
                  (range 8);
     cOri  := map (fun i => Z.rem (aget (cOri cube) (aget (cornerPerm move) i)
                                   + aget (cornerOriDelta move) i) 3)
                  (range 8);
     ePerm := map (fun i => aget (ePerm cube) (aget (edgePerm move) i))
                  (range 12);
     eOri  := map (fun i => Z.lxor (aget (eOri cube) (aget (edgePerm move) i))
                                   (aget (edgeOriDelta move) i))
                  (range 12) |}.

(** [composeMoves]: [result = move2(move1(cube))]. *)
Definition composeMoves (move1 move2 : MoveTable) : MoveTable :=
  {| cornerPerm :=
       map (fun i => aget (cornerPerm move2) (aget (cornerPerm move1) i))
           (range 8);
     cornerOriDelta :=
       map (fun i => Z.rem (aget (cornerOriDelta move1) i
                            + aget (cornerOriDelta move2)
                                   (aget (cornerPerm move1) i)) 3)
           (range 8);
     edgePerm :=
       map (fun i => aget (edgePerm move2) (aget (edgePerm move1) i))
           (range 12);
     edgeOriDelta :=
       map (fun i => Z.lxor (aget (edgeOriDelta move1) i)
                            (aget (edgeOriDelta move2)
                                  (aget (edgePerm move1) i)))
           (range 12) |}.

(** One pass of an [invertMove] loop: [perm[target] = i] and
    [delta[target] = f(delta_in[i])] with [target = perm_in[i]]. *)
Definition invertStep (permIn deltaIn : list Z) (f : Z -> Z)
    (acc : list Z * list Z) (i : Z) : list Z * list Z :=
  let target := aget permIn i in
  (aset (fst acc) target i, aset (snd acc) target (f (aget deltaIn i))).

Definition invertMove (move : MoveTable) : MoveTable :=
  let corners :=
    fold_left (invertStep (cornerPerm move) (cornerOriDelta move)
                          (fun d => Z.rem (3 - d) 3))
              (range 8) (newArray 8, newArray 8) in
  let edges :=
    fold_left (invertStep (edgePerm move) (edgeOriDelta move) (fun d => d))
              (range 12) (newArray 12, newArray 12) in
  {| cornerPerm := fst corners; cornerOriDelta := snd corners;
     edgePerm := fst edges; edgeOriDelta := snd edges |}.

(** [arraysEqual]: same length and the same element at every index. *)
Fixpoint arraysEqual (a b : list Z) : bool :=
  match a, b with
  | [], [] => true
  | x :: a', y :: b' => (x =? y) && arraysEqual a' b'
  | _, _ => false
  end.

Definition cubesEqual (cube1 cube2 : Cube) : bool :=
  arraysEqual (cPerm cube1) (cPerm cube2) &&
  arraysEqual (cOri cube1) (cOri cube2) &&
  arraysEqual (ePerm cube1) (ePerm cube2) &&
  arraysEqual (eOri cube1) (eOri cube2).

Definition isSolved (cube : Cube) : bool := cubesEqual cube solvedCube.

(** [copyCube]: spreads every array into a new one. *)
Definition copyCube (cube : Cube) : Cube :=
  {| cPerm := cPerm cube; cOri := cOri cube;
     ePerm := ePerm cube; eOri := eOri cube |}.

(** [isValidPermutation]: the [seen] array is a list of flags. *)
Fixpoint setFlag (seen : list bool) (i : nat) : list bool :=
  match i, seen with
  | _, [] => []
  | O, _ :: t => true :: t
  | S k, b :: t => b :: setFlag t k
  end.

Fixpoint validPermLoop (perm : list Z) (n : Z) (seen : list bool) : bool :=
  match perm with
  | [] => true
  | val :: rest =>
      if (val <? 0) || (val >=? n) || nth (Z.to_nat val) seen false
      then false
      else validPermLoop rest n (setFlag seen (Z.to_nat val))
  end.

Definition isValidPermutation (perm : list Z) (n : nat) : bool :=
  if negb (Nat.eqb (length perm) n) then false
  else validPermLoop perm (Z.of_nat n) (repeat false n).

(** [parityOfPermutation].  The inner [while (!seen[j])] loop marks one more
    index per turn, so it ends within [length perm] turns; [walkCycle] takes
    that many turns as fuel.  The model follows the sources on arrays whose
    values are indices of the array, which is what [isValidCube] and the
    random-state generator pass. *)
Fixpoint walkCycle (fuel : nat) (perm : list Z) (seen : list bool)
    (j : Z) (cycleLength : Z) : list bool * Z :=
  match fuel with
  | O => (seen, cycleLength)
  | S fuel' =>
      if nth (Z.to_nat j) seen false then (seen, cycleLength)
      else walkCycle fuel' perm (setFlag seen (Z.to_nat j))
                     (aget perm j) (cycleLength + 1)
  end.

Definition parityStep (perm : list Z) (st : Z * list bool) (i : Z)
    : Z * list bool :=
  let '(parity, seen) := st in
  if nth (Z.to_nat i) seen false then (parity, seen)
  else
    let '(seen', cycleLength) :=
      walkCycle (S (length perm)) perm seen i 0 in
    if cycleLength >? 0
    then (Z.lxor parity (Z.land (cycleLength + 1) 1), seen')
    else (parity, seen').

Definition parityOfPermutation (perm : list Z) : Z :=
  fst (fold_left (parityStep perm) (range (length perm))
                 (0, repeat false (length perm))).

(** [isValidCube]. *)
Definition isValidCube (cube : Cube) : bool :=
  if negb (isValidPermutation (cPerm cube) 8) then false
  else if negb (isValidPermutation (ePerm cube) 12) then false
  else if negb (parityOfPermutation (cPerm cube)
                =? parityOfPermutation (ePerm cube)) then false
  else if negb (Z.rem (sumArray (cOri cube)) 3 =? 0) then false
  else if negb (Z.rem (sumArray (eOri cube)) 2 =? 0) then false
  else if existsb (fun ori => (ori <? 0) || (ori >? 2)) (cOri cube) then false
  else if existsb (fun ori => (ori <? 0) || (ori >? 1)) (eOri cube) then false
  else true.

(** The shape the [Cube] interface documents: array lengths and value
    ranges, without the group constraints of [isValidCube]. *)
Definition inRange (lo hi : Z) (a : list Z) : bool :=
  forallb (fun x => (lo <=? x) && (x <=? hi)) a.

Definition wellFormed (cube : Cube) : bool :=
  Nat.eqb (length (cPerm cube)) 8 && inRange 0 7 (cPerm cube) &&
  Nat.eqb (length (cOri cube)) 8 && inRange 0 2 (cOri cube) &&
  Nat.eqb (length (ePerm cube)) 12 && inRange 0 11 (ePerm cube) &&
  Nat.eqb (length (eOri cube)) 12 && inRange 0 1 (eOri cube).

End Cubie.
Export Cubie.

(** ** core/moves.ts *)

Module Moves.

(** The keys of [ALL_MOVES], in the order of [MOVE_KEYS] and [MoveIndex]. *)
Inductive MoveKey : Type :=
  | U | U2 | Up | R | R2 | Rp | F | F2 | Fp
  | D | D2 | Dp | L | L2 | Lp | B | B2 | Bp.

Definition createUMove : MoveTable :=
  {| cornerPerm := [3; 0; 1; 2; 4; 5; 6; 7];
     cornerOriDelta := [0; 0; 0; 0; 0; 0; 0; 0];
     edgePerm := [3; 0; 1; 2; 4; 5; 6; 7; 8; 9; 10; 11];
     edgeOriDelta := [0; 0; 0; 0; 0; 0; 0; 0; 0; 0; 0; 0] |}.

Definition createRMove : MoveTable :=
  {| cornerPerm := [4; 1; 2; 0; 7; 5; 6; 3];
     cornerOriDelta := [2; 0; 0; 1; 1; 0; 0; 2];
     edgePerm := [8; 1; 2; 3; 11; 5; 6; 7; 4; 9; 10; 0];
     edgeOriDelta := [0; 0; 0; 0; 0; 0; 0; 0; 0; 0; 0; 0] |}.

Definition createFMove : MoveTable :=
  {| cornerPerm := [1; 5; 2; 3; 0; 4; 6; 7];
     cornerOriDelta := [1; 2; 0; 0; 2; 1; 0; 0];
     edgePerm := [0; 9; 2; 3; 4; 8; 6; 7; 1; 5; 10; 11];
     edgeOriDelta := [0; 1; 0; 0; 0; 1; 0; 0; 1; 1; 0; 0] |}.

Definition createDMove : MoveTable :=
  {| cornerPerm := [0; 1; 2; 3; 5; 6; 7; 4];
     cornerOriDelta := [0; 0; 0; 0; 0; 0; 0; 0];
     edgePerm := [0; 1; 2; 3; 5; 6; 7; 4; 8; 9; 10; 11];
     edgeOriDelta := [0; 0; 0; 0; 0; 0; 0; 0; 0; 0; 0; 0] |}.

Definition createLMove : MoveTable :=
  {| cornerPerm := [0; 2; 6; 3; 4; 1; 5; 7];
     cornerOriDelta := [0; 1; 2; 0; 0; 2; 1; 0];
     edgePerm := [0; 1; 10; 3; 4; 5; 9; 7; 8; 2; 6; 11];
     edgeOriDelta := [0; 0; 0; 0; 0; 0; 0; 0; 0; 0; 0; 0] |}.

Definition createBMove : MoveTable :=
  {| cornerPerm := [0; 1; 3; 7; 4; 5; 2; 6];
     cornerOriDelta := [0; 0; 1; 2; 0; 0; 2; 1];
     edgePerm := [0; 1; 2; 11; 4; 5; 6; 10; 8; 9; 3; 7];
     edgeOriDelta := [0; 0; 0; 1; 0; 0; 0; 1; 0; 0; 1; 1] |}.

(** [ALL_MOVES]: the object keyed by move name, as a function of the key;
    its values are those [composeMoves] and [invertMove] compute. *)
Definition ALL_MOVES (key : MoveKey) : MoveTable :=
  match key with
  | U => createUMove
  | U2 => composeMoves createUMove createUMove
  | Up => invertMove createUMove
  | R => createRMove
  | R2 => composeMoves createRMove createRMove
  | Rp => invertMove createRMove
  | F => createFMove
  | F2 => composeMoves createFMove createFMove
  | Fp => invertMove createFMove
  | D => createDMove
  | D2 => composeMoves createDMove createDMove
  | Dp => invertMove createDMove
  | L => createLMove
  | L2 => composeMoves createLMove createLMove
  | Lp => invertMove createLMove
  | B => createBMove
  | B2 => composeMoves createBMove createBMove
  | Bp => invertMove createBMove
  end.

Definition MOVE_KEYS : list MoveKey :=
  [U; U2; Up; R; R2; Rp; F; F2; Fp; D; D2; Dp; L; L2; Lp; B; B2; Bp].

(** [enum MoveIndex]. *)
Definition MoveIndex (key : MoveKey) : Z :=
  match key with
  | U => 0 | U2 => 1 | Up => 2 | R => 3 | R2 => 4 | Rp => 5
  | F => 6 | F2 => 7 | Fp => 8 | D => 9 | D2 => 10 | Dp => 11
  | L => 12 | L2 => 13 | Lp => 14 | B => 15 | B2 => 16 | Bp => 17
  end.

(** [MOVE_KEYS[index]]; [None] stands for [undefined]. *)
Definition moveKeyAt (index : Z) : option MoveKey :=
  if index <? 0 then None else nth_error MOVE_KEYS (Z.to_nat index).

Definition getMoveByKey (key : MoveKey) : MoveTable := ALL_MOVES key.

(** [getMoveByIndex]: [ALL_MOVES[MOVE_KEYS[index]]]. *)
Definition getMoveByIndex (index : Z) : option MoveTable :=
  option_map ALL_MOVES (moveKeyAt index).

End Moves.
Export Moves.

(** ** solver/kociemba/coordinates.ts: what both revisions share *)

Module CoordCommon.

Definition EO_SIZE : Z := 2048.
Definition CO_SIZE : Z := 2187.
Definition CP_SIZE : Z := 40320.
Definition EP_SIZE : Z := 24.

(** The indices of a [for (let i = n - 1; i >= 0; i--)] loop. *)
Definition downRange (n : nat) : list Z := rev (range n).

(** [getEdgeOrientation]: [coord = (coord << 1) | cube.eOri[i]]. *)
Definition getEdgeOrientation (cube : Cube) : Z :=
  fold_left (fun coord i => Z.lor (Z.shiftl coord 1) (aget (eOri cube) i))
            (range 11) 0.

(** The functions [set...] of the sources write into the cube they are
    given; here they return the cube after the writes. *)
Definition setEOStep (st : list Z * Z * Z) (i : Z) : list Z * Z * Z :=
  let '(eo, sum, coord) := st in
  let eo' := aset eo i (Z.land coord 1) in
  (eo', Z.lxor sum (aget eo' i), Z.shiftr coord 1).

Definition setEdgeOrientation (cube : Cube) (coord : Z) : Cube :=
  let '(eo, sum, _) :=
    fold_left setEOStep (downRange 11) (eOri cube, 0, coord) in
  {| cPerm := cPerm cube; cOri := cOri cube; ePerm := ePerm cube;
     eOri := aset eo 11 sum |}.

(** [getCornerOrientation]: [coord = coord * 3 + cube.cOri[i]]. *)
Definition getCornerOrientation (cube : Cube) : Z :=
  fold_left (fun coord i => coord * 3 + aget (cOri cube) i) (range 7) 0.

Definition setCOStep (st : list Z * Z * Z) (i : Z) : list Z * Z * Z :=
  let '(co, sum, coord) := st in
  let co' := aset co i (Z.rem coord 3) in
  (co', Z.rem (sum + aget co' i) 3, coord / 3).

Definition setCornerOrientation (cube : Cube) (coord : Z) : Cube :=
  let '(co, sum, _) :=
    fold_left setCOStep (downRange 7) (cOri cube, 0, coord) in
  {| cPerm := cPerm cube; cOri := aset co 7 (Z.rem (3 - sum) 3);
     ePerm := ePerm cube; eOri := eOri cube |}.

(** [binomial].  The sources divide in floating point and round down at the
    end; after [i] turns [result] is the binomial coefficient [C(n, i)], so
    every division is exact and the integer quotient is the same number
    (see [binomial_exact]). *)
Definition binomial (n k : Z) : Z :=
  if (k >? n) || (k <? 0) then 0
  else if (k =? 0) || (k =? n) then 1
  else fold_left (fun result i => (result * (n - i)) / (i + 1))
                 (range (Z.to_nat k)) 1.

(** [permutationToIndex]: [factorial /= n - i] is an exact division of a
    factorial by one of its factors. *)
Fixpoint factorialOf (n : nat) : Z :=
  match n with
  | O => 1
  | S k => Z.of_nat n * factorialOf k
  end.

Definition rankOf (x : Z) (rest : list Z) : Z :=
  fold_left (fun rank y => if y <? x then rank + 1 else rank) rest 0.

Fixpoint permToIndexLoop (perm : list Z) (factorial index : Z) : Z :=
  match perm with
  | [] => index
  | x :: rest =>
      let factorial' := factorial / Z.of_nat (length perm) in
      permToIndexLoop rest factorial' (index + rankOf x rest * factorial')
  end.

Definition permutationToIndex (perm : list Z) : Z :=
  permToIndexLoop perm (factorialOf (length perm)) 0.

(** [indexToPermutation]: the inner loop moves [perm[i .. i+rank-1]] one
    place up and puts the former [perm[i + rank]] at [i]. *)
Definition shiftUp (perm : list Z) (i rank : Z) : list Z :=
  fold_left (fun p j => aset p j (aget p (j - 1)))
            (map (fun d => i + rank - Z.of_nat d) (seq 0 (Z.to_nat rank)))
            perm.

Definition indexToPermStep (n : Z) (st : list Z * Z * Z) (i : Z)
    : list Z * Z * Z :=
  let '(perm, factorial, index) := st in
  let factorial' := factorial / (n - i) in
  let rank := index / factorial' in
  let index' := Z.rem index factorial' in
  let temp := aget perm (i + rank) in
  (aset (shiftUp perm i rank) i temp, factorial', index').

Definition indexToPermutation (index : Z) (n : nat) : list Z :=
  fst (fst (fold_left (indexToPermStep (Z.of_nat n)) (range n)
                      (range n, factorialOf n, index))).

(** [getCornerPermutation] and [setCornerPermutation]. *)
Definition getCornerPermutation (cube : Cube) : Z :=
  permutationToIndex (cPerm cube).

Definition setCornerPermutation (cube : Cube) (coord : Z) : Cube :=
  {| cPerm := indexToPermutation coord 8; cOri := cOri cube;
     ePerm := ePerm cube; eOri := eOri cube |}.

(** [buildCoordinateMoveTable]: the table [moveTable[moveIdx][coord]], one
    row for each of the eighteen moves. *)
Definition buildCoordinateMoveTable (size : Z) (getCoord : Cube -> Z)
    (setCoord : Cube -> Z -> Cube) : list (list Z) :=
  map (fun key =>
         map (fun coord =>
                getCoord (applyMove (setCoord solvedCube coord)
                                    (ALL_MOVES key)))
             (range (Z.to_nat size)))
      MOVE_KEYS.

(** [TABLE[moveIdx][coord]]. *)
Definition tableLookup (table : list (list Z)) (coord moveIdx : Z) : Z :=
  if moveIdx <? 0 then 0
  else aget (nth (Z.to_nat moveIdx) table []) coord.

(** A write into several consecutive slots: [a[base + i] = f(i)] for the
    indices [i] of the loop. *)
Definition writeAll (a : list Z) (idx : list Z) (slot value : Z -> Z)
    : list Z :=
  fold_left (fun acc i => aset acc (slot i) (value i)) idx a.

Record Phase1Coord : Type := mkPhase1Coord { eo : Z; co : Z; eslice : Z }.
Record Phase2Coord : Type := mkPhase2Coord { cp : Z; udep : Z; ep : Z }.

(** [cube.eOri[i] !== 0] holds as well where the array has no element. *)
Definition nonZeroAt (a : list Z) (i : Z) : bool :=
  match nth_error a (Z.to_nat i) with
  | Some v => negb (v =? 0)
  | None => true
  end.

End CoordCommon.
Export CoordCommon.

(** ** solver/kociemba/coordinates.ts, the revision with the 495-valued
    E-slice coordinate (the unnamed source file that exports [CP_EP_SIZE],
    which [pruning.ts] imports) *)

Module Coordinates.

Definition ESLICE_SIZE : Z := 495.
Definition UDEP_SIZE : Z := 40320.
Definition E_EDGES : list Z := [8; 9; 10; 11].

(** [getESlice]. *)
Definition getESliceStep (perm : list Z) (st : Z * Z) (i : Z) : Z * Z :=
  let '(coord, r) := st in
  if aget perm i >=? 8 then (coord + binomial i r, r - 1) else (coord, r).

Definition getESlice (cube : Cube) : Z :=
  494 - fst (fold_left (getESliceStep (ePerm cube)) (downRange 12) (0, 4)).

(** [setESlice]. *)
Definition setESliceStep (st : list Z * Z * Z) (i : Z) : list Z * Z * Z :=
  let '(perm, r, c) := st in
  if c >=? binomial i r
  then (aset perm i (8 + (4 - r)), r - 1, c - binomial i r)
  else (aset perm i 0, r, c).

Definition setESlice (cube : Cube) (rawCoord : Z) : Cube :=
  let coord := 494 - rawCoord in
  let cleared := writeAll (ePerm cube) (range 12) (fun i => i) (fun _ => 0) in
  let '(perm, _, _) :=
    fold_left setESliceStep (downRange 12) (cleared, 4, coord) in
  {| cPerm := cPerm cube; cOri := cOri cube; ePerm := perm;
     eOri := eOri cube |}.

(** [getUDEdgePermutation]: the loop of the sources that fills [perm] has no
    effect on the result, which is computed from [cube.ePerm.slice(0, 8)]. *)
Definition getUDEdgePermutation (cube : Cube) : Z :=
  permutationToIndex (firstn 8 (ePerm cube)).

Definition setUDEdgePermutation (cube : Cube) (coord : Z) : Cube :=
  let perm := indexToPermutation coord 8 in
  {| cPerm := cPerm cube; cOri := cOri cube;
     ePerm := writeAll (ePerm cube) (range 8) (fun i => i) (aget perm);
     eOri := eOri cube |}.

(** [getESlicePermutation]: [eSlicePermutation[i] = cube.ePerm[8 + i] - 8]. *)
Definition getESlicePermutation (cube : Cube) : Z :=
  permutationToIndex (map (fun i => aget (ePerm cube) (8 + i) - 8) (range 4)).

Definition setESlicePermutation (cube : Cube) (coord : Z) : Cube :=
  let perm := indexToPermutation coord 4 in
  {| cPerm := cPerm cube; cOri := cOri cube;
     ePerm := writeAll (ePerm cube) (range 4) (fun i => 8 + i)
                       (fun i => aget E_EDGES (aget perm i));
     eOri := eOri cube |}.

(** The move tables after [initializeMoveTables]. *)
Definition EO_MOVE_TABLE :=
  buildCoordinateMoveTable EO_SIZE getEdgeOrientation setEdgeOrientation.
Definition CO_MOVE_TABLE :=
  buildCoordinateMoveTable CO_SIZE getCornerOrientation setCornerOrientation.
Definition ESLICE_MOVE_TABLE :=
  buildCoordinateMoveTable ESLICE_SIZE getESlice setESlice.
Definition CP_MOVE_TABLE :=
  buildCoordinateMoveTable CP_SIZE getCornerPermutation setCornerPermutation.
Definition UDEP_MOVE_TABLE :=
  buildCoordinateMoveTable UDEP_SIZE getUDEdgePermutation
                           setUDEdgePermutation.
Definition EP_MOVE_TABLE :=
  buildCoordinateMoveTable EP_SIZE getESlicePermutation setESlicePermutation.

Definition applyMoveToEO := tableLookup EO_MOVE_TABLE.
Definition applyMoveToCO := tableLookup CO_MOVE_TABLE.
Definition applyMoveToESlice := tableLookup ESLICE_MOVE_TABLE.
Definition applyMoveToCP := tableLookup CP_MOVE_TABLE.
Definition applyMoveToUDEP := tableLookup UDEP_MOVE_TABLE.
Definition applyMoveToEP := tableLookup EP_MOVE_TABLE.

(** Composite coordinates of phase 2. *)
Definition CP_EP_SIZE : Z := CP_SIZE * EP_SIZE.
Definition UDEP_EP_SIZE : Z := UDEP_SIZE * EP_SIZE.

Definition applyMoveToCP_EP (coord moveIdx : Z) : Z :=
  let cp := coord / EP_SIZE in
  let ep := Z.rem coord EP_SIZE in
  applyMoveToCP cp moveIdx * EP_SIZE + applyMoveToEP ep moveIdx.

Definition applyMoveToUDEP_EP (coord moveIdx : Z) : Z :=
  let udep := coord / EP_SIZE in
  let ep := Z.rem coord EP_SIZE in
  applyMoveToUDEP udep moveIdx * EP_SIZE + applyMoveToEP ep moveIdx.

(** [isInG1]: every edge oriented, and each E-slice edge among the edges at
    positions 8 to 11. *)
Definition isInG1 (cube : Cube) : bool :=
  if existsb (nonZeroAt (eOri cube)) (range 12) then false
  else
    let edgesInESlice := map (aget (ePerm cube)) [8; 9; 10; 11] in
    forallb (includes edgesInESlice) E_EDGES.

Definition getPhase1Coord (cube : Cube) : Phase1Coord :=
  {| eo := getEdgeOrientation cube; co := getCornerOrientation cube;
     eslice := getESlice cube |}.

Definition getPhase2Coord (cube : Cube) : Phase2Coord :=
  {| cp := getCornerPermutation cube; udep := getUDEdgePermutation cube;
     ep := getESlicePermutation cube |}.

End Coordinates.

(** ** solver/kociemba/coordinates.ts, the revision at that path: a
    five-valued E-slice coordinate and the edges 4 to 7 as the E-slice *)

Module CoordinatesOld.

Definition ESLICE_SIZE : Z := 5.
Definition UDEP_SIZE : Z := 576.
Definition E_EDGES : list Z := [4; 5; 6; 7].

(** [getESlice]: the number of edges 4 to 7 outside the positions 4 to 7. *)
Definition getESlice (cube : Cube) : Z :=
  fold_left (fun misplacedCount i =>
               let edge := aget E_EDGES i in
               let position := indexOf (ePerm cube) edge in
               if (position <? 4) || (position >=? 8)
               then misplacedCount + 1 else misplacedCount)
            (range 4) 0.

(** [setESlice]. *)
Definition setESlice (cube : Cube) (coord : Z) : Cube :=
  let perm :=
    if coord =? 0
    then writeAll (ePerm cube) (range 4) (fun i => 4 + i) (aget E_EDGES)
    else
      let p := writeAll (ePerm cube) (range (Z.to_nat (Z.min coord 4)))
                        (fun i => i) (aget E_EDGES) in
      writeAll p (map (fun d => coord + Z.of_nat d)
                      (seq 0 (Z.to_nat (4 - coord))))
               (fun i => 4 + i) (aget E_EDGES) in
  {| cPerm := cPerm cube; cOri := cOri cube; ePerm := perm;
     eOri := eOri cube |}.

(** [getUDEdgePermutation]: [uEdges[edge] = pos], [dEdges[edge - 4] = pos],
    each mapped into 0..3 and ranked. *)
Definition udStep (perm : list Z) (st : list Z * list Z) (pos : Z)
    : list Z * list Z :=
  let '(uEdges, dEdges) := st in
  let edge := aget perm pos in
  if (edge >=? 0) && (edge <? 4) then (aset uEdges edge pos, dEdges)
  else if (edge >=? 4) && (edge <? 8) then (uEdges, aset dEdges (edge - 4) pos)
  else (uEdges, dEdges).

Definition layerIndex (pos : Z) : Z :=
  if pos <? 4 then pos else if pos <? 8 then pos - 4 else pos - 8.

Definition getUDEdgePermutation (cube : Cube) : Z :=
  let '(uEdges, dEdges) :=
    fold_left (udStep (ePerm cube)) (range 12) ([], []) in
  let uPermIndex := permutationToIndex (map layerIndex uEdges) in
  let dPermIndex := permutationToIndex (map layerIndex dEdges) in
  uPermIndex * 24 + dPermIndex.

Definition setUDEdgePermutation (cube : Cube) (coord : Z) : Cube :=
  let dPermIndex := Z.rem coord 24 in
  let uPermIndex := coord / 24 in
  let uPerm := indexToPermutation uPermIndex 4 in
  let dPerm := indexToPermutation dPermIndex 4 in
  let p := writeAll (ePerm cube) (range 4) (aget uPerm) (fun i => i) in
  {| cPerm := cPerm cube; cOri := cOri cube;
     ePerm := writeAll p (range 4) (fun i => 4 + aget dPerm i)
                       (fun i => 4 + i);
     eOri := eOri cube |}.

(** [getESlicePermutation]: for each of the edges 4 to 7 the first of the
    positions 4 to 7 that holds it; an edge that is elsewhere leaves its
    slot of the result empty. *)
Definition getESlicePermutation (cube : Cube) : Z :=
  let eSlicePermutation :=
    fold_left (fun acc eSliceEdge =>
                 let actualEdge := aget E_EDGES eSliceEdge in
                 match find (fun pos => aget (ePerm cube) pos =? actualEdge)
                            [4; 5; 6; 7] with
                 | Some pos => aset acc eSliceEdge (pos - 4)
                 | None => acc
                 end)
              (range 4) [] in
  permutationToIndex eSlicePermutation.

Definition setESlicePermutation (cube : Cube) (coord : Z) : Cube :=
  let perm := indexToPermutation coord 4 in
  {| cPerm := cPerm cube; cOri := cOri cube;
     ePerm := writeAll (ePerm cube) (range 4) (fun i => 4 + aget perm i)
                       (aget E_EDGES);
     eOri := eOri cube |}.

Definition ESLICE_MOVE_TABLE :=
  buildCoordinateMoveTable ESLICE_SIZE getESlice setESlice.
Definition UDEP_MOVE_TABLE :=
  buildCoordinateMoveTable UDEP_SIZE getUDEdgePermutation
                           setUDEdgePermutation.
Definition EP_MOVE_TABLE :=
  buildCoordinateMoveTable EP_SIZE getESlicePermutation setESlicePermutation.

Definition applyMoveToESlice := tableLookup ESLICE_MOVE_TABLE.
Definition applyMoveToUDEP := tableLookup UDEP_MOVE_TABLE.
Definition applyMoveToEP := tableLookup EP_MOVE_TABLE.

(** [isInG1] of this revision: positions 4 to 7. *)
Definition isInG1 (cube : Cube) : bool :=
  if existsb (nonZeroAt (eOri cube)) (range 12) then false
  else
    let edgesInESlice := map (aget (ePerm cube)) [4; 5; 6; 7] in
    forallb (includes edgesInESlice) E_EDGES.

End CoordinatesOld.

(** ** core/notation.ts: the functions on move keys *)

Module Notation.

(** [invertMoveKey]: a key ending in [p] loses it, a key ending in [2] is
    kept, any other key gets a [p] appended.  On the eighteen keys: *)
Definition invertMoveKey (move : MoveKey) : MoveKey :=
  match move with
  | U => Up | U2 => U2 | Up => U
  | R => Rp | R2 => R2 | Rp => R
  | F => Fp | F2 => F2 | Fp => F
  | D => Dp | D2 => D2 | Dp => D
  | L => Lp | L2 => L2 | Lp => L
  | B => Bp | B2 => B2 | Bp => B
  end.

(** [invertMoveSequence]: from the last move to the first, each inverted. *)
Definition invertMoveSequence (moves : list MoveKey) : list MoveKey :=
  map invertMoveKey (rev moves).

(** [applyMoveSequence]. *)
Definition applyMoveSequence (cube : Cube) (moves : list MoveKey) : Cube :=
  fold_left (fun result moveKey => applyMove result (getMoveByKey moveKey))
            moves cube.

Definition composeMoveSequences (seq1 seq2 : list MoveKey) : list MoveKey :=
  seq1 ++ seq2.

(** [getFaceFromMove]: the first character of the key, the face letter. *)
Inductive FaceLetter : Type := LU | LR | LF | LD | LL | LB.

Definition getFaceFromMove (move : MoveKey) : FaceLetter :=
  match move with
  | U | U2 | Up => LU
  | R | R2 | Rp => LR
  | F | F2 | Fp => LF
  | D | D2 | Dp => LD
  | L | L2 | Lp => LL
  | B | B2 | Bp => LB
  end.

Definition faceEqb (a b : FaceLetter) : bool :=
  match a, b with
  | LU, LU | LR, LR | LF, LF | LD, LD | LL, LL | LB, LB => true
  | _, _ => false
  end.

(** [getMoveQuarterTurns]: 2 for a key that ends in "2", 3 for one that
    ends in "p", 1 otherwise. *)
Definition getMoveQuarterTurns (move : MoveKey) : Z :=
  match move with
  | U2 | R2 | F2 | D2 | L2 | B2 => 2
  | Up | Rp | Fp | Dp | Lp | Bp => 3
  | _ => 1
  end.

(** The keys [face], [face + "2"] and [face + "p"]. *)
Definition faceKey (face : FaceLetter) : MoveKey :=
  match face with
  | LU => U | LR => R | LF => F | LD => D | LL => L | LB => B
  end.

Definition faceKey2 (face : FaceLetter) : MoveKey :=
  match face with
  | LU => U2 | LR => R2 | LF => F2 | LD => D2 | LL => L2 | LB => B2
  end.

Definition faceKeyp (face : FaceLetter) : MoveKey :=
  match face with
  | LU => Up | LR => Rp | LF => Fp | LD => Dp | LL => Lp | LB => Bp
  end.

(** [quarterTurnsToMove]: [Some None] stands for [null], [None] for the
    error thrown on a turn count outside 0..3. *)
Definition quarterTurnsToMove (face : FaceLetter) (turns : Z)
    : option (option MoveKey) :=
  if turns =? 0 then Some None
  else if turns =? 1 then Some (Some (faceKey face))
  else if turns =? 2 then Some (Some (faceKey2 face))
  else if turns =? 3 then Some (Some (faceKeyp face))
  else None.

(** [combineSameFaceMoves]. *)
Definition combineSameFaceMoves (move1 move2 : MoveKey)
    : option (option MoveKey) :=
  let face := getFaceFromMove move1 in
  let count1 := getMoveQuarterTurns move1 in
  let count2 := getMoveQuarterTurns move2 in
  let totalTurns := Z.rem (count1 + count2) 4 in
  quarterTurnsToMove face totalTurns.

(** The [while] loop of [simplifyMoveSequence] and the push that follows
    it.  [result] is kept with its last element first, so that [pop] takes
    the head; every turn of the loop pops one element.  [None] stands for
    the error of [quarterTurnsToMove]. *)
Fixpoint absorbMove (result : list MoveKey) (face : FaceLetter)
    (currentMove : MoveKey) : option (list MoveKey) :=
  match result with
  | lastMove :: rest =>
      if faceEqb (getFaceFromMove lastMove) face
      then match combineSameFaceMoves lastMove currentMove with
           | None => None
           | Some None => Some rest
           | Some (Some combined) => absorbMove rest face combined
           end
      else Some (currentMove :: result)
  | [] => Some [currentMove]
  end.

(** [simplifyMoveSequence]. *)
Definition simplifyMoveSequence (moves : list MoveKey)
    : option (list MoveKey) :=
  option_map (@rev MoveKey)
    (fold_left (fun acc move =>
                  match acc with
                  | None => None
                  | Some result => absorbMove result (getFaceFromMove move) move
                  end)
               moves (Some [])).

End Notation.
Export Notation.

(** ** solver/kociemba/pruning.ts *)

Module Pruning.

Definition MAX_DISTANCE : Z := 20.
Definition UNKNOWN_DISTANCE : Z := 255.

(** [class PruningTable]: [data] is a [Uint8Array] of [size] bytes. *)
Record PruningTable : Type := mkTable {
  data : list Z;
  size : Z;
  name : String.string
}.

(** The constructor fills the array with [UNKNOWN_DISTANCE]. *)
Definition newTable (size : Z) (name : String.string) : PruningTable :=
  {| data := repeat UNKNOWN_DISTANCE (Z.to_nat size);
     size := size; name := name |}.

(** [get]: outside the array the typed array gives [undefined], which is
    equal to no distance; the model gives [0], which no caller compares
    with anything but [UNKNOWN_DISTANCE]. *)
Definition get (t : PruningTable) (index : Z) : Z := aget (data t) index.

(** A write into a typed array: no effect outside the array. *)
Fixpoint tset_nat (a : list Z) (i : nat) (v : Z) : list Z :=
  match a, i with
  | [], _ => []
  | _ :: t, O => v :: t
  | x :: t, S k => x :: tset_nat t k v
  end.

(** [set]: [this.data[index] = Math.min(distance, MAX_DISTANCE)]. *)
Definition set (t : PruningTable) (index distance : Z) : PruningTable :=
  if index <? 0 then t
  else {| data := tset_nat (data t) (Z.to_nat index)
                           (Z.min distance MAX_DISTANCE);
          size := size t; name := name t |}.

Definition isBuilt (t : PruningTable) : bool :=
  negb (get t 0 =? UNKNOWN_DISTANCE).

Definition getSize (t : PruningTable) : Z := size t.

(** [setData]: [None] stands for the error thrown on a wrong length. *)
Definition setData (t : PruningTable) (d : list Z) : option PruningTable :=
  if negb (Z.of_nat (length d) =? size t) then None
  else Some {| data := d; size := size t; name := name t |}.

(** The body of [for (const moveIdx of allowedMoves)]: the table and the
    coordinates pushed on the queue during this pass. *)
Definition expandStep (applyMoveFunc : Z -> Z -> Z)
    (currentCoord nextDistance : Z)
    (st : PruningTable * list Z) (moveIdx : Z) : PruningTable * list Z :=
  let '(table, pushed) := st in
  let nextCoord := applyMoveFunc currentCoord moveIdx in
  if get table nextCoord =? UNKNOWN_DISTANCE
  then (set table nextCoord nextDistance, pushed ++ [nextCoord])
  else (table, pushed).

(** The [while (head < queue.length)] loop.  [pending] is the part of the
    queue from [head] on.  Every turn takes one coordinate off [pending] and
    puts one on it for each entry that leaves [UNKNOWN_DISTANCE], so the
    loop ends; [fuel] bounds the turns (see [bfsLoop_fuel]). *)
Fixpoint bfsLoop (fuel : nat) (applyMoveFunc : Z -> Z -> Z)
    (allowedMoves : list Z) (table : PruningTable) (pending : list Z)
    : PruningTable :=
  match fuel with
  | O => table
  | S fuel' =>
      match pending with
      | [] => table
      | currentCoord :: rest =>
          let currentDistance := get table currentCoord in
          if currentDistance >=? MAX_DISTANCE - 1
          then bfsLoop fuel' applyMoveFunc allowedMoves table rest
          else
            let nextDistance := currentDistance + 1 in
            let '(table', pushed) :=
              fold_left (expandStep applyMoveFunc currentCoord nextDistance)
                        allowedMoves (table, []) in
            bfsLoop fuel' applyMoveFunc allowedMoves table' (rest ++ pushed)
      end
  end.

(** [buildPruningTable]. *)
Definition buildPruningTable (table : PruningTable)
    (applyMoveFunc : Z -> Z -> Z) (goalCoord : Z) (allowedMoves : list Z)
    : PruningTable :=
  bfsLoop (S (length (data table))) applyMoveFunc allowedMoves
          (set table goalCoord 0) [goalCoord].

(** The default of [allowedMoves]: all eighteen moves. *)
Definition ALL_MOVE_INDICES : list Z := range 18.

Definition PHASE2_MOVES : list Z := [0; 1; 2; 9; 10; 11; 4; 13; 7; 16].

(** The tables [initializePruningTables] builds when the cache on disk has
    none (the cache is outside this model). *)
Definition EOPruningTable : PruningTable :=
  buildPruningTable (newTable EO_SIZE "eo_pruning"%string)
                    Coordinates.applyMoveToEO 0 ALL_MOVE_INDICES.
Definition COPruningTable : PruningTable :=
  buildPruningTable (newTable CO_SIZE "co_pruning"%string)
                    Coordinates.applyMoveToCO 0 ALL_MOVE_INDICES.
Definition ESlicePruningTable : PruningTable :=
  buildPruningTable (newTable Coordinates.ESLICE_SIZE "eslice_pruning"%string)
                    Coordinates.applyMoveToESlice 0 ALL_MOVE_INDICES.
Definition CPPruningTable : PruningTable :=
  buildPruningTable (newTable CP_SIZE "cp_pruning"%string)
                    Coordinates.applyMoveToCP 0 PHASE2_MOVES.
Definition UDEPPruningTable : PruningTable :=
  buildPruningTable (newTable Coordinates.UDEP_SIZE "udep_pruning"%string)
                    Coordinates.applyMoveToUDEP 0 PHASE2_MOVES.
Definition EPPruningTable : PruningTable :=
  buildPruningTable (newTable EP_SIZE "ep_pruning"%string)
                    Coordinates.applyMoveToEP 0 PHASE2_MOVES.
Definition CP_EP_PruningTable : PruningTable :=
  buildPruningTable (newTable Coordinates.CP_EP_SIZE "cp_ep_pruning"%string)
                    Coordinates.applyMoveToCP_EP 0 PHASE2_MOVES.
Definition UDEP_EP_PruningTable : PruningTable :=
  buildPruningTable (newTable Coordinates.UDEP_EP_SIZE "udep_ep_pruning"%string)
                    Coordinates.applyMoveToUDEP_EP 0 PHASE2_MOVES.

(** The module-level tables the searches read: the six move tables and the
    pruning tables of the two heuristics. *)
Record Globals : Type := mkGlobals {
  gMoveEO : Z -> Z -> Z;
  gMoveCO : Z -> Z -> Z;
  gMoveESlice : Z -> Z -> Z;
  gMoveCP : Z -> Z -> Z;
  gMoveUDEP : Z -> Z -> Z;
  gMoveEP : Z -> Z -> Z;
  gPruneEO : PruningTable;
  gPruneCO : PruningTable;
  gPruneESlice : PruningTable;
  gPruneCP_EP : PruningTable;
  gPruneUDEP_EP : PruningTable
}.

(** The tables after [initializePruningTables]. *)
Definition builtGlobals : Globals :=
  {| gMoveEO := Coordinates.applyMoveToEO;
     gMoveCO := Coordinates.applyMoveToCO;
     gMoveESlice := Coordinates.applyMoveToESlice;
     gMoveCP := Coordinates.applyMoveToCP;
     gMoveUDEP := Coordinates.applyMoveToUDEP;
     gMoveEP := Coordinates.applyMoveToEP;
     gPruneEO := EOPruningTable;
     gPruneCO := COPruningTable;
     gPruneESlice := ESlicePruningTable;
     gPruneCP_EP := CP_EP_PruningTable;
     gPruneUDEP_EP := UDEP_EP_PruningTable |}.

(** [phase1Heuristic] and [phase2Heuristic]. *)
Definition phase1Heuristic (g : Globals) (eo co eslice : Z) : Z :=
  Z.max (Z.max (get (gPruneEO g) eo) (get (gPruneCO g) co))
        (get (gPruneESlice g) eslice).

Definition phase2Heuristic (g : Globals) (cp udep ep : Z) : Z :=
  let cp_ep := cp * EP_SIZE + ep in
  let udep_ep := udep * EP_SIZE + ep in
  Z.max (get (gPruneCP_EP g) cp_ep) (get (gPruneUDEP_EP g) udep_ep).

End Pruning.
Export Pruning.

(** ** solver/kociemba/ida.ts *)

Module IDA.

Definition MAX_PHASE1_DEPTH : Z := 25.
Definition MAX_PHASE2_DEPTH : Z := 18.

Record SearchResult : Type := mkSearchResult {
  solution : list Z;
  depth : Z;
  nodesSearched : Z;
  timeMs : Z
}.

Record SearchStats : Type := mkSearchStats {
  phase1Stats : option SearchResult;
  phase2Stats : option SearchResult;
  totalDepth : Z;
  totalNodes : Z;
  totalTimeMs : Z
}.

Definition PHASE1_MOVES : list Z := range 18.

Definition PHASE2_MOVES : list Z := [0; 1; 2; 9; 10; 11; 4; 13; 7; 16].

(** [shouldSkipMove]: only a move of the face of the last move is skipped. *)
Definition shouldSkipMove (moveIdx lastMove : Z) (allowedMoves : list Z)
    : bool :=
  if lastMove =? -1 then false
  else
    let currentFace := moveIdx / 3 in
    let lastFace := lastMove / 3 in
    if currentFace =? lastFace then true else false.

(** [areOppositeFaces]. *)
Definition areOppositeFaces (face1 face2 : Z) : bool :=
  existsb (fun '(a, b) => ((face1 =? a) && (face2 =? b))
                          || ((face1 =? b) && (face2 =? a)))
          [(0, 3); (1, 4); (2, 5)].

(** [moveIndicesToKeys]: [MOVE_KEYS[idx]].  The searches return indices that
    [MOVE_KEYS] has (see [searchPhase1Depth_moves]); for an index it does not
    have the model gives [U] where the sources give [undefined]. *)
Definition moveIndicesToKeys (moveIndices : list Z) : list MoveKey :=
  map (fun idx => match moveKeyAt idx with Some k => k | None => U end)
      moveIndices.

(** [moveKeysToIndices]: [MOVE_KEYS.indexOf(key)]. *)
Definition moveKeysToIndices (moveKeys : list MoveKey) : list Z :=
  map MoveIndex moveKeys.

Section Search.

Variable g : Globals.

(** [searchPhase1Depth]: the recursion goes one level down while
    [currentDepth < depth]; [fuel] counts the levels left, and
    [searchPhase1] starts it with [depth] of them. *)
Fixpoint searchPhase1Depth (fuel : nat) (coord : Phase1Coord)
    (depth currentDepth lastMove : Z) : option (list Z) * Z :=
  let nodesSearched := 1 in
  if (eo coord =? 0) && (eslice coord =? 0) then (Some [], nodesSearched)
  else
    let heuristic := phase1Heuristic g (eo coord) (co coord) (eslice coord) in
    if currentDepth + heuristic >? depth then (None, nodesSearched)
    else if currentDepth >=? depth then (None, nodesSearched)
    else
      match fuel with
      | O => (None, nodesSearched)
      | S fuel' =>
          (fix tryMoves (moves : list Z) (nodesSearched : Z)
             : option (list Z) * Z :=
             match moves with
             | [] => (None, nodesSearched)
             | moveIdx :: more =>
                 if shouldSkipMove moveIdx lastMove PHASE1_MOVES
                 then tryMoves more nodesSearched
                 else
                   let nextCoord :=
                     {| eo := gMoveEO g (eo coord) moveIdx;
                        co := gMoveCO g (co coord) moveIdx;
                        eslice := gMoveESlice g (eslice coord) moveIdx |} in
                   let result :=
                     searchPhase1Depth fuel' nextCoord depth
                                       (currentDepth + 1) moveIdx in
                   let nodesSearched := nodesSearched + snd result in
                   match fst result with
                   | Some sol => (Some (moveIdx :: sol), nodesSearched)
                   | None => tryMoves more nodesSearched
                   end
             end) PHASE1_MOVES nodesSearched
      end.

Fixpoint searchPhase2Depth (fuel : nat) (coord : Phase2Coord)
    (depth currentDepth lastMove : Z) : option (list Z) * Z :=
  let nodesSearched := 1 in
  if (cp coord =? 0) && (udep coord =? 0) && (ep coord =? 0)
  then (Some [], nodesSearched)
  else
    let heuristic := phase2Heuristic g (cp coord) (udep coord) (ep coord) in
    if currentDepth + heuristic >? depth then (None, nodesSearched)
    else if currentDepth >=? depth then (None, nodesSearched)
    else
      match fuel with
      | O => (None, nodesSearched)
      | S fuel' =>
          (fix tryMoves (moves : list Z) (nodesSearched : Z)
             : option (list Z) * Z :=
             match moves with
             | [] => (None, nodesSearched)
             | moveIdx :: more =>
                 if shouldSkipMove moveIdx lastMove PHASE2_MOVES
                 then tryMoves more nodesSearched
                 else
                   let nextCoord :=
                     {| cp := gMoveCP g (cp coord) moveIdx;
                        udep := gMoveUDEP g (udep coord) moveIdx;
                        ep := gMoveEP g (ep coord) moveIdx |} in
                   let result :=
                     searchPhase2Depth fuel' nextCoord depth
                                       (currentDepth + 1) moveIdx in
                   let nodesSearched := nodesSearched + snd result in
                   match fst result with
                   | Some sol => (Some (moveIdx :: sol), nodesSearched)
                   | None => tryMoves more nodesSearched
                   end
             end) PHASE2_MOVES nodesSearched
      end.

(** The iterative deepening loop
    [for (depth = Math.max(1, heuristic); depth <= maxDepth; depth++)]:
    the first depth that gives a solution, with the nodes searched up to
    there. *)
Definition depthsFrom (first maxDepth : Z) : list Z :=
  map (fun d => first + Z.of_nat d) (seq 0 (Z.to_nat (maxDepth - first + 1))).

Fixpoint deepen (searchDepth : Z -> option (list Z) * Z)
    (depths : list Z) (totalNodes : Z) : option (list Z * Z * Z) :=
  match depths with
  | [] => None
  | depth :: more =>
      let result := searchDepth depth in
      let totalNodes := totalNodes + snd result in
      match fst result with
      | Some sol => Some (sol, depth, totalNodes)
      | None => deepen searchDepth more totalNodes
      end
  end.

(** [searchPhase1] without its two readings of the clock: the solution, its
    depth and the nodes searched, or [None] for [null]. *)
Definition searchPhase1Core (startCoord : Phase1Coord) (maxDepth : Z)
    : option (list Z * Z * Z) :=
  if (eo startCoord =? 0) && (eslice startCoord =? 0) then Some ([], 0, 0)
  else
    let heuristic :=
      phase1Heuristic g (eo startCoord) (co startCoord) (eslice startCoord) in
    deepen (fun depth =>
              searchPhase1Depth (Z.to_nat depth) startCoord depth 0 (-1))
           (depthsFrom (Z.max 1 heuristic) maxDepth) 0.

Definition searchPhase2Core (startCoord : Phase2Coord) (maxDepth : Z)
    : option (list Z * Z * Z) :=
  if (cp startCoord =? 0) && (udep startCoord =? 0) && (ep startCoord =? 0)
  then Some ([], 0, 0)
  else
    let heuristic :=
      phase2Heuristic g (cp startCoord) (udep startCoord) (ep startCoord) in
    deepen (fun depth =>
              searchPhase2Depth (Z.to_nat depth) startCoord depth 0 (-1))
           (depthsFrom (Z.max 1 heuristic) maxDepth) 0.

End Search.

End IDA.
Export IDA.

(** ** solver/kociemba/solver.ts *)

Module Solver.

Record SolverConfig : Type := mkConfig {
  maxPhase1Depth : Z;
  maxPhase2Depth : Z;
  maxTotalDepth : Z;
  timeoutMs : option Z;
  verbose : bool
}.

Definition DEFAULT_CONFIG : SolverConfig :=
  {| maxPhase1Depth := 18; maxPhase2Depth := 18; maxTotalDepth := 30;
     timeoutMs := None; verbose := false |}.

(** The messages of the [error] field. *)
Inductive ErrorMessage : Type :=
  | Phase1SearchFailed (maxDepth : Z)
      (* "Phase 1 search failed (max depth: ...)" *)
  | FailedToReachG1
      (* "Failed to reach G1 subgroup in Phase 1" *)
  | Phase2SearchFailed (maxDepth : Z)
      (* "Phase 2 search failed (max depth: ...)" *)
  | VerificationFailed
      (* "Solution verification failed: Solution does not result in
         solved cube" *)
  | SolverError
      (* "Solver error: ...", the message of a caught exception *).

Record Solution : Type := mkSolution {
  moves : list MoveKey;
  scramble : list MoveKey;
  phase1Moves : list MoveKey;
  phase2Moves : list MoveKey;
  stats : SearchStats;
  success : bool;
  error : option ErrorMessage
}.

(** *** The world a call of [solve] runs in

    Cubes are objects: a [Cube] argument is a reference into the heap, and
    [solvedCube()] and [applyMove] allocate the cube they return.  The clock
    answers each [Date.now()] with its next reading.  [initialized] is the
    field of the solver object. *)
Record World : Type := mkWorld {
  heap : list Cube;
  clock : nat -> Z;
  ticks : nat;
  initialized : bool
}.

Definition Ref : Type := nat.

Definition M (A : Type) : Type := World -> A * World.

Definition ret {A : Type} (a : A) : M A := fun w => (a, w).

Definition bind {A B : Type} (m : M A) (k : A -> M B) : M B :=
  fun w => let (a, w') := m w in k a w'.

Notation "x <- m ;; k" := (bind m (fun x => k))
  (at level 61, m at next level, right associativity).

Definition DateNow : M Z :=
  fun w => (clock w (ticks w),
            {| heap := heap w; clock := clock w; ticks := S (ticks w);
               initialized := initialized w |}).

(** Reading the cube a reference points to (a reference that points
    nowhere does not occur; the model reads the solved cube there). *)
Definition load (r : Ref) : M Cube :=
  fun w => (nth r (heap w) solvedCube, w).

Definition alloc (c : Cube) : M Ref :=
  fun w => (length (heap w),
            {| heap := heap w ++ [c]; clock := clock w; ticks := ticks w;
               initialized := initialized w |}).

Definition getInitialized : M bool := fun w => (initialized w, w).

Definition setInitialized : M unit :=
  fun w => (tt, {| heap := heap w; clock := clock w; ticks := ticks w;
                   initialized := true |}).

(** [initialize]: nothing when the flag is set; otherwise the tables are
    built (or read from the cache) between two readings of the clock and
    the flag is set.  The tables the searches then read are the
    [Globals]. *)
Definition initialize : M unit :=
  init <- getInitialized ;;
  if init then ret tt
  else
    startTime <- DateNow ;;
    _ <- setInitialized ;;
    _ <- DateNow ;;
    ret tt.

(** [isSolved(cube)] compares with a new solved cube. *)
Definition isSolvedRef (cube : Ref) : M bool :=
  c <- load cube ;;
  _ <- alloc solvedCube ;;
  ret (isSolved c).

Definition applyMoveRef (cube : Ref) (move : MoveTable) : M Ref :=
  c <- load cube ;;
  alloc (applyMove c move).

(** The loop [for (const moveKey of moves) cube = applyMove(cube, move)]:
    with no move the result is the reference it started from. *)
Fixpoint applyMovesRef (cube : Ref) (moves : list MoveKey) : M Ref :=
  match moves with
  | [] => ret cube
  | moveKey :: more =>
      next <- applyMoveRef cube (getMoveByKey moveKey) ;;
      applyMovesRef next more
  end.

Section Solve.

Variable g : Globals.
Variable config : SolverConfig.

Definition noStats : SearchStats :=
  {| phase1Stats := None; phase2Stats := None;
     totalDepth := 0; totalNodes := 0; totalTimeMs := 0 |}.

Definition emptySolution (ok : bool) (err : option ErrorMessage) : Solution :=
  {| moves := []; scramble := []; phase1Moves := []; phase2Moves := [];
     stats := noStats; success := ok; error := err |}.

(** [searchPhase1] and [searchPhase2] of [ida.ts], with their readings of
    the clock: one on entry and one when a result is returned. *)
Definition searchPhase1 (startCoord : Phase1Coord) (maxDepth : Z)
    : M (option SearchResult) :=
  startTime <- DateNow ;;
  match searchPhase1Core g startCoord maxDepth with
  | None => ret None
  | Some (sol, d, nodes) =>
      t <- DateNow ;;
      ret (Some {| solution := sol; depth := d; nodesSearched := nodes;
                   timeMs := t - startTime |})
  end.

Definition searchPhase2 (startCoord : Phase2Coord) (maxDepth : Z)
    : M (option SearchResult) :=
  startTime <- DateNow ;;
  match searchPhase2Core g startCoord maxDepth with
  | None => ret None
  | Some (sol, d, nodes) =>
      t <- DateNow ;;
      ret (Some {| solution := sol; depth := d; nodesSearched := nodes;
                   timeMs := t - startTime |})
  end.

(** [solvePhase1]. *)
Definition solvePhase1 (cube : Ref) : M Solution :=
  c <- load cube ;;
  let phase1Coord := Coordinates.getPhase1Coord c in
  if Coordinates.isInG1 c then ret (emptySolution true None)
  else
    searchResult <- searchPhase1 phase1Coord (maxPhase1Depth config) ;;
    match searchResult with
    | None =>
        ret (emptySolution false
               (Some (Phase1SearchFailed (maxPhase1Depth config))))
    | Some sr =>
        let keys := moveIndicesToKeys (solution sr) in
        ret {| moves := keys; scramble := []; phase1Moves := keys;
               phase2Moves := [];
               stats := {| phase1Stats := Some sr; phase2Stats := None;
                           totalDepth := depth sr;
                           totalNodes := nodesSearched sr;
                           totalTimeMs := timeMs sr |};
               success := true; error := None |}
    end.

(** [solvePhase2]. *)
Definition solvePhase2 (cube : Ref) : M Solution :=
  c <- load cube ;;
  let phase2Coord := Coordinates.getPhase2Coord c in
  solved <- isSolvedRef cube ;;
  if solved then ret (emptySolution true None)
  else
    searchResult <- searchPhase2 phase2Coord (maxPhase2Depth config) ;;
    match searchResult with
    | None =>
        ret (emptySolution false
               (Some (Phase2SearchFailed (maxPhase2Depth config))))
    | Some sr =>
        let keys := moveIndicesToKeys (solution sr) in
        ret {| moves := keys; scramble := []; phase1Moves := [];
               phase2Moves := keys;
               stats := {| phase1Stats := None; phase2Stats := Some sr;
                           totalDepth := depth sr;
                           totalNodes := nodesSearched sr;
                           totalTimeMs := timeMs sr |};
               success := true; error := None |}
    end.

(** [verifySolution]: [valid] of its result. *)
Definition verifySolution (originalCube : Ref) (sol : list MoveKey)
    : M bool :=
  testCube <- applyMovesRef originalCube sol ;;
  isSolvedRef testCube.

(** [solve].  The [verbose] logging is left out.  Nothing in the body of
    the [try] throws in this model, so its [catch] branch, which would
    return [SolverError], has no counterpart. *)
Definition solve (cube : Ref) : M Solution :=
  init <- getInitialized ;;
  _ <- (if init then ret tt else initialize) ;;
  startTime <- DateNow ;;
  solved <- isSolvedRef cube ;;
  if solved then ret (emptySolution true None)
  else
    phase1Result <- solvePhase1 cube ;;
    if negb (success phase1Result) then ret phase1Result
    else
      let stats1 :=
        {| phase1Stats := phase1Stats (stats phase1Result);
           phase2Stats := None; totalDepth := 0;
           totalNodes := 0 + totalNodes (stats phase1Result);
           totalTimeMs := 0 |} in
      intermediateCube <- applyMovesRef cube (phase1Moves phase1Result) ;;
      inter <- load intermediateCube ;;
      if negb (Coordinates.isInG1 inter)
      then ret {| moves := []; scramble := []; phase1Moves := [];
                  phase2Moves := []; stats := stats1; success := false;
                  error := Some FailedToReachG1 |}
      else
        phase2Result <- solvePhase2 intermediateCube ;;
        if negb (success phase2Result)
        then ret {| moves := moves phase2Result;
                    scramble := scramble phase2Result;
                    phase1Moves := phase1Moves phase1Result;
                    phase2Moves := phase2Moves phase2Result;
                    stats :=
                      {| phase1Stats := phase1Stats stats1;
                         phase2Stats := phase2Stats (stats phase2Result);
                         totalDepth := totalDepth stats1;
                         totalNodes := totalNodes stats1
                                       + totalNodes (stats phase2Result);
                         totalTimeMs := totalTimeMs stats1 |};
                    success := success phase2Result;
                    error := error phase2Result |}
        else
          t <- DateNow ;;
          let stats2 :=
            {| phase1Stats := phase1Stats stats1;
               phase2Stats := phase2Stats (stats phase2Result);
               totalDepth :=
                 Z.of_nat (length (phase1Moves phase1Result))
                 + Z.of_nat (length (phase2Moves phase2Result));
               totalNodes := totalNodes stats1
                             + totalNodes (stats phase2Result);
               totalTimeMs := t - startTime |} in
          let sol := phase1Moves phase1Result ++ phase2Moves phase2Result in
          let scr := invertMoveSequence sol in
          valid <- verifySolution cube sol ;;
          if negb valid
          then ret {| moves := sol; scramble := scr;
                      phase1Moves := phase1Moves phase1Result;
                      phase2Moves := phase2Moves phase2Result;
                      stats := stats2; success := false;
                      error := Some VerificationFailed |}
          else ret {| moves := sol; scramble := scr;
                      phase1Moves := phase1Moves phase1Result;
                      phase2Moves := phase2Moves phase2Result;
                      stats := stats2; success := true; error := None |}.

(** [generateScramble]: [None] stands for the error thrown when the solve
    did not succeed. *)
Definition generateScramble (cube : Ref) : M (option (list MoveKey)) :=
  s <- solve cube ;;
  ret (if success s then Some (scramble s) else None).

(** The loop of [solveCubes]. *)
Fixpoint solveEach (cubes : list Ref) : M (list Solution) :=
  match cubes with
  | [] => ret []
  | cube :: more =>
      result <- solve cube ;;
      results <- solveEach more ;;
      ret (result :: results)
  end.

(** [solveCubes]: one solver, initialized once, for all the cubes. *)
Definition solveCubes (cubes : list Ref) : M (list Solution) :=
  _ <- initialize ;;
  solveEach cubes.

End Solve.

End Solver.
Export Solver.

(* ================================================================= *)
(** * Part II: properties *)
(* ================================================================= *)

(** ** Tactics shared by the proofs *)

(** Boolean hypotheses into propositions. *)
Ltac prop_of_bool H :=
  repeat first
    [ rewrite andb_true_iff in H
    | rewrite orb_true_iff in H
    | rewrite orb_false_iff in H
    | rewrite negb_true_iff in H
    | rewrite negb_false_iff in H
    | rewrite Z.eqb_eq in H
    | rewrite Z.eqb_neq in H
    | rewrite Z.leb_le in H
    | rewrite Z.ltb_lt in H
    | rewrite Nat.eqb_eq in H ].

(** A list of known length, element by element. *)
Ltac explode_list l H :=
  repeat (destruct l as [| ? l]; simpl in H; try discriminate H).

Lemma cons_eq {A : Type} (x y : A) (l l' : list A) :
  x = y -> l = l' -> x :: l = y :: l'.
Proof. intros -> ->; reflexivity. Qed.

(** A number known to lie in 0..2 (or 0..1), case by case. *)
Ltac cases_small :=
  repeat match goal with
  | H : 0 <= ?a <= 2 |- context [?a] =>
      let E := fresh in
      assert (a = 0 \/ a = 1 \/ a = 2) as E by lia;
      clear H; destruct E as [E | [E | E]]; rewrite E
  | H : 0 <= ?a <= 1 |- context [?a] =>
      let E := fresh in
      assert (a = 0 \/ a = 1) as E by lia;
      clear H; destruct E as [E | E]; rewrite E
  end.

(** The range hypotheses of an exploded list. *)
Ltac split_ranges H :=
  simpl in H; prop_of_bool H;
  repeat match type of H with
  | _ /\ _ => let H1 := fresh in destruct H as [H1 H]
  end.

(** ** Lists and loops *)

Lemma existsb_false {A} (f : A -> bool) (l : list A) :
  existsb f l = false <-> forall x, In x l -> f x = false.
Proof.
  induction l as [| a l IH]; simpl.
  - split; [ intros _ x [] | reflexivity ].
  - rewrite orb_false_iff, IH. split.
    + intros [Ha Hl] x [<- | Hx]; auto.
    + intros H; split; [ apply H; now left | intros x Hx; apply H; now right ].
Qed.

Lemma nonZeroAt_false (a : list Z) (i : Z) :
  0 <= i -> nonZeroAt a i = false -> aget a i = 0.
Proof.
  unfold nonZeroAt, aget. intros Hi H.
  destruct (i <? 0) eqn:E; [ apply Z.ltb_lt in E; lia | ].
  destruct (nth_error a (Z.to_nat i)) as [v |] eqn:N; [ | discriminate ].
  apply negb_false_iff, Z.eqb_eq in H. subst v.
  apply nth_error_nth with (d := 0) in N. exact N.
Qed.

Lemma In_range (n : nat) (i : Z) : In i (range n) <-> 0 <= i < Z.of_nat n.
Proof.
  unfold range. rewrite in_map_iff. split.
  - intros [k [<- Hk]]. apply in_seq in Hk. lia.
  - intros H. exists (Z.to_nat i). split; [ lia | apply in_seq; lia ].
Qed.

Lemma forallb_ext_eq {A} (f g : A -> bool) (l : list A) :
  (forall x, f x = g x) -> forallb f l = forallb g l.
Proof. intro H. induction l; simpl; [ reflexivity | now rewrite H, IHl ]. Qed.

(** ** core/cubie.ts: a move and its inverse *)

Section CubieProperties.

Lemma wellFormed_inv (c : Cube) :
  wellFormed c = true ->
  length (cPerm c) = 8%nat /\ length (cOri c) = 8%nat /\
  length (ePerm c) = 12%nat /\ length (eOri c) = 12%nat /\
  inRange 0 2 (cOri c) = true /\ inRange 0 1 (eOri c) = true.
Proof.
  unfold wellFormed; intro H.
  repeat rewrite andb_true_iff in H.
  destruct H as [[[[[[[H1 _] H2] H3] H4] _] H5] H6].
  apply Nat.eqb_eq in H1, H2, H4, H5.
  repeat split; assumption.
Qed.



End CubieProperties.

(** ** Array reads and writes at indices that are natural numbers *)

Lemma aget_of_nat (l : list Z) (n : nat) : aget l (Z.of_nat n) = nth n l 0.
Proof.
  unfold aget. destruct (Z.of_nat n <? 0) eqn:E.
  - apply Z.ltb_lt in E; lia.
  - now rewrite Nat2Z.id.
Qed.

Lemma aset_of_nat (l : list Z) (n : nat) (v : Z) :
  aset l (Z.of_nat n) v = aset_nat l n v.
Proof.
  unfold aset. destruct (Z.of_nat n <? 0) eqn:E.
  - apply Z.ltb_lt in E; lia.
  - now rewrite Nat2Z.id.
Qed.

Lemma aset_nat_app (pre l : list Z) (k : nat) (v : Z) :
  aset_nat (pre ++ l) (length pre + k) v = pre ++ aset_nat l k v.
Proof. induction pre; simpl; [ reflexivity | now rewrite IHpre ]. Qed.

Lemma aset_nat_split (l : list Z) (k : nat) (v : Z) :
  (k < length l)%nat ->
  aset_nat l k v = firstn k l ++ v :: skipn (S k) l.
Proof.
  revert k; induction l as [| x l IH]; intros [| k] H; simpl in *; try lia.
  - reflexivity.
  - f_equal. apply IH. lia.
Qed.

Lemma aset_nat_length (l : list Z) (k : nat) (v : Z) :
  (k < length l)%nat -> length (aset_nat l k v) = length l.
Proof.
  revert k; induction l as [| x l IH]; intros [| k] H; simpl in *; try lia.
  f_equal. apply IH. lia.
Qed.

Lemma firstn_S_nth (l : list Z) (r : nat) :
  (r < length l)%nat -> firstn (S r) l = firstn r l ++ [nth r l 0].
Proof.
  revert r; induction l as [| x l IH]; intros [| r] H; simpl in *; try lia.
  - reflexivity.
  - f_equal. apply IH. lia.
Qed.

Lemma nth_split_at (l : list Z) (r : nat) :
  (r < length l)%nat -> l = firstn r l ++ nth r l 0 :: skipn (S r) l.
Proof.
  revert r; induction l as [| x l IH]; intros [| r] H; simpl in *; try lia.
  - reflexivity.
  - f_equal. apply IH. lia.
Qed.

(** ** [indexToPermutation] picks from a pool *)

Definition dropNth (r : nat) (pool : list Z) : list Z :=
  firstn r pool ++ skipn (S r) pool.

Fixpoint unrank (m : nat) (pool : list Z) (index : Z) : list Z :=
  match m with
  | O => []
  | S m' =>
      let f := factorialOf m' in
      let r := Z.to_nat (index / f) in
      nth r pool 0 :: unrank m' (dropNth r pool) (Z.rem index f)
  end.

Lemma shiftUp_S (p : list Z) (i : Z) (r : nat) :
  shiftUp p i (Z.of_nat (S r))
  = shiftUp (aset p (i + Z.of_nat (S r)) (aget p (i + Z.of_nat (S r) - 1)))
            i (Z.of_nat r).
Proof.
  unfold shiftUp. rewrite !Nat2Z.id.
  cbn [seq map fold_left].
  replace (i + Z.of_nat (S r) - Z.of_nat 0) with (i + Z.of_nat (S r)) by lia.
  f_equal.
  rewrite <- seq_shift, map_map. apply map_ext. intros d. lia.
Qed.

Lemma shiftUp_app (pre : list Z) (r : nat) : forall pool : list Z,
  (r < length pool)%nat ->
  shiftUp (pre ++ pool) (Z.of_nat (length pre)) (Z.of_nat r)
  = pre ++ hd 0 pool :: firstn r pool ++ skipn (S r) pool.
Proof.
  induction r as [| r IH]; intros pool H.
  - unfold shiftUp; simpl. destruct pool; simpl in *; [ lia | reflexivity ].
  - rewrite shiftUp_S.
    replace (Z.of_nat (length pre) + Z.of_nat (S r))
      with (Z.of_nat (length pre + S r)) by lia.
    replace (Z.of_nat (length pre + S r) - 1)
      with (Z.of_nat (length pre + r)) by lia.
    rewrite aget_of_nat, aset_of_nat, aset_nat_app, app_nth2_plus.
    rewrite IH by (rewrite aset_nat_length; lia).
    rewrite aset_nat_split by lia.
    f_equal.
    set (v := nth r pool 0).
    assert (LA : length (firstn (S r) pool) = S r)
      by (rewrite length_firstn; lia).
    assert (E1 : hd 0 (firstn (S r) pool ++ v :: skipn (S (S r)) pool)
                 = hd 0 pool).
    { destruct pool; [ simpl in H; lia | reflexivity ]. }
    assert (E2 : firstn r (firstn (S r) pool ++ v :: skipn (S (S r)) pool)
                 = firstn r pool).
    { rewrite firstn_app, LA. replace (r - S r)%nat with 0%nat by lia.
      rewrite firstn_O, app_nil_r, firstn_firstn. f_equal; lia. }
    assert (E3 : skipn (S r) (firstn (S r) pool ++ v :: skipn (S (S r)) pool)
                 = v :: skipn (S (S r)) pool).
    { rewrite skipn_app, LA, Nat.sub_diag.
      rewrite skipn_all2 by lia. reflexivity. }
    rewrite E1, E2, E3. rewrite (firstn_S_nth pool r) by lia.
    rewrite <- app_assoc. reflexivity.
Qed.

Lemma step_surgery (pre pool : list Z) (r : nat) :
  (r < length pool)%nat ->
  aset (shiftUp (pre ++ pool) (Z.of_nat (length pre)) (Z.of_nat r))
       (Z.of_nat (length pre))
       (aget (pre ++ pool) (Z.of_nat (length pre) + Z.of_nat r))
  = pre ++ nth r pool 0 :: dropNth r pool.
Proof.
  intro H. rewrite shiftUp_app by assumption.
  replace (Z.of_nat (length pre) + Z.of_nat r)
    with (Z.of_nat (length pre + r)) by lia.
  rewrite aget_of_nat, aset_of_nat, app_nth2_plus.
  replace (length pre) with (length pre + 0)%nat at 1 by lia.
  rewrite aset_nat_app. reflexivity.
Qed.

Lemma factorialOf_pos (m : nat) : 0 < factorialOf m.
Proof.
  induction m as [| m IH]; [ reflexivity | ].
  change (factorialOf (S m)) with (Z.of_nat (S m) * factorialOf m).
  apply Z.mul_pos_pos; lia.
Qed.

Lemma factorialOf_S_div (m : nat) :
  factorialOf (S m) / Z.of_nat (S m) = factorialOf m.
Proof.
  change (factorialOf (S m)) with (Z.of_nat (S m) * factorialOf m).
  rewrite Z.mul_comm. apply Z.div_mul. lia.
Qed.

Lemma rank_bound (m : nat) (index : Z) :
  0 <= index < factorialOf (S m) ->
  0 <= index / factorialOf m < Z.of_nat (S m).
Proof.
  intro H. pose proof (factorialOf_pos m) as P. split.
  - apply Z.div_pos; lia.
  - apply Z.div_lt_upper_bound; [ lia | ].
    change (factorialOf (S m)) with (Z.of_nat (S m) * factorialOf m) in H.
    lia.
Qed.

Lemma dropNth_length (r : nat) (pool : list Z) :
  (r < length pool)%nat -> length (dropNth r pool) = pred (length pool).
Proof.
  intro H. unfold dropNth.
  rewrite length_app, length_firstn, length_skipn. lia.
Qed.

Lemma indexToPerm_unrank (m : nat) : forall (pre pool : list Z) (index : Z),
  length pool = m -> 0 <= index < factorialOf m ->
  fst (fst (fold_left (indexToPermStep (Z.of_nat (length pre + m)))
                      (map Z.of_nat (seq (length pre) m))
                      (pre ++ pool, factorialOf m, index)))
  = pre ++ unrank m pool index.
Proof.
  induction m as [| m IH]; intros pre pool index L H.
  - destruct pool; [ reflexivity | discriminate ].
  - cbn [seq map fold_left]. unfold indexToPermStep at 2.
    replace (Z.of_nat (length pre + S m) - Z.of_nat (length pre))
      with (Z.of_nat (S m)) by lia.
    rewrite factorialOf_S_div.
    pose proof (rank_bound m index H) as [R0 R1].
    pose proof (factorialOf_pos m) as P.
    set (r := Z.to_nat (index / factorialOf m)).
    assert (Er : index / factorialOf m = Z.of_nat r) by (unfold r; lia).
    rewrite Er, step_surgery by lia.
    set (x := nth r pool 0).
    replace (pre ++ x :: dropNth r pool) with ((pre ++ [x]) ++ dropNth r pool)
      by (rewrite <- app_assoc; reflexivity).
    replace (length pre + S m)%nat with (length (pre ++ [x]) + m)%nat
      by (rewrite length_app; simpl; lia).
    replace (S (length pre)) with (length (pre ++ [x]))
      by (rewrite length_app; simpl; lia).
    rewrite IH.
    + rewrite <- app_assoc. reflexivity.
    + rewrite dropNth_length; lia.
    + apply Z.rem_bound_pos; lia.
Qed.

Lemma indexToPermutation_unrank (n : nat) (index : Z) :
  0 <= index < factorialOf n ->
  indexToPermutation index n = unrank n (range n) index.
Proof.
  intro H. unfold indexToPermutation, range.
  apply (indexToPerm_unrank n [] (map Z.of_nat (seq 0 n)) index);
    [ now rewrite length_map, length_seq | assumption ].
Qed.

(** ** [permutationToIndex] is the Lehmer code *)

Definition countLt (x : Z) (l : list Z) : nat :=
  length (filter (fun y => y <? x) l).

Fixpoint lehmer (p : list Z) : Z :=
  match p with
  | [] => 0
  | x :: rest =>
      Z.of_nat (countLt x rest) * factorialOf (length rest) + lehmer rest
  end.

Lemma rankOf_countLt (x : Z) (rest : list Z) :
  rankOf x rest = Z.of_nat (countLt x rest).
Proof.
  unfold rankOf, countLt.
  assert (G : forall acc,
             fold_left (fun rank y => if y <? x then rank + 1 else rank)
                       rest acc
             = acc + Z.of_nat (length (filter (fun y => y <? x) rest))).
  { induction rest as [| y rest IH]; intro acc; simpl.
    - lia.
    - rewrite IH. destruct (y <? x); simpl; lia. }
  rewrite G. lia.
Qed.

Lemma permToIndexLoop_lehmer (p : list Z) : forall acc,
  permToIndexLoop p (factorialOf (length p)) acc = acc + lehmer p.
Proof.
  induction p as [| x rest IH]; intro acc.
  - simpl. lia.
  - cbn [permToIndexLoop lehmer].
    change (length (x :: rest)) with (S (length rest)).
    rewrite factorialOf_S_div, IH, rankOf_countLt. lia.
Qed.

Lemma permutationToIndex_lehmer (p : list Z) :
  permutationToIndex p = lehmer p.
Proof. unfold permutationToIndex. now rewrite permToIndexLoop_lehmer. Qed.

Lemma countLt_le (x : Z) (l : list Z) : (countLt x l <= length l)%nat.
Proof. unfold countLt. apply filter_length_le. Qed.

Lemma lehmer_bound (p : list Z) : 0 <= lehmer p < factorialOf (length p).
Proof.
  induction p as [| x rest IH]; [ simpl; lia | ].
  cbn [lehmer]. change (length (x :: rest)) with (S (length rest)).
  change (factorialOf (S (length rest)))
    with (Z.of_nat (S (length rest)) * factorialOf (length rest)).
  pose proof (countLt_le x rest). pose proof (factorialOf_pos (length rest)).
  nia.
Qed.

Lemma countLt_perm (x : Z) (l l' : list Z) :
  Permutation l l' -> countLt x l = countLt x l'.
Proof.
  unfold countLt. induction 1; simpl.
  - reflexivity.
  - destruct (x0 <? x); simpl; congruence.
  - destruct (x0 <? x), (y <? x); reflexivity.
  - congruence.
Qed.

(** ** Sorted pools *)

Lemma countLt_above (h : Z) (t : list Z) :
  Forall (Z.lt h) t -> countLt h t = 0%nat.
Proof.
  unfold countLt. induction 1 as [| y t Hy _ IH]; simpl; [ reflexivity | ].
  destruct (y <? h) eqn:E; [ apply Z.ltb_lt in E; lia | exact IH ].
Qed.

Lemma dropNth_cons (r : nat) (h : Z) (t : list Z) :
  dropNth (S r) (h :: t) = h :: dropNth r t.
Proof. reflexivity. Qed.

Lemma dropNth_incl (l : list Z) : forall r : nat, incl (dropNth r l) l.
Proof.
  induction l as [| h t IH]; intros r x Hx.
  - destruct r; exact Hx.
  - destruct r as [| r].
    + right. exact Hx.
    + rewrite dropNth_cons in Hx. destruct Hx as [<- | Hx];
        [ now left | right; eapply IH; eassumption ].
Qed.

Lemma countLt_sorted (pool : list Z) : forall r : nat,
  StronglySorted Z.lt pool -> (r < length pool)%nat ->
  countLt (nth r pool 0) (dropNth r pool) = r.
Proof.
  induction pool as [| h t IH]; intros r S H; [ simpl in H; lia | ].
  apply StronglySorted_inv in S as [St Hh].
  destruct r as [| r].
  - apply countLt_above. exact Hh.
  - rewrite dropNth_cons. cbn [nth]. simpl in H.
    assert (Hlt : h < nth r t 0).
    { rewrite Forall_forall in Hh. apply Hh, nth_In. lia. }
    unfold countLt in *. cbn [filter].
    apply Z.ltb_lt in Hlt. rewrite Hlt. cbn [length].
    f_equal. apply IH; [ assumption | lia ].
Qed.

Lemma dropNth_sorted (pool : list Z) : forall r : nat,
  StronglySorted Z.lt pool -> StronglySorted Z.lt (dropNth r pool).
Proof.
  induction pool as [| h t IH]; intros r S.
  - destruct r; exact S.
  - apply StronglySorted_inv in S as [St Hh]. destruct r as [| r].
    + exact St.
    + rewrite dropNth_cons. constructor; [ apply IH; assumption | ].
      rewrite Forall_forall in *. intros x Hx.
      apply Hh. eapply dropNth_incl; eassumption.
Qed.

Lemma range_sorted_from (n : nat) : forall s : nat,
  StronglySorted Z.lt (map Z.of_nat (seq s n)).
Proof.
  induction n as [| n IH]; intro s; simpl; constructor.
  - apply IH.
  - rewrite Forall_forall. intros x Hx.
    apply in_map_iff in Hx as [k [<- Hk]]. apply in_seq in Hk. lia.
Qed.

Lemma range_sorted (n : nat) : StronglySorted Z.lt (range n).
Proof. apply range_sorted_from. Qed.

Lemma countLt_lt_length (x : Z) (pool : list Z) :
  In x pool -> (countLt x pool < length pool)%nat.
Proof.
  unfold countLt. induction pool as [| h t IH]; intros []; simpl.
  - subst h. rewrite Z.ltb_irrefl.
    pose proof (filter_length_le (fun y => y <? x) t). lia.
  - specialize (IH H). destruct (h <? x); simpl; lia.
Qed.

Lemma sorted_nth_countLt (pool : list Z) (x : Z) :
  StronglySorted Z.lt pool -> In x pool ->
  nth (countLt x pool) pool 0 = x.
Proof.
  induction pool as [| h t IH]; intros S [].
  - subst h. apply StronglySorted_inv in S as [_ Hh].
    unfold countLt. cbn [filter]. rewrite Z.ltb_irrefl.
    fold (countLt x t). rewrite countLt_above by assumption. reflexivity.
  - apply StronglySorted_inv in S as [St Hh].
    assert (Hlt : h < x) by (rewrite Forall_forall in Hh; now apply Hh).
    unfold countLt. cbn [filter]. apply Z.ltb_lt in Hlt. rewrite Hlt.
    cbn [length nth]. apply IH; assumption.
Qed.

(** ** The two round trips *)

Lemma unrank_length (m : nat) : forall pool index,
  length (unrank m pool index) = m.
Proof. induction m; intros; simpl; [ reflexivity | now rewrite IHm ]. Qed.

Lemma dropNth_perm (pool : list Z) (r : nat) :
  (r < length pool)%nat -> Permutation (nth r pool 0 :: dropNth r pool) pool.
Proof.
  intro H. pose proof (nth_split_at pool r H) as Hs.
  unfold dropNth.
  set (a := firstn r pool) in *. set (b := skipn (S r) pool) in *.
  set (x := nth r pool 0) in *.
  rewrite Hs. apply Permutation_cons_app. reflexivity.
Qed.

Lemma unrank_perm (m : nat) : forall pool index,
  length pool = m -> 0 <= index < factorialOf m ->
  Permutation (unrank m pool index) pool.
Proof.
  induction m as [| m IH]; intros pool index L H.
  - destruct pool; [ constructor | discriminate ].
  - cbn [unrank]. pose proof (rank_bound m index H) as [R0 R1].
    pose proof (factorialOf_pos m) as P.
    set (r := Z.to_nat (index / factorialOf m)).
    assert (Hr : (r < length pool)%nat) by (unfold r; lia).
    apply Permutation_trans with (nth r pool 0 :: dropNth r pool);
      [ | now apply dropNth_perm ].
    apply perm_skip. apply IH.
    + rewrite dropNth_length; lia.
    + apply Z.rem_bound_pos; lia.
Qed.

Lemma lehmer_unrank (m : nat) : forall pool index,
  StronglySorted Z.lt pool -> length pool = m ->
  0 <= index < factorialOf m ->
  lehmer (unrank m pool index) = index.
Proof.
  induction m as [| m IH]; intros pool index S L H.
  - simpl in *. lia.
  - cbn [unrank lehmer]. pose proof (rank_bound m index H) as [R0 R1].
    pose proof (factorialOf_pos m) as P.
    set (r := Z.to_nat (index / factorialOf m)).
    assert (Hr : (r < length pool)%nat) by (unfold r; lia).
    assert (Hd : length (dropNth r pool) = m)
      by (rewrite dropNth_length; lia).
    assert (Hi : 0 <= Z.rem index (factorialOf m) < factorialOf m)
      by (apply Z.rem_bound_pos; lia).
    rewrite unrank_length, IH by (auto using dropNth_sorted).
    rewrite (countLt_perm _ _ _ (unrank_perm m _ _ Hd Hi)).
    rewrite countLt_sorted by assumption.
    unfold r. rewrite Z2Nat.id by lia.
    rewrite Z.rem_mod_nonneg by lia.
    pose proof (Z.div_mod index (factorialOf m)). lia.
Qed.

Lemma unrank_lehmer (p : list Z) : forall pool,
  StronglySorted Z.lt pool -> Permutation p pool ->
  unrank (length p) pool (lehmer p) = p.
Proof.
  induction p as [| x rest IH]; intros pool S HP; [ reflexivity | ].
  cbn [length unrank lehmer].
  pose proof (lehmer_bound rest) as [B0 B1].
  pose proof (factorialOf_pos (length rest)) as P.
  set (f := factorialOf (length rest)) in *.
  set (c := countLt x rest).
  assert (Eq : (Z.of_nat c * f + lehmer rest) / f = Z.of_nat c).
  { rewrite Z.div_add_l by lia. rewrite Z.div_small by lia. lia. }
  assert (Er : Z.rem (Z.of_nat c * f + lehmer rest) f = lehmer rest).
  { rewrite Z.rem_mod_nonneg by nia.
    rewrite Z.add_comm, Z.mod_add by lia. apply Z.mod_small. lia. }
  rewrite Eq, Er, Nat2Z.id.
  assert (Hin : In x pool) by (apply (Permutation_in x HP); now left).
  assert (Ec : c = countLt x pool).
  { unfold c. rewrite <- (countLt_perm x _ _ HP).
    unfold countLt. cbn [filter]. now rewrite Z.ltb_irrefl. }
  assert (Hc : (c < length pool)%nat)
    by (rewrite Ec; now apply countLt_lt_length).
  assert (Ex : nth c pool 0 = x)
    by (rewrite Ec; now apply sorted_nth_countLt).
  rewrite Ex. f_equal. apply IH.
  - now apply dropNth_sorted.
  - rewrite (nth_split_at pool c Hc), Ex in HP.
    apply Permutation_cons_app_inv in HP. exact HP.
Qed.

(** ** [isValidPermutation] accepts the permutations of [0 .. n-1] *)

Lemma setFlag_same (seen : list bool) (i : nat) :
  (i < length seen)%nat -> nth i (setFlag seen i) false = true.
Proof.
  revert i; induction seen as [| b seen IH]; intros [| i] H; simpl in *;
    try lia; try reflexivity. apply IH; lia.
Qed.

Lemma setFlag_mono (seen : list bool) (i j : nat) :
  nth j seen false = true -> nth j (setFlag seen i) false = true.
Proof.
  revert i j; induction seen as [| b seen IH]; intros i j H.
  - destruct i; exact H.
  - destruct i as [| i], j as [| j]; simpl in *; auto.
Qed.

Lemma setFlag_length (seen : list bool) (i : nat) :
  length (setFlag seen i) = length seen.
Proof.
  revert i; induction seen as [| b seen IH]; intros [| i]; simpl; auto.
Qed.

Lemma validPermLoop_sound (perm : list Z) : forall (n : nat) (seen : list bool),
  length seen = n ->
  validPermLoop perm (Z.of_nat n) seen = true ->
  NoDup perm /\
  Forall (fun v => 0 <= v < Z.of_nat n
                   /\ nth (Z.to_nat v) seen false = false) perm.
Proof.
  induction perm as [| v rest IH]; intros n seen L H.
  - split; constructor.
  - cbn [validPermLoop] in H.
    destruct ((v <? 0) || (v >=? Z.of_nat n)
              || nth (Z.to_nat v) seen false) eqn:E; [ discriminate | ].
    apply orb_false_iff in E as [E Es].
    apply orb_false_iff in E as [E0 En].
    apply Z.ltb_ge in E0. rewrite Z.geb_leb in En. apply Z.leb_gt in En.
    destruct (IH n (setFlag seen (Z.to_nat v))) as [ND FA];
      [ now rewrite setFlag_length | exact H | ].
    split.
    + constructor; [ | exact ND ]. intro Hin.
      rewrite Forall_forall in FA. destruct (FA v Hin) as [_ F].
      rewrite setFlag_same in F by lia. discriminate.
    + constructor; [ auto | ].
      rewrite Forall_forall in *. intros w Hw.
      destruct (FA w Hw) as [Rw Fw]. split; [ exact Rw | ].
      destruct (nth (Z.to_nat w) seen false) eqn:Ew; [ | reflexivity ].
      rewrite (setFlag_mono _ _ _ Ew) in Fw. discriminate.
Qed.

Lemma isValidPermutation_perm (perm : list Z) (n : nat) :
  isValidPermutation perm n = true -> Permutation perm (range n).
Proof.
  unfold isValidPermutation. intro H.
  destruct (Nat.eqb (length perm) n) eqn:L; [ | discriminate ].
  apply Nat.eqb_eq in L. cbn [negb] in H.
  destruct (validPermLoop_sound perm n (repeat false n)) as [ND FA];
    [ apply repeat_length | exact H | ].
  apply NoDup_Permutation_bis.
  - exact ND.
  - unfold range. rewrite length_map, length_seq. lia.
  - intros v Hv. rewrite Forall_forall in FA.
    apply In_range. apply FA. exact Hv.
Qed.

(** The round trips of the sources' two conversions. *)
Lemma permutationToIndex_indexToPermutation (n : nat) (index : Z) :
  0 <= index < factorialOf n ->
  permutationToIndex (indexToPermutation index n) = index.
Proof.
  intro H. rewrite indexToPermutation_unrank, permutationToIndex_lehmer
    by assumption.
  apply lehmer_unrank;
    [ apply range_sorted
    | unfold range; now rewrite length_map, length_seq
    | assumption ].
Qed.

Lemma indexToPermutation_permutationToIndex (perm : list Z) (n : nat) :
  isValidPermutation perm n = true ->
  indexToPermutation (permutationToIndex perm) n = perm
  /\ 0 <= permutationToIndex perm < factorialOf n.
Proof.
  intro H. pose proof (isValidPermutation_perm perm n H) as HP.
  assert (L : length perm = n).
  { apply Permutation_length in HP. unfold range in HP.
    now rewrite length_map, length_seq in HP. }
  rewrite permutationToIndex_lehmer.
  pose proof (lehmer_bound perm) as B. rewrite L in B.
  split; [ | exact B ].
  rewrite indexToPermutation_unrank by exact B.
  rewrite <- L at 1. apply unrank_lehmer; [ apply range_sorted | exact HP ].
Qed.

(** ** The coordinates: decode, then encode *)

Lemma forallb_range (P : Z -> bool) (n : nat) :
  forallb P (range n) = true -> forall k, 0 <= k < Z.of_nat n -> P k = true.
Proof.
  intros H k Hk. rewrite forallb_forall in H. apply H, In_range, Hk.
Qed.

Lemma indexToPermutation_length (n : nat) (index : Z) :
  0 <= index < factorialOf n -> length (indexToPermutation index n) = n.
Proof.
  intro H. rewrite indexToPermutation_unrank by assumption.
  apply unrank_length.
Qed.

Section RoundTrips.

Import Coordinates.

Lemma eo_round_trip_all :
  forallb (fun k => getEdgeOrientation (setEdgeOrientation solvedCube k) =? k)
          (range 2048) = true.
Proof. vm_compute. reflexivity. Qed.

Lemma co_round_trip_all :
  forallb (fun k => getCornerOrientation (setCornerOrientation solvedCube k)
                    =? k)
          (range 2187) = true.
Proof. vm_compute. reflexivity. Qed.

Lemma eslice_round_trip_all :
  forallb (fun k => getESlice (setESlice solvedCube k) =? k) (range 495)
  = true.
Proof. vm_compute. reflexivity. Qed.

Lemma ep_round_trip_all :
  forallb (fun k => getESlicePermutation (setESlicePermutation solvedCube k)
                    =? k)
          (range 24) = true.
Proof. vm_compute. reflexivity. Qed.

Lemma udep_write_read (perm : list Z) :
  length perm = 8%nat ->
  firstn 8 (writeAll (ePerm solvedCube) (range 8) (fun i => i) (aget perm))
  = perm.
Proof.
  intro L. explode_list perm L. reflexivity.
Qed.

(** C7. For each of the six coordinates and every value [k] below the size
    of the coordinate, decoding [k] into the solved cube and encoding the
    result gives [k]. *)
Theorem coordinate_round_trip :
  (forall k, 0 <= k < EO_SIZE ->
     getEdgeOrientation (setEdgeOrientation solvedCube k) = k) /\
  (forall k, 0 <= k < CO_SIZE ->
     getCornerOrientation (setCornerOrientation solvedCube k) = k) /\
  (forall k, 0 <= k < ESLICE_SIZE ->
     getESlice (setESlice solvedCube k) = k) /\
  (forall k, 0 <= k < CP_SIZE ->
     getCornerPermutation (setCornerPermutation solvedCube k) = k) /\
  (forall k, 0 <= k < UDEP_SIZE ->
     getUDEdgePermutation (setUDEdgePermutation solvedCube k) = k) /\
  (forall k, 0 <= k < EP_SIZE ->
     getESlicePermutation (setESlicePermutation solvedCube k) = k).
Proof.
  repeat split; intros k Hk.
  - apply Z.eqb_eq. apply (forallb_range _ _ eo_round_trip_all). exact Hk.
  - apply Z.eqb_eq. apply (forallb_range _ _ co_round_trip_all). exact Hk.
  - apply Z.eqb_eq. apply (forallb_range _ _ eslice_round_trip_all). exact Hk.
  - unfold getCornerPermutation, setCornerPermutation. cbn [cPerm].
    apply permutationToIndex_indexToPermutation. exact Hk.
  - unfold getUDEdgePermutation, setUDEdgePermutation. cbn [ePerm].
    rewrite udep_write_read
      by (apply indexToPermutation_length; exact Hk).
    apply permutationToIndex_indexToPermutation. exact Hk.
  - apply Z.eqb_eq. apply (forallb_range _ _ ep_round_trip_all). exact Hk.
Qed.

Lemma coordinate_round_trip_witness :
  0 <= 31234 < UDEP_SIZE /\
  getUDEdgePermutation (setUDEdgePermutation solvedCube 31234) = 31234.
Proof.
  split; [ unfold UDEP_SIZE; lia | ].
  apply (proj1 (proj2 (proj2 (proj2 (proj2 coordinate_round_trip))))).
  unfold UDEP_SIZE; lia.
Defined.

End RoundTrips.

(** ** Reading an entry of a move table *)

Lemma aget_map_range (g : Z -> Z) (n : nat) (i : Z) :
  0 <= i < Z.of_nat n -> aget (map g (range n)) i = g i.
Proof.
  intro H. unfold aget, range.
  destruct (i <? 0) eqn:E; [ apply Z.ltb_lt in E; lia | ].
  rewrite map_map.
  rewrite (nth_indep _ 0 (g (Z.of_nat 0)))
    by (rewrite length_map, length_seq; lia).
  rewrite (map_nth (fun k => g (Z.of_nat k))).
  rewrite seq_nth by lia. f_equal. lia.
Qed.

Lemma moveKeyAt_inv (moveIdx : Z) (key : MoveKey) :
  moveKeyAt moveIdx = Some key ->
  0 <= moveIdx < 18 /\ nth_error MOVE_KEYS (Z.to_nat moveIdx) = Some key
  /\ moveIdx = MoveIndex key.
Proof.
  unfold moveKeyAt. destruct (moveIdx <? 0) eqn:E; [ discriminate | ].
  apply Z.ltb_ge in E. intro H.
  assert (L : (Z.to_nat moveIdx < 18)%nat).
  { change 18%nat with (length MOVE_KEYS). apply nth_error_Some. congruence. }
  split; [ lia | ]. split; [ exact H | ].
  assert (C : forall n, (n < 18)%nat ->
              nth_error MOVE_KEYS n = Some key -> Z.of_nat n = MoveIndex key).
  { intros n Hn. do 18 (destruct n as [| n]; [ intros [= <-]; reflexivity | ]).
    lia. }
  rewrite <- (C _ L H). lia.
Qed.

Lemma tableLookup_build (size : Z) (getCoord : Cube -> Z)
    (setCoord : Cube -> Z -> Cube) (coord moveIdx : Z) (key : MoveKey) :
  0 <= coord < size -> moveKeyAt moveIdx = Some key ->
  tableLookup (buildCoordinateMoveTable size getCoord setCoord) coord moveIdx
  = getCoord (applyMove (setCoord solvedCube coord) (ALL_MOVES key)).
Proof.
  intros Hc Hk. apply moveKeyAt_inv in Hk as (Hm & Hn & _).
  unfold tableLookup, buildCoordinateMoveTable.
  destruct (moveIdx <? 0) eqn:E; [ apply Z.ltb_lt in E; lia | ].
  erewrite nth_error_nth
    by (apply map_nth_error; exact Hn).
  apply (aget_map_range
           (fun c => getCoord (applyMove (setCoord solvedCube c)
                                         (ALL_MOVES key)))).
  lia.
Qed.

(** ** What [isValidCube] checks *)

Lemma isValidCube_inv (cube : Cube) :
  isValidCube cube = true ->
  isValidPermutation (cPerm cube) 8 = true /\
  isValidPermutation (ePerm cube) 12 = true /\
  parityOfPermutation (cPerm cube) = parityOfPermutation (ePerm cube) /\
  Z.rem (sumArray (cOri cube)) 3 = 0 /\
  Z.rem (sumArray (eOri cube)) 2 = 0.
Proof.
  unfold isValidCube.
  destruct (isValidPermutation (cPerm cube) 8); [ | discriminate ].
  destruct (isValidPermutation (ePerm cube) 12); [ | discriminate ].
  destruct (parityOfPermutation (cPerm cube)
            =? parityOfPermutation (ePerm cube)) eqn:P; [ | discriminate ].
  destruct (Z.rem (sumArray (cOri cube)) 3 =? 0) eqn:C; [ | discriminate ].
  destruct (Z.rem (sumArray (eOri cube)) 2 =? 0) eqn:E; [ | discriminate ].
  intros _. apply Z.eqb_eq in P, C, E. auto.
Qed.

Lemma arraysEqual_eq (a b : list Z) : arraysEqual a b = true <-> a = b.
Proof.
  revert b; induction a as [| x a IH]; intros [| y b]; simpl;
    try (split; [ discriminate | discriminate ]); [ tauto | ].
  rewrite andb_true_iff, Z.eqb_eq, IH. split.
  - intros [-> ->]; reflexivity.
  - intros [= -> ->]; auto.
Qed.

(** ** Checking a property on every array of given length and values *)

Fixpoint forallLists (vals : list Z) (n : nat) (P : list Z -> bool) : bool :=
  match n with
  | O => P []
  | S n' => forallb (fun v => forallLists vals n' (fun l => P (v :: l))) vals
  end.

Lemma forallLists_sound (vals : list Z) (n : nat) :
  forall P, forallLists vals n P = true ->
  forall l, length l = n -> Forall (fun x => In x vals) l -> P l = true.
Proof.
  induction n as [| n IH]; intros P H l L F.
  - destruct l; [ exact H | discriminate ].
  - destruct l as [| v l]; [ discriminate | ].
    inversion F as [| ? ? Hv Hl]; subst.
    cbn [forallLists] in H. rewrite forallb_forall in H.
    apply (IH (fun l => P (v :: l))); auto.
Qed.

Lemma inRange_In (lo hi : Z) (vals : list Z) (l : list Z) :
  (forall x, lo <= x <= hi -> In x vals) ->
  inRange lo hi l = true -> Forall (fun x => In x vals) l.
Proof.
  intros Hv H. unfold inRange in H. rewrite forallb_forall in H.
  apply Forall_forall. intros x Hx. apply Hv.
  specialize (H x Hx). apply andb_true_iff in H as [H1 H2].
  apply Z.leb_le in H1, H2. lia.
Qed.

(** ** Orientation coordinates: encode, then decode *)

Section OrientationCoordinates.

Definition withEOri (l : list Z) : Cube :=
  {| cPerm := cPerm solvedCube; cOri := cOri solvedCube;
     ePerm := ePerm solvedCube; eOri := l |}.

Definition withCOri (l : list Z) : Cube :=
  {| cPerm := cPerm solvedCube; cOri := l;
     ePerm := ePerm solvedCube; eOri := eOri solvedCube |}.

Definition eoCheck (l : list Z) : bool :=
  let k := getEdgeOrientation (withEOri l) in
  arraysEqual (eOri (setEdgeOrientation solvedCube k)) l
  && (0 <=? k) && (k <? EO_SIZE).

Definition coCheck (l : list Z) : bool :=
  let k := getCornerOrientation (withCOri l) in
  arraysEqual (cOri (setCornerOrientation solvedCube k)) l
  && (0 <=? k) && (k <? CO_SIZE).

Lemma getEdgeOrientation_withEOri (cube : Cube) :
  getEdgeOrientation (withEOri (eOri cube)) = getEdgeOrientation cube.
Proof. reflexivity. Qed.

Lemma getCornerOrientation_withCOri (cube : Cube) :
  getCornerOrientation (withCOri (cOri cube)) = getCornerOrientation cube.
Proof. reflexivity. Qed.

Lemma eoCheck_all :
  forallLists [0; 1] 12
    (fun l => if Z.rem (sumArray l) 2 =? 0 then eoCheck l else true) = true.
Proof. vm_compute. reflexivity. Qed.

Lemma coCheck_all :
  forallLists [0; 1; 2] 8
    (fun l => if Z.rem (sumArray l) 3 =? 0 then coCheck l else true) = true.
Proof. vm_compute. reflexivity. Qed.

Lemma eo_encode_decode (cube : Cube) :
  length (eOri cube) = 12%nat -> inRange 0 1 (eOri cube) = true ->
  Z.rem (sumArray (eOri cube)) 2 = 0 ->
  eOri (setEdgeOrientation solvedCube (getEdgeOrientation cube)) = eOri cube
  /\ 0 <= getEdgeOrientation cube < EO_SIZE.
Proof.
  intros L R S.
  pose proof (forallLists_sound _ _ _ eoCheck_all (eOri cube) L) as H.
  cbv beta in H. rewrite S in H. cbn [Z.eqb] in H.
  specialize (H (inRange_In 0 1 [0; 1] _ ltac:(simpl; lia) R)).
  unfold eoCheck in H. rewrite getEdgeOrientation_withEOri in H.
  apply andb_true_iff in H as [H H2]. apply andb_true_iff in H as [H H1].
  apply arraysEqual_eq in H. apply Z.leb_le in H1. apply Z.ltb_lt in H2.
  auto.
Qed.

Lemma co_encode_decode (cube : Cube) :
  length (cOri cube) = 8%nat -> inRange 0 2 (cOri cube) = true ->
  Z.rem (sumArray (cOri cube)) 3 = 0 ->
  cOri (setCornerOrientation solvedCube (getCornerOrientation cube))
  = cOri cube
  /\ 0 <= getCornerOrientation cube < CO_SIZE.
Proof.
  intros L R S.
  pose proof (forallLists_sound _ _ _ coCheck_all (cOri cube) L) as H.
  cbv beta in H. rewrite S in H. cbn [Z.eqb] in H.
  specialize (H (inRange_In 0 2 [0; 1; 2] _ ltac:(simpl; lia) R)).
  unfold coCheck in H. rewrite getCornerOrientation_withCOri in H.
  apply andb_true_iff in H as [H H2]. apply andb_true_iff in H as [H H1].
  apply arraysEqual_eq in H. apply Z.leb_le in H1. apply Z.ltb_lt in H2.
  auto.
Qed.

Lemma getEdgeOrientation_applyMove_ext (c1 c2 : Cube) (m : MoveTable) :
  eOri c1 = eOri c2 ->
  getEdgeOrientation (applyMove c1 m) = getEdgeOrientation (applyMove c2 m).
Proof.
  intro H. unfold getEdgeOrientation, applyMove. cbn [eOri].
  rewrite H. reflexivity.
Qed.

Lemma getCornerOrientation_applyMove_ext (c1 c2 : Cube) (m : MoveTable) :
  cOri c1 = cOri c2 ->
  getCornerOrientation (applyMove c1 m)
  = getCornerOrientation (applyMove c2 m).
Proof.
  intro H. unfold getCornerOrientation, applyMove. cbn [cOri].
  rewrite H. reflexivity.
Qed.

Lemma getCornerPermutation_applyMove_ext (c1 c2 : Cube) (m : MoveTable) :
  cPerm c1 = cPerm c2 ->
  getCornerPermutation (applyMove c1 m)
  = getCornerPermutation (applyMove c2 m).
Proof.
  intro H. unfold getCornerPermutation, applyMove. cbn [cPerm].
  rewrite H. reflexivity.
Qed.

End OrientationCoordinates.

(** ** The E-slice coordinate *)

Section ESliceCoordinate.

Import Coordinates.

(** Which positions hold an E-slice edge: 1 for an edge of 8 to 11. *)
Definition sliceMask (perm : list Z) : list Z :=
  map (fun i => Z.b2z (aget perm i >=? 8)) (range 12).

(** [getESlice] as a function of the positions alone. *)
Definition getESliceMask (mask : list Z) : Z :=
  494 - fst (fold_left
               (fun (st : Z * Z) i =>
                  let '(coord, r) := st in
                  if aget mask i =? 1 then (coord + binomial i r, r - 1)
                  else (coord, r))
               (downRange 12) (0, 4)).

Definition withEPerm (l : list Z) : Cube :=
  {| cPerm := cPerm solvedCube; cOri := cOri solvedCube;
     ePerm := l; eOri := eOri solvedCube |}.

Lemma fold_left_ext_in {A B : Type} (f g : A -> B -> A) (l : list B) :
  (forall a b, In b l -> f a b = g a b) ->
  forall a, fold_left f l a = fold_left g l a.
Proof.
  induction l as [| b l IH]; intros H a; simpl; [ reflexivity | ].
  rewrite H by now left. apply IH. intros; apply H; now right.
Qed.

Lemma In_downRange (n : nat) (i : Z) :
  In i (downRange n) <-> 0 <= i < Z.of_nat n.
Proof. unfold downRange. rewrite <- in_rev. apply In_range. Qed.

Lemma aget_sliceMask (perm : list Z) (i : Z) :
  0 <= i < 12 -> aget (sliceMask perm) i = Z.b2z (aget perm i >=? 8).
Proof.
  intro H. unfold sliceMask.
  apply (aget_map_range (fun i => Z.b2z (aget perm i >=? 8)) 12). lia.
Qed.

Lemma getESlice_mask (cube : Cube) :
  getESlice cube = getESliceMask (sliceMask (ePerm cube)).
Proof.
  unfold getESlice, getESliceMask. do 2 f_equal.
  apply fold_left_ext_in. intros [coord r] i Hi.
  apply In_downRange in Hi. unfold getESliceStep.
  rewrite aget_sliceMask by (simpl in Hi; lia).
  destruct (aget (ePerm cube) i >=? 8); reflexivity.
Qed.

(** The mask after a move is the mask before it, moved. *)
Definition moveMask (sigma : list Z) (mask : list Z) : list Z :=
  map (fun i => aget mask (aget sigma i)) (range 12).

Definition indicesInRange (sigma : list Z) : bool :=
  forallb (fun i => (0 <=? aget sigma i) && (aget sigma i <? 12)) (range 12).

Lemma edgePerm_inRange (key : MoveKey) :
  indicesInRange (edgePerm (ALL_MOVES key)) = true.
Proof. destruct key; reflexivity. Qed.

Lemma sliceMask_applyMove (cube : Cube) (m : MoveTable) :
  indicesInRange (edgePerm m) = true ->
  sliceMask (ePerm (applyMove cube m))
  = moveMask (edgePerm m) (sliceMask (ePerm cube)).
Proof.
  intro H. unfold sliceMask at 1, moveMask, applyMove. cbn [ePerm].
  apply map_ext_in. intros i Hi.
  pose proof Hi as Hi'. apply In_range in Hi'.
  unfold indicesInRange in H. rewrite forallb_forall in H.
  specialize (H i Hi). apply andb_true_iff in H as [H0 H1].
  apply Z.leb_le in H0. apply Z.ltb_lt in H1.
  rewrite aget_sliceMask by lia.
  rewrite (aget_map_range
             (fun j => aget (ePerm cube) (aget (edgePerm m) j)) 12)
    by exact Hi'.
  reflexivity.
Qed.

Lemma getESlice_applyMove_ext (c1 c2 : Cube) (key : MoveKey) :
  sliceMask (ePerm c1) = sliceMask (ePerm c2) ->
  getESlice (applyMove c1 (ALL_MOVES key))
  = getESlice (applyMove c2 (ALL_MOVES key)).
Proof.
  intro H. rewrite !getESlice_mask.
  rewrite !sliceMask_applyMove by apply edgePerm_inRange.
  rewrite H. reflexivity.
Qed.

(** The enumeration of the four-element sets of positions the coordinate
    ranks: a set is given position by position from 11 down to 0, the sets
    that contain the higher position first. *)
Fixpoint subsetsDown (n k : nat) : list (list Z) :=
  match n with
  | O => match k with O => [[]] | S _ => [] end
  | S n' =>
      match k with
      | O => map (cons 0) (subsetsDown n' O)
      | S k' => map (cons 1) (subsetsDown n' k')
                ++ map (cons 0) (subsetsDown n' k)
      end
  end.

Fixpoint listEqb (a b : list Z) : bool :=
  match a, b with
  | [], [] => true
  | x :: a', y :: b' => (x =? y) && listEqb a' b'
  | _, _ => false
  end.

Fixpoint rankIn (ls : list (list Z)) (l : list Z) (i : Z) : Z :=
  match ls with
  | [] => -1
  | x :: rest => if listEqb x l then i else rankIn rest l (i + 1)
  end.

(** The rank of the set of positions marked in [mask]. *)
Definition revLexRank (mask : list Z) : Z :=
  rankIn (subsetsDown 12 4) (rev mask) 0.

Definition solvedMask : list Z := [0; 0; 0; 0; 0; 0; 0; 0; 1; 1; 1; 1].

Definition maskCheck (mask : list Z) : bool :=
  let k := getESliceMask mask in
  listEqb (sliceMask (ePerm (setESlice solvedCube k))) mask
  && (0 <=? k) && (k <? ESLICE_SIZE)
  && (k =? revLexRank mask)
  && Bool.eqb (k =? 0) (listEqb mask solvedMask).

Lemma maskCheck_all :
  forallLists [0; 1] 12
    (fun l => if sumArray l =? 4 then maskCheck l else true) = true.
Proof. vm_compute. reflexivity. Qed.

Lemma listEqb_eq (a b : list Z) : listEqb a b = true <-> a = b.
Proof.
  revert b; induction a as [| x a IH]; intros [| y b]; simpl;
    try (split; [ discriminate | discriminate ]); [ tauto | ].
  rewrite andb_true_iff, Z.eqb_eq, IH. split.
  - intros [-> ->]; reflexivity.
  - intros [= -> ->]; auto.
Qed.

End ESliceCoordinate.

Section ESliceCoordinate2.

Import Coordinates.

Lemma sumArray_cons (x : Z) (l : list Z) : sumArray (x :: l) = x + sumArray l.
Proof.
  unfold sumArray. cbn [fold_left].
  assert (G : forall l a b, fold_left Z.add l (a + b) = a + fold_left Z.add l b).
  { clear. induction l as [| y l IH]; intros a b; simpl; [ reflexivity | ].
    rewrite <- IH. f_equal. lia. }
  rewrite <- G. f_equal. lia.
Qed.

Lemma sumArray_perm (l l' : list Z) :
  Permutation l l' -> sumArray l = sumArray l'.
Proof.
  induction 1.
  - reflexivity.
  - rewrite !sumArray_cons. lia.
  - rewrite !sumArray_cons. lia.
  - congruence.
Qed.

Lemma map_aget_range12 (p : list Z) :
  length p = 12%nat -> map (aget p) (range 12) = p.
Proof. intro L. explode_list p L. reflexivity. Qed.

Lemma isValidPermutation_length (perm : list Z) (n : nat) :
  isValidPermutation perm n = true -> length perm = n.
Proof.
  unfold isValidPermutation.
  destruct (Nat.eqb (length perm) n) eqn:L; [ | discriminate ].
  intros _. now apply Nat.eqb_eq.
Qed.

Lemma sliceMask_valid (perm : list Z) :
  isValidPermutation perm 12 = true ->
  length (sliceMask perm) = 12%nat /\
  Forall (fun x => In x [0; 1]) (sliceMask perm) /\
  sumArray (sliceMask perm) = 4.
Proof.
  intro H. pose proof (isValidPermutation_length _ _ H) as L.
  apply isValidPermutation_perm in H.
  split; [ unfold sliceMask, range; now rewrite !length_map, length_seq | ].
  split.
  - apply Forall_forall. intros x Hx. unfold sliceMask in Hx.
    apply in_map_iff in Hx as [i [<- _]].
    destruct (aget perm i >=? 8); simpl; auto.
  - unfold sliceMask.
    rewrite <- (map_map (aget perm) (fun e => Z.b2z (e >=? 8))).
    rewrite map_aget_range12 by exact L.
    rewrite (sumArray_perm _ _
               (Permutation_map (fun e => Z.b2z (e >=? 8)) H)).
    reflexivity.
Qed.

Lemma maskCheck_valid (perm : list Z) :
  isValidPermutation perm 12 = true -> maskCheck (sliceMask perm) = true.
Proof.
  intro H. destruct (sliceMask_valid perm H) as (L & F & S).
  pose proof (forallLists_sound _ _ _ maskCheck_all _ L F) as C.
  cbv beta in C. rewrite S in C. exact C.
Qed.

(** X1.  For a valid cube, [getESlice] is below 495, it is the rank of the set
    of positions of the E-slice edges in the enumeration [subsetsDown], and
    it is 0 exactly when these positions are 8 to 11. *)
Theorem getESlice_rank (cube : Cube) :
  isValidCube cube = true ->
  0 <= getESlice cube < ESLICE_SIZE /\
  getESlice cube = revLexRank (sliceMask (ePerm cube)) /\
  (getESlice cube = 0 <-> sliceMask (ePerm cube) = solvedMask).
Proof.
  intro V. apply isValidCube_inv in V as (_ & V & _).
  pose proof (maskCheck_valid _ V) as C. unfold maskCheck in C.
  rewrite <- getESlice_mask in C.
  do 4 (apply andb_true_iff in C as [C ?]).
  repeat match goal with
  | H : (_ <=? _) = true |- _ => apply Z.leb_le in H
  | H : (_ <? _) = true |- _ => apply Z.ltb_lt in H
  | H : (_ =? revLexRank _) = true |- _ => apply Z.eqb_eq in H
  | H : Bool.eqb _ _ = true |- _ => apply eqb_prop in H
  end.
  split; [ lia | ]. split; [ assumption | ].
  rewrite <- Z.eqb_eq, <- listEqb_eq. split; congruence.
Qed.

Lemma getESlice_rank_witness :
  isValidCube (applyMove solvedCube (ALL_MOVES R)) = true /\
  0 <= getESlice (applyMove solvedCube (ALL_MOVES R)) < ESLICE_SIZE.
Proof.
  split; [ reflexivity | ].
  apply (getESlice_rank (applyMove solvedCube (ALL_MOVES R))). reflexivity.
Defined.

Lemma eslice_encode_decode (cube : Cube) :
  isValidPermutation (ePerm cube) 12 = true ->
  sliceMask (ePerm (setESlice solvedCube (getESlice cube)))
  = sliceMask (ePerm cube)
  /\ 0 <= getESlice cube < ESLICE_SIZE.
Proof.
  intro V. pose proof (maskCheck_valid _ V) as C. unfold maskCheck in C.
  rewrite <- getESlice_mask in C.
  do 4 (apply andb_true_iff in C as [C ?]).
  repeat match goal with
  | H : (_ <=? _) = true |- _ => apply Z.leb_le in H
  | H : (_ <? _) = true |- _ => apply Z.ltb_lt in H
  end.
  apply listEqb_eq in C. split; [ exact C | lia ].
Qed.

End ESliceCoordinate2.

(** ** The sources' older E-slice coordinate *)

(** C2 (the code departs from the claim).  On the cube reached by R2 the
    E-slice edges FR, FL, BL, BR (8 to 11) are in the positions 8 to 11:
    the coordinate the claim describes is 0 there, and [getESlice] of the
    revision with 495 values returns 0.  [getESlice] of the revision at
    [solver/kociemba/coordinates.ts] counts the edges 4 to 7 that are
    outside the positions 4 to 7, and returns 1. *)
Theorem old_getESlice_after_R2 :
  isValidCube (applyMove solvedCube (ALL_MOVES R2)) = true /\
  sliceMask (ePerm (applyMove solvedCube (ALL_MOVES R2))) = solvedMask /\
  Coordinates.getESlice (applyMove solvedCube (ALL_MOVES R2)) = 0 /\
  CoordinatesOld.getESlice (applyMove solvedCube (ALL_MOVES R2)) = 1 /\
  CoordinatesOld.ESLICE_SIZE = 5.
Proof. repeat split; reflexivity. Qed.

(** ** The move tables and the moves of the cube *)

Section Equivariance.

Import Coordinates.

Lemma indexToPermutation_of_perm (perm : list Z) (n : nat) :
  Permutation perm (range n) ->
  indexToPermutation (permutationToIndex perm) n = perm
  /\ 0 <= permutationToIndex perm < factorialOf n.
Proof.
  intro HP.
  assert (L : length perm = n).
  { apply Permutation_length in HP. unfold range in HP.
    now rewrite length_map, length_seq in HP. }
  rewrite permutationToIndex_lehmer.
  pose proof (lehmer_bound perm) as B. rewrite L in B.
  split; [ | exact B ].
  rewrite indexToPermutation_unrank by exact B.
  rewrite <- L at 1. apply unrank_lehmer; [ apply range_sorted | exact HP ].
Qed.

(** In G1 the first eight positions hold the edges 0 to 7 and the last four
    the edges 8 to 11. *)
Lemma G1_edges (cube : Cube) :
  isValidPermutation (ePerm cube) 12 = true -> isInG1 cube = true ->
  exists q s,
    ePerm cube = q ++ s /\ length q = 8%nat /\ length s = 4%nat /\
    Permutation q (range 8) /\ Permutation s [8; 9; 10; 11].
Proof.
  intros V G. pose proof (isValidPermutation_length _ _ V) as L.
  apply isValidPermutation_perm in V.
  unfold isInG1 in G.
  destruct (existsb (nonZeroAt (eOri cube)) (range 12)); [ discriminate | ].
  destruct cube as [cp co ep eo]. cbn [ePerm] in *.
  explode_list ep L. clear L.
  match goal with
  | |- exists q s, [?a; ?b; ?c; ?d; ?e; ?f; ?g; ?h; ?i; ?j; ?k; ?l] = _ /\ _ =>
      set (q := [a; b; c; d; e; f; g; h]);
      set (s := [i; j; k; l]);
      change (Permutation (q ++ s) (range 12)) in V;
      exists q, s
  end.
  assert (S : Permutation s [8; 9; 10; 11]).
  { apply Permutation_sym, NoDup_Permutation_bis.
    - repeat constructor; simpl; intuition lia.
    - simpl; lia.
    - intros x Hx. rewrite forallb_forall in G. specialize (G x Hx).
      unfold includes in G. apply existsb_exists in G as [y [Hy E]].
      apply Z.eqb_eq in E. subst y. exact Hy. }
  repeat split; try reflexivity; [ | exact S ].
  apply Permutation_app_inv_r with (l := [8; 9; 10; 11]).
  change (range 8 ++ [8; 9; 10; 11]) with (range 12).
  apply Permutation_trans with (q ++ s); [ | exact V ].
  apply Permutation_app_head, Permutation_sym, S.
Qed.

Lemma phase2_key (moveIdx : Z) (key : MoveKey) :
  In moveIdx IDA.PHASE2_MOVES -> moveKeyAt moveIdx = Some key ->
  In key [U; U2; Up; D; D2; Dp; R2; L2; F2; B2].
Proof.
  intros Hin Hk. simpl in Hin.
  repeat (destruct Hin as [<- | Hin]; [ injection Hk as <-; simpl; tauto | ]).
  contradiction.
Qed.

Lemma udep_write (q0 q1 q2 q3 q4 q5 q6 q7 : Z) :
  writeAll (ePerm solvedCube) (range 8) (fun i => i)
           (aget [q0; q1; q2; q3; q4; q5; q6; q7])
  = [q0; q1; q2; q3; q4; q5; q6; q7; 8; 9; 10; 11].
Proof. reflexivity. Qed.

Lemma udep_equivariant (cube : Cube) (key : MoveKey) :
  isValidPermutation (ePerm cube) 12 = true -> isInG1 cube = true ->
  In key [U; U2; Up; D; D2; Dp; R2; L2; F2; B2] ->
  getUDEdgePermutation (applyMove cube (ALL_MOVES key))
  = getUDEdgePermutation
      (applyMove (setUDEdgePermutation solvedCube (getUDEdgePermutation cube))
                 (ALL_MOVES key))
  /\ 0 <= getUDEdgePermutation cube < UDEP_SIZE.
Proof.
  intros V G Hk.
  destruct (G1_edges cube V G) as (q & s & E & Lq & Ls & Pq & Ps).
  destruct (indexToPermutation_of_perm q 8 Pq) as [RT B].
  assert (Eq : getUDEdgePermutation cube = permutationToIndex q).
  { unfold getUDEdgePermutation. rewrite E.
    rewrite firstn_app, Lq, Nat.sub_diag, firstn_O, app_nil_r.
    now rewrite firstn_all2 by lia. }
  split; [ | rewrite Eq; exact B ].
  unfold setUDEdgePermutation. rewrite Eq, RT.
  unfold getUDEdgePermutation, applyMove. cbn [ePerm]. rewrite E.
  f_equal.
  explode_list q Lq. explode_list s Ls. rewrite udep_write.
  simpl in Hk.
  repeat (destruct Hk as [<- | Hk]; [ vm_compute; reflexivity | ]).
  contradiction.
Qed.

Lemma ep_write (t0 t1 t2 t3 : Z) :
  writeAll (ePerm solvedCube) (range 4) (fun i => 8 + i)
           (fun i => aget E_EDGES (aget [t0; t1; t2; t3] i))
  = [0; 1; 2; 3; 4; 5; 6; 7;
     aget E_EDGES t0; aget E_EDGES t1; aget E_EDGES t2; aget E_EDGES t3].
Proof. reflexivity. Qed.

Lemma E_EDGES_at (x : Z) :
  In x [8; 9; 10; 11] -> aget E_EDGES (x - 8) = x.
Proof.
  simpl. intros [<- | [<- | [<- | [<- | []]]]]; reflexivity.
Qed.

Lemma ep_equivariant (cube : Cube) (key : MoveKey) :
  isValidPermutation (ePerm cube) 12 = true -> isInG1 cube = true ->
  In key [U; U2; Up; D; D2; Dp; R2; L2; F2; B2] ->
  getESlicePermutation (applyMove cube (ALL_MOVES key))
  = getESlicePermutation
      (applyMove (setESlicePermutation solvedCube (getESlicePermutation cube))
                 (ALL_MOVES key))
  /\ 0 <= getESlicePermutation cube < EP_SIZE.
Proof.
  intros V G Hk.
  destruct (G1_edges cube V G) as (q & s & E & Lq & Ls & Pq & Ps).
  explode_list q Lq. explode_list s Ls. cbn [app] in E.
  match type of Ps with
  | Permutation [?a; ?b; ?c; ?d] _ =>
      rename a into s0; rename b into s1; rename c into s2; rename d into s3
  end.
  assert (Pt : Permutation [s0 - 8; s1 - 8; s2 - 8; s3 - 8] (range 4)).
  { apply (Permutation_map (fun x => x - 8)) in Ps. exact Ps. }
  destruct (indexToPermutation_of_perm _ 4 Pt) as [RT B].
  assert (Et : getESlicePermutation cube
               = permutationToIndex [s0 - 8; s1 - 8; s2 - 8; s3 - 8]).
  { unfold getESlicePermutation. rewrite E. reflexivity. }
  split; [ | rewrite Et; exact B ].
  unfold setESlicePermutation. rewrite Et, RT, ep_write.
  rewrite !E_EDGES_at
    by (eapply Permutation_in; [ exact Ps | simpl; tauto ]).
  unfold getESlicePermutation, applyMove. cbn [ePerm]. rewrite E.
  f_equal. simpl in Hk.
  repeat (destruct Hk as [<- | Hk]; [ vm_compute; reflexivity | ]).
  contradiction.
Qed.




End Equivariance.

(** ** The phase-2 moves and G1 *)

Section G1Moves.

Lemma isInG1_applyMove (cube : Cube) (m : MoveTable) :
  Coordinates.isInG1 (applyMove cube m) =
  if existsb (fun i => negb (Z.lxor (aget (eOri cube) (aget (edgePerm m) i))
                                    (aget (edgeOriDelta m) i) =? 0))
             (range 12)
  then false
  else forallb (includes (map (fun i => aget (ePerm cube) (aget (edgePerm m) i))
                              [8; 9; 10; 11]))
               Coordinates.E_EDGES.
Proof. reflexivity. Qed.

Ltac eval_indices a :=
  repeat match goal with
  | |- context [aget a ?t] =>
      lazymatch t with
      | Zpos _ => fail
      | Z0 => fail
      | _ => let v := eval vm_compute in t in change t with v
      end
  end.



End G1Moves.

(** ** solver/kociemba/solver.ts: what a call of [solve] does *)

Section SolverProperties.

Variable g : Globals.
Variable config : SolverConfig.

(** The world after a computation has the heap of the world before it,
    with the new cubes at its end. *)
Definition extends (w w' : World) : Prop :=
  exists e, heap w' = heap w ++ e.

Lemma extends_refl (w : World) : extends w w.
Proof. exists []. now rewrite app_nil_r. Qed.

Lemma extends_trans (w1 w2 w3 : World) :
  extends w1 w2 -> extends w2 w3 -> extends w1 w3.
Proof.
  intros [e1 H1] [e2 H2]. exists (e1 ++ e2).
  now rewrite H2, H1, app_assoc.
Qed.

Lemma extends_nth (w w' : World) (r : Ref) :
  extends w w' -> (r < length (heap w))%nat ->
  nth r (heap w') solvedCube = nth r (heap w) solvedCube
  /\ (r < length (heap w'))%nat.
Proof.
  intros [e H] L. rewrite H. split.
  - now apply app_nth1.
  - rewrite length_app. lia.
Qed.

(** [spec m w Q]: run in [w], [m] returns a value and a world that [Q]
    relates, and only extends the heap. *)
Definition spec {A : Type} (m : M A) (w : World) (Q : A -> World -> Prop)
    : Prop :=
  Q (fst (m w)) (snd (m w)) /\ extends w (snd (m w)).

Lemma spec_ret {A : Type} (a : A) (w : World) (Q : A -> World -> Prop) :
  Q a w -> spec (ret a) w Q.
Proof. intro H. split; [ exact H | apply extends_refl ]. Qed.

Lemma spec_bind {A B : Type} (m : M A) (k : A -> M B) (w : World)
    (Q1 : A -> World -> Prop) (Q2 : B -> World -> Prop) :
  spec m w Q1 ->
  (forall a w1, Q1 a w1 -> extends w w1 -> spec (k a) w1 Q2) ->
  spec (bind m k) w Q2.
Proof.
  unfold spec, bind. destruct (m w) as [a w1]. cbn [fst snd].
  intros [H1 E1] H2. destruct (H2 a w1 H1 E1) as [H3 E3].
  split; [ exact H3 | eapply extends_trans; eassumption ].
Qed.

Lemma spec_weaken {A : Type} (m : M A) (w : World)
    (Q Q' : A -> World -> Prop) :
  spec m w Q -> (forall a w', Q a w' -> extends w w' -> Q' a w') ->
  spec m w Q'.
Proof. intros [H E] HQ. split; [ apply HQ; assumption | exact E ]. Qed.

Lemma extends_same (w w' : World) : heap w' = heap w -> extends w w'.
Proof. intro H. exists []. now rewrite app_nil_r. Qed.

Lemma spec_same {A : Type} (m : M A) (w : World) :
  heap (snd (m w)) = heap w -> spec m w (fun _ w' => heap w' = heap w).
Proof. intro H. split; [ exact H | apply extends_same, H ]. Qed.

Lemma spec_DateNow (w : World) :
  spec DateNow w (fun _ w' => heap w' = heap w).
Proof. apply spec_same. reflexivity. Qed.

Lemma spec_initialize (w : World) :
  spec initialize w (fun _ w' => heap w' = heap w).
Proof.
  apply spec_same. unfold initialize, bind, getInitialized.
  destruct (initialized w); reflexivity.
Qed.

Lemma spec_load (r : Ref) (w : World) :
  spec (load r) w (fun c w' => c = nth r (heap w) solvedCube /\ w' = w).
Proof. split; [ split; reflexivity | apply extends_refl ]. Qed.

Lemma spec_alloc (c : Cube) (w : World) :
  spec (alloc c) w
       (fun r w' => (r < length (heap w'))%nat
                    /\ nth r (heap w') solvedCube = c).
Proof.
  split.
  - cbn. rewrite length_app. cbn. split; [ lia | ].
    rewrite app_nth2 by lia. now rewrite Nat.sub_diag.
  - exists [c]. reflexivity.
Qed.

Lemma spec_isSolvedRef (r : Ref) (w : World) :
  spec (isSolvedRef r) w
       (fun b _ => b = isSolved (nth r (heap w) solvedCube)).
Proof.
  unfold isSolvedRef.
  eapply spec_bind; [ apply spec_load | ]. intros c w1 [-> ->] _.
  eapply spec_bind; [ apply spec_alloc | ]. intros r' w2 _ _.
  apply spec_ret. reflexivity.
Qed.

Lemma spec_applyMovesRef (keys : list MoveKey) :
  forall (r : Ref) (w : World),
    (r < length (heap w))%nat ->
    spec (applyMovesRef r keys) w
         (fun r' w' =>
            (r' < length (heap w'))%nat
            /\ nth r' (heap w') solvedCube
               = applyMoveSequence (nth r (heap w) solvedCube) keys).
Proof.
  induction keys as [| key keys IH]; intros r w L.
  - apply spec_ret. split; [ exact L | reflexivity ].
  - cbn [applyMovesRef]. unfold applyMoveRef.
    eapply spec_bind.
    + eapply spec_bind; [ apply spec_load | ]. intros c w1 [-> ->] _.
      apply spec_alloc.
    + intros r1 w1 [L1 E1] _. cbv beta in *.
      eapply spec_weaken; [ apply IH; exact L1 | ].
      intros r2 w2 [L2 E2] _. split; [ exact L2 | ].
      rewrite E2, E1. reflexivity.
Qed.

(** *** The moves [solve] returns, as a function of the cube *)

Definition phase1Seq (c : Cube) : option (list MoveKey) :=
  if Coordinates.isInG1 c then Some []
  else match searchPhase1Core g (Coordinates.getPhase1Coord c)
                              (maxPhase1Depth config) with
       | None => None
       | Some (sol, _, _) => Some (moveIndicesToKeys sol)
       end.

Definition phase2Seq (c : Cube) : option (list MoveKey) :=
  if isSolved c then Some []
  else match searchPhase2Core g (Coordinates.getPhase2Coord c)
                              (maxPhase2Depth config) with
       | None => None
       | Some (sol, _, _) => Some (moveIndicesToKeys sol)
       end.

Definition Outcome : Type :=
  (list MoveKey * list MoveKey * list MoveKey * list MoveKey
   * bool * option ErrorMessage)%type.

Definition outcome (s : Solution) : Outcome :=
  (moves s, scramble s, phase1Moves s, phase2Moves s, success s, error s).

Definition failure (p1 : list MoveKey) (e : ErrorMessage) : Outcome :=
  ([], [], p1, [], false, Some e).

Definition solveOutcome (c : Cube) : Outcome :=
  if isSolved c then ([], [], [], [], true, None)
  else
    match phase1Seq c with
    | None => failure [] (Phase1SearchFailed (maxPhase1Depth config))
    | Some p1 =>
        let inter := applyMoveSequence c p1 in
        if negb (Coordinates.isInG1 inter) then failure [] FailedToReachG1
        else
          match phase2Seq inter with
          | None => failure p1 (Phase2SearchFailed (maxPhase2Depth config))
          | Some p2 =>
              let sol := p1 ++ p2 in
              (sol, invertMoveSequence sol, p1, p2,
               isSolved (applyMoveSequence c sol),
               if isSolved (applyMoveSequence c sol) then None
               else Some VerificationFailed)
          end
    end.

Lemma spec_searchPhase1 (coord : Phase1Coord) (maxDepth : Z) (w : World) :
  spec (searchPhase1 g coord maxDepth) w
       (fun sr _ =>
          match searchPhase1Core g coord maxDepth with
          | None => sr = None
          | Some (sol, _, _) => exists r, sr = Some r /\ solution r = sol
          end).
Proof.
  unfold searchPhase1.
  eapply spec_bind; [ apply spec_DateNow | ]. intros t0 w1 _ _.
  destruct (searchPhase1Core g coord maxDepth) as [[[sol d] n] |].
  - eapply spec_bind; [ apply spec_DateNow | ]. intros t1 w2 _ _.
    apply spec_ret. eexists; split; reflexivity.
  - apply spec_ret. reflexivity.
Qed.

Lemma spec_searchPhase2 (coord : Phase2Coord) (maxDepth : Z) (w : World) :
  spec (searchPhase2 g coord maxDepth) w
       (fun sr _ =>
          match searchPhase2Core g coord maxDepth with
          | None => sr = None
          | Some (sol, _, _) => exists r, sr = Some r /\ solution r = sol
          end).
Proof.
  unfold searchPhase2.
  eapply spec_bind; [ apply spec_DateNow | ]. intros t0 w1 _ _.
  destruct (searchPhase2Core g coord maxDepth) as [[[sol d] n] |].
  - eapply spec_bind; [ apply spec_DateNow | ]. intros t1 w2 _ _.
    apply spec_ret. eexists; split; reflexivity.
  - apply spec_ret. reflexivity.
Qed.

Lemma spec_solvePhase1 (r : Ref) (w : World) :
  spec (solvePhase1 g config r) w
       (fun s _ =>
          match phase1Seq (nth r (heap w) solvedCube) with
          | None =>
              outcome s
              = failure [] (Phase1SearchFailed (maxPhase1Depth config))
          | Some p1 => success s = true /\ phase1Moves s = p1
          end).
Proof.
  unfold solvePhase1, phase1Seq.
  eapply spec_bind; [ apply spec_load | ]. intros c w1 [-> ->] _.
  destruct (Coordinates.isInG1 (nth r (heap w) solvedCube)).
  - apply spec_ret. split; reflexivity.
  - eapply spec_bind; [ apply spec_searchPhase1 | ].
    intros sr w2 H _. cbv beta in H.
    destruct (searchPhase1Core g _ _) as [[[sol d] n] |].
    + destruct H as [res [-> <-]]. apply spec_ret. split; reflexivity.
    + subst sr. apply spec_ret. reflexivity.
Qed.

Lemma spec_solvePhase2 (r : Ref) (w : World) :
  spec (solvePhase2 g config r) w
       (fun s _ =>
          match phase2Seq (nth r (heap w) solvedCube) with
          | None =>
              outcome s
              = failure [] (Phase2SearchFailed (maxPhase2Depth config))
          | Some p2 =>
              success s = true /\ phase2Moves s = p2
          end).
Proof.
  unfold solvePhase2, phase2Seq.
  eapply spec_bind; [ apply spec_load | ]. intros c w1 [-> ->] _.
  eapply spec_bind; [ apply spec_isSolvedRef | ]. intros b w2 -> _.
  destruct (isSolved (nth r (heap w) solvedCube)).
  - apply spec_ret. split; reflexivity.
  - eapply spec_bind; [ apply spec_searchPhase2 | ].
    intros sr w3 H _. cbv beta in H.
    destruct (searchPhase2Core g _ _) as [[[sol d] n] |].
    + destruct H as [res [-> <-]]. apply spec_ret. split; reflexivity.
    + subst sr. apply spec_ret. reflexivity.
Qed.

Lemma spec_verifySolution (r : Ref) (sol : list MoveKey) (w : World) :
  (r < length (heap w))%nat ->
  spec (verifySolution r sol) w
       (fun b _ =>
          b = isSolved (applyMoveSequence (nth r (heap w) solvedCube) sol)).
Proof.
  intro L. unfold verifySolution.
  eapply spec_bind; [ apply spec_applyMovesRef; exact L | ].
  intros r' w1 [L1 E1] _. cbv beta in E1.
  eapply spec_weaken; [ apply spec_isSolvedRef | ].
  intros b w2 -> _. now rewrite E1.
Qed.

Lemma applyMoveSequence_app (c : Cube) (a b : list MoveKey) :
  applyMoveSequence c (a ++ b)
  = applyMoveSequence (applyMoveSequence c a) b.
Proof. unfold applyMoveSequence. apply fold_left_app. Qed.

(** The outcome of [solve] is [solveOutcome] of the cube its argument
    points to, and the heap is only extended. *)
Lemma spec_solve (r : Ref) (w : World) :
  (r < length (heap w))%nat ->
  spec (solve g config r) w
       (fun s _ => outcome s = solveOutcome (nth r (heap w) solvedCube)).
Proof.
  intro L. unfold solve, solveOutcome.
  set (c := nth r (heap w) solvedCube).
  eapply spec_bind with (Q1 := fun _ w1 => w1 = w).
  { split; [ reflexivity | apply extends_refl ]. }
  intros init w0 -> _.
  eapply spec_bind with (Q1 := fun _ w1 => heap w1 = heap w).
  { destruct init; [ apply spec_ret; reflexivity | apply spec_initialize ]. }
  intros _ w1 Hh1 _.
  eapply spec_bind; [ apply spec_DateNow | ].
  intros startTime w2 Hh2 _. rewrite Hh1 in Hh2.
  eapply spec_bind; [ apply spec_isSolvedRef | ].
  intros b w3 -> E3. rewrite Hh2. fold c.
  assert (L3 : (r < length (heap w3))%nat /\ nth r (heap w3) solvedCube = c).
  { destruct (extends_nth w2 w3 r E3) as [A B]; [ rewrite Hh2; exact L | ].
    split; [ exact B | rewrite A, Hh2; reflexivity ]. }
  destruct (isSolved c); [ apply spec_ret; reflexivity | ].
  eapply spec_bind; [ apply spec_solvePhase1 | ].
  intros p1r w4 H4 E4. cbv beta in H4.
  destruct L3 as [L3 C3]. rewrite C3 in H4.
  destruct (phase1Seq c) as [p1 |].
  2: { replace (negb (success p1r)) with true
         by (injection H4 as _ _ _ _ -> _; reflexivity).
       apply spec_ret. exact H4. }
  destruct H4 as [S1 P1]. rewrite S1. cbn [negb]. rewrite P1.
  destruct (extends_nth w3 w4 r E4 L3) as [C4 L4]. rewrite C3 in C4.
  eapply spec_bind; [ apply spec_applyMovesRef; exact L4 | ].
  intros ri w5 [L5 C5] E5. cbv beta in C5. rewrite C4 in C5.
  destruct (extends_nth w4 w5 r E5 L4) as [C5' L5']. rewrite C4 in C5'.
  eapply spec_bind; [ apply spec_load | ]. intros inter w6 [-> ->] _.
  rewrite C5.
  destruct (Coordinates.isInG1 (applyMoveSequence c p1)); cbn [negb];
    [ | apply spec_ret; reflexivity ].
  eapply spec_bind; [ apply spec_solvePhase2 | ].
  intros p2r w7 H7 E7. cbv beta in H7. rewrite C5 in H7.
  destruct (extends_nth w5 w7 r E7 L5') as [C7 L7]. rewrite C5' in C7.
  destruct (phase2Seq (applyMoveSequence c p1)) as [p2 |].
  2: { replace (negb (success p2r)) with true
         by (injection H7 as _ _ _ _ -> _; reflexivity).
       apply spec_ret. unfold outcome, failure in *. cbn.
       injection H7 as -> -> _ -> -> ->. reflexivity. }
  destruct H7 as [S2 P2]. rewrite S2. cbn [negb]. rewrite P2.
  eapply spec_bind; [ apply spec_DateNow | ].
  intros t w8 Hh8 _.
  eapply spec_bind.
  { apply spec_verifySolution. rewrite Hh8. exact L7. }
  intros valid w9 -> _. rewrite Hh8, C7.
  destruct (isSolved (applyMoveSequence c (p1 ++ p2))); cbn [negb];
    apply spec_ret; reflexivity.
Qed.

End SolverProperties.

(** ** What the moves keep of a cube *)

Section MoveInvariants.

Lemma aget_inRange (lo hi : Z) (a : list Z) (j : Z) :
  inRange lo hi a = true -> lo <= 0 <= hi -> lo <= aget a j <= hi.
Proof.
  intros H Z0. unfold aget. destruct (j <? 0); [ lia | ].
  destruct (Nat.lt_ge_cases (Z.to_nat j) (length a)) as [L | L].
  - unfold inRange in H. rewrite forallb_forall in H.
    specialize (H _ (nth_In a 0 L)).
    apply andb_true_iff in H as [H1 H2]. apply Z.leb_le in H1, H2. lia.
  - rewrite nth_overflow by exact L. lia.
Qed.

Lemma inRange_map (lo hi : Z) (f : Z -> Z) (l : list Z) :
  (forall i, lo <= f i <= hi) -> inRange lo hi (map f l) = true.
Proof.
  intro H. unfold inRange. apply forallb_forall. intros x Hx.
  apply in_map_iff in Hx as [i [<- _]]. specialize (H i).
  apply andb_true_iff. split; apply Z.leb_le; lia.
Qed.

(** The orientation changes of a move table are orientations. *)
Definition moveShape (m : MoveTable) : bool :=
  inRange 0 2 (cornerOriDelta m) && inRange 0 1 (edgeOriDelta m).

Lemma moveShape_ALL_MOVES (key : MoveKey) : moveShape (ALL_MOVES key) = true.
Proof. destruct key; reflexivity. Qed.

Lemma wellFormed_applyMove (c : Cube) (m : MoveTable) :
  wellFormed c = true -> moveShape m = true ->
  wellFormed (applyMove c m) = true.
Proof.
  unfold wellFormed, moveShape. intros H Hm.
  repeat rewrite andb_true_iff in H.
  destruct H as [[[[[[[_ Hcp] _] Hco] _] Hep] _] Heo].
  apply andb_true_iff in Hm as [Hcd Hed].
  unfold applyMove. cbn [cPerm cOri ePerm eOri].
  rewrite !length_map.
  change (length (range 8)) with 8%nat.
  change (length (range 12)) with 12%nat.
  rewrite !andb_true_iff.
  repeat match goal with |- _ /\ _ => split end;
    try (apply Nat.eqb_refl); apply inRange_map; intro i.
  - apply aget_inRange; [ exact Hcp | lia ].
  - pose proof (aget_inRange 0 2 (cOri c) (aget (cornerPerm m) i) Hco).
    pose proof (aget_inRange 0 2 (cornerOriDelta m) i Hcd).
    pose proof (Z.rem_bound_pos
                  (aget (cOri c) (aget (cornerPerm m) i)
                   + aget (cornerOriDelta m) i) 3).
    lia.
  - apply aget_inRange; [ exact Hep | lia ].
  - pose proof (aget_inRange 0 1 (eOri c) (aget (edgePerm m) i) Heo) as A.
    pose proof (aget_inRange 0 1 (edgeOriDelta m) i Hed) as B.
    assert (A' : aget (eOri c) (aget (edgePerm m) i) = 0
                 \/ aget (eOri c) (aget (edgePerm m) i) = 1) by lia.
    assert (B' : aget (edgeOriDelta m) i = 0
                 \/ aget (edgeOriDelta m) i = 1) by lia.
    destruct A' as [-> | ->], B' as [-> | ->]; cbn; lia.
Qed.

Lemma wellFormed_applyMoveSequence (keys : list MoveKey) :
  forall c, wellFormed c = true ->
            wellFormed (applyMoveSequence c keys) = true.
Proof.
  induction keys as [| key keys IH]; intros c H; [ exact H | ].
  apply IH. apply wellFormed_applyMove;
    [ exact H | apply moveShape_ALL_MOVES ].
Qed.

Lemma map_aget_range8 (p : list Z) :
  length p = 8%nat -> map (aget p) (range 8) = p.
Proof. intro L. explode_list p L. reflexivity. Qed.

Lemma cornerPerm_valid (key : MoveKey) :
  isValidPermutation (cornerPerm (ALL_MOVES key)) 8 = true.
Proof. destruct key; reflexivity. Qed.

Lemma edgePerm_valid (key : MoveKey) :
  isValidPermutation (edgePerm (ALL_MOVES key)) 12 = true.
Proof. destruct key; reflexivity. Qed.

(** A move rearranges the corner and the edge array. *)
Lemma applyMove_cPerm_perm (c : Cube) (key : MoveKey) :
  length (cPerm c) = 8%nat ->
  Permutation (cPerm (applyMove c (ALL_MOVES key))) (cPerm c).
Proof.
  intro L. unfold applyMove. cbn [cPerm].
  rewrite <- (map_map (aget (cornerPerm (ALL_MOVES key))) (aget (cPerm c))).
  rewrite map_aget_range8
    by (apply (isValidPermutation_length _ 8), cornerPerm_valid).
  rewrite <- (map_aget_range8 (cPerm c) L) at 2.
  apply Permutation_map, isValidPermutation_perm, cornerPerm_valid.
Qed.

Lemma applyMove_ePerm_perm (c : Cube) (key : MoveKey) :
  length (ePerm c) = 12%nat ->
  Permutation (ePerm (applyMove c (ALL_MOVES key))) (ePerm c).
Proof.
  intro L. unfold applyMove. cbn [ePerm].
  rewrite <- (map_map (aget (edgePerm (ALL_MOVES key))) (aget (ePerm c))).
  rewrite map_aget_range12
    by (apply (isValidPermutation_length _ 12), edgePerm_valid).
  rewrite <- (map_aget_range12 (ePerm c) L) at 2.
  apply Permutation_map, isValidPermutation_perm, edgePerm_valid.
Qed.

(** [isValidPermutation] accepts every rearrangement of [0 .. n-1]. *)
Lemma setFlag_other (seen : list bool) (i j : nat) :
  i <> j -> nth j (setFlag seen i) false = nth j seen false.
Proof.
  revert i j; induction seen as [| b seen IH]; intros i j H.
  - destruct i; reflexivity.
  - destruct i as [| i], j as [| j]; cbn; try reflexivity;
      try congruence. apply IH. congruence.
Qed.

Lemma validPermLoop_complete (n : Z) (perm : list Z) :
  forall seen : list bool,
    NoDup perm ->
    Forall (fun v => 0 <= v < n /\ nth (Z.to_nat v) seen false = false) perm ->
    validPermLoop perm n seen = true.
Proof.
  induction perm as [| v rest IH]; intros seen ND F; [ reflexivity | ].
  inversion ND as [| ? ? Hv ND']; subst.
  inversion F as [| ? ? [Rv Sv] F']; subst.
  cbn [validPermLoop]. rewrite Sv.
  replace (v <? 0) with false by (symmetry; apply Z.ltb_ge; lia).
  replace (v >=? n) with false
    by (symmetry; rewrite Z.geb_leb; apply Z.leb_gt; lia).
  cbn [orb]. apply IH; [ exact ND' | ].
  rewrite Forall_forall in *. intros u Hu.
  destruct (F' u Hu) as [Ru Su]. split; [ exact Ru | ].
  rewrite setFlag_other; [ exact Su | ].
  intro E. apply Hv. replace v with u by lia. exact Hu.
Qed.

Lemma NoDup_range (n : nat) : NoDup (range n).
Proof.
  unfold range. apply Finite.Injective_map_NoDup.
  - intros a b H. lia.
  - apply seq_NoDup.
Qed.

Lemma isValidPermutation_complete (perm : list Z) (n : nat) :
  Permutation perm (range n) -> isValidPermutation perm n = true.
Proof.
  intro P. unfold isValidPermutation.
  assert (L : length perm = n).
  { apply Permutation_length in P. unfold range in P.
    now rewrite length_map, length_seq in P. }
  rewrite L, Nat.eqb_refl. cbn [negb].
  apply validPermLoop_complete.
  - apply (Permutation_NoDup (Permutation_sym P)), NoDup_range.
  - apply Forall_forall. intros v Hv.
    apply (Permutation_in _ P), In_range in Hv. split; [ exact Hv | ].
    apply nth_repeat.
Qed.

(** The orientation sums, modulo 3 and modulo 2, are the same before and
    after a move. *)
Lemma sumArray_map_add (f h : Z -> Z) (l : list Z) :
  sumArray (map (fun i => f i + h i) l)
  = sumArray (map f l) + sumArray (map h l).
Proof.
  induction l as [| a l IH]; [ reflexivity | ].
  cbn [map]. rewrite !sumArray_cons, IH. lia.
Qed.

Lemma sumArray_map_nonneg (f : Z -> Z) (l : list Z) :
  (forall i, 0 <= f i) -> 0 <= sumArray (map f l).
Proof.
  intro H. induction l as [| a l IH]; [ cbn; lia | ].
  cbn [map]. rewrite sumArray_cons. specialize (H a). lia.
Qed.

Lemma sumArray_map_rem (n : Z) (f : Z -> Z) (l : list Z) :
  0 < n -> (forall i, 0 <= f i) ->
  Z.rem (sumArray (map (fun i => Z.rem (f i) n) l)) n
  = Z.rem (sumArray (map f l)) n.
Proof.
  intros Hn Hf.
  assert (Hr : forall i, 0 <= Z.rem (f i) n).
  { intro i. apply Z.rem_nonneg; [ lia | apply Hf ]. }
  induction l as [| a l IH]; [ reflexivity | ].
  cbn [map]. rewrite !sumArray_cons.
  pose proof (sumArray_map_nonneg _ l Hf) as P1.
  pose proof (sumArray_map_nonneg _ l Hr) as P2.
  pose proof (Hf a) as Pa. pose proof (Hr a) as Pr.
  set (S' := sumArray (map (fun i => Z.rem (f i) n) l)) in *.
  set (S := sumArray (map f l)) in *.
  rewrite (Z.rem_mod_nonneg S') in IH by lia.
  rewrite (Z.rem_mod_nonneg S) in IH by lia.
  rewrite (Z.rem_mod_nonneg (f a)) in * by lia.
  rewrite !Z.rem_mod_nonneg by lia.
  rewrite Z.add_mod_idemp_l by lia.
  rewrite (Z.add_mod (f a) S') by lia.
  rewrite (Z.add_mod (f a) S) by lia.
  rewrite IH. reflexivity.
Qed.

Lemma lxor_bits (a b : Z) :
  0 <= a <= 1 -> 0 <= b <= 1 -> Z.lxor a b = Z.rem (a + b) 2.
Proof.
  intros Ha Hb.
  assert (A : a = 0 \/ a = 1) by lia. assert (B : b = 0 \/ b = 1) by lia.
  destruct A as [-> | ->], B as [-> | ->]; reflexivity.
Qed.

Lemma rem_add_multiple (x d n : Z) :
  0 < n -> 0 <= x -> 0 <= d -> Z.rem d n = 0 -> Z.rem (x + d) n = Z.rem x n.
Proof.
  intros Hn Hx Hd H.
  rewrite !Z.rem_mod_nonneg in * by lia.
  rewrite Z.add_mod, H, Z.add_0_r, Z.mod_mod by lia. reflexivity.
Qed.

Lemma permute_corners (a : list Z) (key : MoveKey) :
  length a = 8%nat ->
  Permutation
    (map (fun i => aget a (aget (cornerPerm (ALL_MOVES key)) i)) (range 8)) a.
Proof.
  intro L.
  rewrite <- (map_map (aget (cornerPerm (ALL_MOVES key))) (aget a)).
  rewrite map_aget_range8
    by (apply (isValidPermutation_length _ 8), cornerPerm_valid).
  rewrite <- (map_aget_range8 a L) at 2.
  apply Permutation_map, isValidPermutation_perm, cornerPerm_valid.
Qed.

Lemma permute_edges (a : list Z) (key : MoveKey) :
  length a = 12%nat ->
  Permutation
    (map (fun i => aget a (aget (edgePerm (ALL_MOVES key)) i)) (range 12)) a.
Proof.
  intro L.
  rewrite <- (map_map (aget (edgePerm (ALL_MOVES key))) (aget a)).
  rewrite map_aget_range12
    by (apply (isValidPermutation_length _ 12), edgePerm_valid).
  rewrite <- (map_aget_range12 a L) at 2.
  apply Permutation_map, isValidPermutation_perm, edgePerm_valid.
Qed.

Lemma cornerOriDelta_sum (key : MoveKey) :
  Z.rem (sumArray (map (aget (cornerOriDelta (ALL_MOVES key))) (range 8))) 3
  = 0.
Proof. destruct key; reflexivity. Qed.

Lemma edgeOriDelta_sum (key : MoveKey) :
  Z.rem (sumArray (map (aget (edgeOriDelta (ALL_MOVES key))) (range 12))) 2
  = 0.
Proof. destruct key; reflexivity. Qed.

Lemma applyMove_cOri_sum (c : Cube) (key : MoveKey) :
  length (cOri c) = 8%nat -> inRange 0 2 (cOri c) = true ->
  Z.rem (sumArray (cOri (applyMove c (ALL_MOVES key)))) 3
  = Z.rem (sumArray (cOri c)) 3.
Proof.
  intros L R. unfold applyMove. cbn [cOri].
  pose proof (moveShape_ALL_MOVES key) as Hm.
  apply andb_true_iff in Hm as [Hd _].
  assert (N1 : forall i,
             0 <= aget (cOri c) (aget (cornerPerm (ALL_MOVES key)) i)).
  { intro i. apply (aget_inRange 0 2); [ exact R | lia ]. }
  assert (N2 : forall i, 0 <= aget (cornerOriDelta (ALL_MOVES key)) i).
  { intro i. apply (aget_inRange 0 2); [ exact Hd | lia ]. }
  rewrite (sumArray_map_rem 3
             (fun i => aget (cOri c) (aget (cornerPerm (ALL_MOVES key)) i)
                       + aget (cornerOriDelta (ALL_MOVES key)) i));
    [ | lia | intro i; specialize (N1 i); specialize (N2 i); lia ].
  rewrite sumArray_map_add.
  rewrite rem_add_multiple;
    [ | lia | apply sumArray_map_nonneg, N1 | apply sumArray_map_nonneg, N2
      | apply cornerOriDelta_sum ].
  f_equal. apply sumArray_perm, permute_corners, L.
Qed.

Lemma applyMove_eOri_sum (c : Cube) (key : MoveKey) :
  length (eOri c) = 12%nat -> inRange 0 1 (eOri c) = true ->
  Z.rem (sumArray (eOri (applyMove c (ALL_MOVES key)))) 2
  = Z.rem (sumArray (eOri c)) 2.
Proof.
  intros L R. unfold applyMove. cbn [eOri].
  pose proof (moveShape_ALL_MOVES key) as Hm.
  apply andb_true_iff in Hm as [_ Hd].
  assert (N1 : forall i,
             0 <= aget (eOri c) (aget (edgePerm (ALL_MOVES key)) i) <= 1).
  { intro i. apply aget_inRange; [ exact R | lia ]. }
  assert (N2 : forall i, 0 <= aget (edgeOriDelta (ALL_MOVES key)) i <= 1).
  { intro i. apply aget_inRange; [ exact Hd | lia ]. }
  rewrite (map_ext _
             (fun i => Z.rem (aget (eOri c) (aget (edgePerm (ALL_MOVES key)) i)
                              + aget (edgeOriDelta (ALL_MOVES key)) i) 2))
    by (intro i; apply lxor_bits; [ apply N1 | apply N2 ]).
  rewrite (sumArray_map_rem 2
             (fun i => aget (eOri c) (aget (edgePerm (ALL_MOVES key)) i)
                       + aget (edgeOriDelta (ALL_MOVES key)) i));
    [ | lia | intro i; specialize (N1 i); specialize (N2 i); lia ].
  rewrite sumArray_map_add.
  rewrite rem_add_multiple;
    [ | lia
      | apply sumArray_map_nonneg; intro i; apply N1
      | apply sumArray_map_nonneg; intro i; apply N2
      | apply edgeOriDelta_sum ].
  f_equal. apply sumArray_perm, permute_edges, L.
Qed.

(** The checks of [isValidCube] that every cube a move sequence solves
    passes: both arrays are permutations, and the orientation sums are 0
    modulo 3 and modulo 2. *)
Definition solvableChecks (c : Cube) : bool :=
  isValidPermutation (cPerm c) 8 && isValidPermutation (ePerm c) 12
  && (Z.rem (sumArray (cOri c)) 3 =? 0) && (Z.rem (sumArray (eOri c)) 2 =? 0).

Lemma solvableChecks_applyMove (c : Cube) (key : MoveKey) :
  wellFormed c = true ->
  solvableChecks (applyMove c (ALL_MOVES key)) = solvableChecks c.
Proof.
  intro W. destruct (wellFormed_inv c W) as (L1 & L2 & L3 & L4 & R1 & R2).
  unfold solvableChecks.
  rewrite (applyMove_cOri_sum c key L2 R1), (applyMove_eOri_sum c key L4 R2).
  f_equal. f_equal. f_equal.
  - destruct (isValidPermutation (cPerm c) 8) eqn:E.
    + apply isValidPermutation_complete.
      eapply Permutation_trans;
        [ apply applyMove_cPerm_perm, L1 | apply isValidPermutation_perm, E ].
    + destruct (isValidPermutation (cPerm (applyMove c (ALL_MOVES key))) 8)
        eqn:E'; [ | reflexivity ].
      rewrite <- E. symmetry. apply isValidPermutation_complete.
      eapply Permutation_trans;
        [ apply Permutation_sym, applyMove_cPerm_perm, L1
        | apply isValidPermutation_perm, E' ].
  - destruct (isValidPermutation (ePerm c) 12) eqn:E.
    + apply isValidPermutation_complete.
      eapply Permutation_trans;
        [ apply applyMove_ePerm_perm, L3 | apply isValidPermutation_perm, E ].
    + destruct (isValidPermutation (ePerm (applyMove c (ALL_MOVES key))) 12)
        eqn:E'; [ | reflexivity ].
      rewrite <- E. symmetry. apply isValidPermutation_complete.
      eapply Permutation_trans;
        [ apply Permutation_sym, applyMove_ePerm_perm, L3
        | apply isValidPermutation_perm, E' ].
Qed.

Lemma solvableChecks_applyMoveSequence (keys : list MoveKey) :
  forall c, wellFormed c = true ->
            solvableChecks (applyMoveSequence c keys) = solvableChecks c.
Proof.
  induction keys as [| key keys IH]; intros c W; [ reflexivity | ].
  change (applyMoveSequence c (key :: keys))
    with (applyMoveSequence (applyMove c (ALL_MOVES key)) keys).
  rewrite IH by (apply wellFormed_applyMove;
                 [ exact W | apply moveShape_ALL_MOVES ]).
  apply solvableChecks_applyMove, W.
Qed.

Lemma isSolved_eq (c : Cube) : isSolved c = true <-> c = solvedCube.
Proof.
  unfold isSolved, cubesEqual. rewrite !andb_true_iff, !arraysEqual_eq.
  destruct c as [a b d e]. cbn [cPerm cOri ePerm eOri]. split.
  - intros [[[-> ->] ->] ->]. reflexivity.
  - intros [= -> -> -> ->]. auto.
Qed.

End MoveInvariants.

(** ** What [solve] returns *)

Section SolveResults.

Variable g : Globals.
Variable config : SolverConfig.

(** A successful result carries moves that solve the cube. *)
Lemma outcome_success (s : Solution) (c : Cube) :
  outcome s = solveOutcome g config c -> success s = true ->
  applyMoveSequence c (moves s) = solvedCube.
Proof.
  unfold outcome, solveOutcome, failure. intros H S.
  destruct (isSolved c) eqn:E.
  - injection H as -> _ _ _ _ _. apply isSolved_eq, E.
  - destruct (phase1Seq g config c) as [p1 |];
      [ | injection H as _ _ _ _ F _; congruence ].
    cbv zeta in H.
    destruct (negb (Coordinates.isInG1 (applyMoveSequence c p1)));
      [ injection H as _ _ _ _ F _; congruence | ].
    destruct (phase2Seq g config (applyMoveSequence c p1)) as [p2 |];
      [ | injection H as _ _ _ _ F _; congruence ].
    injection H as -> _ _ _ F _. rewrite S in F.
    apply isSolved_eq. symmetry. exact F.
Qed.

Lemma nth_error_nth_solved (l : list Cube) (r : nat) (c : Cube) :
  nth_error l r = Some c -> (r < length l)%nat /\ nth r l solvedCube = c.
Proof.
  intro H. split.
  - apply nth_error_Some. congruence.
  - apply nth_error_nth, H.
Qed.

Lemma solve_outcome (r : Ref) (w : World) (c : Cube) :
  nth_error (heap w) r = Some c ->
  outcome (fst (solve g config r w)) = solveOutcome g config c.
Proof.
  intro H. destruct (nth_error_nth_solved _ _ _ H) as [L E].
  destruct (spec_solve g config r w L) as [Q _]. cbv beta in Q.
  rewrite E in Q. exact Q.
Qed.

Lemma solve_heap (r : Ref) (w : World) (c : Cube) :
  nth_error (heap w) r = Some c ->
  nth_error (heap (snd (solve g config r w))) r = Some c.
Proof.
  intro H. destruct (nth_error_nth_solved _ _ _ H) as [L E].
  destruct (spec_solve g config r w L) as [_ [e X]].
  rewrite X, nth_error_app1 by exact L. exact H.
Qed.

End SolveResults.

Lemma solveOutcome_caps (g : Globals) (config1 config2 : SolverConfig)
    (c : Cube) :
  maxPhase1Depth config1 = maxPhase1Depth config2 ->
  maxPhase2Depth config1 = maxPhase2Depth config2 ->
  solveOutcome g config1 c = solveOutcome g config2 c.
Proof.
  intros H1 H2. unfold solveOutcome, phase1Seq, phase2Seq.
  rewrite H1, H2. reflexivity.
Qed.

(** *** The cubes of the examples *)

(** The solved cube with edge 0 flipped. *)
Definition flippedEdgeCube : Cube :=
  {| cPerm := cPerm solvedCube; cOri := cOri solvedCube;
     ePerm := ePerm solvedCube;
     eOri := [1; 0; 0; 0; 0; 0; 0; 0; 0; 0; 0; 0] |}.

(** The solved cube with corner 6 twisted one way and corner 7 the other
    way: a cube [isValidCube] accepts. *)
Definition twistedCornersCube : Cube :=
  {| cPerm := cPerm solvedCube; cOri := [0; 0; 0; 0; 0; 0; 1; 2];
     ePerm := ePerm solvedCube; eOri := eOri solvedCube |}.

(** A world whose heap holds one cube, with a clock that counts. *)
Definition worldOf (c : Cube) : World :=
  {| heap := [c]; clock := Z.of_nat; ticks := 0; initialized := false |}.

Lemma isInG1_eOri_sum (c : Cube) :
  length (eOri c) = 12%nat -> Coordinates.isInG1 c = true ->
  Z.rem (sumArray (eOri c)) 2 = 0.
Proof.
  intros L H. unfold Coordinates.isInG1 in H.
  destruct (existsb (nonZeroAt (eOri c)) (range 12)) eqn:E;
    [ discriminate | ].
  rewrite existsb_false in E.
  rewrite <- (map_aget_range12 (eOri c) L).
  replace (map (aget (eOri c)) (range 12)) with (map (fun _ => 0) (range 12)).
  - reflexivity.
  - apply map_ext_in. intros i Hi. symmetry.
    apply nonZeroAt_false; [ apply In_range in Hi; lia | apply E, Hi ].
Qed.

Lemma eOri_sum_applyMoveSequence (keys : list MoveKey) :
  forall c, wellFormed c = true ->
    Z.rem (sumArray (eOri (applyMoveSequence c keys))) 2
    = Z.rem (sumArray (eOri c)) 2.
Proof.
  induction keys as [| key keys IH]; intros c W; [ reflexivity | ].
  change (applyMoveSequence c (key :: keys))
    with (applyMoveSequence (applyMove c (ALL_MOVES key)) keys).
  rewrite IH by (apply wellFormed_applyMove;
                 [ exact W | apply moveShape_ALL_MOVES ]).
  destruct (wellFormed_inv c W) as (_ & _ & _ & L & _ & R).
  apply applyMove_eOri_sum; assumption.
Qed.

(** No move sequence takes the cube with one flipped edge into G1. *)
Lemma flippedEdge_never_G1 (keys : list MoveKey) :
  Coordinates.isInG1 (applyMoveSequence flippedEdgeCube keys) = false.
Proof.
  destruct (Coordinates.isInG1 (applyMoveSequence flippedEdgeCube keys))
    eqn:E; [ exfalso | reflexivity ].
  assert (W : wellFormed flippedEdgeCube = true) by reflexivity.
  pose proof (wellFormed_applyMoveSequence keys _ W) as W'.
  destruct (wellFormed_inv _ W') as (_ & _ & _ & L & _ & _).
  pose proof (isInG1_eOri_sum _ L E) as S.
  rewrite (eOri_sum_applyMoveSequence keys _ W) in S. discriminate S.
Qed.

(** What [solve] does with the flipped edge: it runs the phase-1 search
    and reports what became of it. *)
Lemma solveOutcome_flippedEdge (g : Globals) (config : SolverConfig) :
  match searchPhase1Core g (Coordinates.getPhase1Coord flippedEdgeCube)
                         (maxPhase1Depth config) with
  | None =>
      solveOutcome g config flippedEdgeCube
      = failure [] (Phase1SearchFailed (maxPhase1Depth config))
  | Some _ =>
      solveOutcome g config flippedEdgeCube = failure [] FailedToReachG1
  end.
Proof.
  unfold solveOutcome, phase1Seq.
  change (isSolved flippedEdgeCube) with false.
  change (Coordinates.isInG1 flippedEdgeCube) with false. cbv iota.
  destruct (searchPhase1Core g _ _) as [[[sol d] n] |]; [ | reflexivity ].
  cbv zeta. rewrite flippedEdge_never_G1. reflexivity.
Qed.

(** The phase-1 search from a coordinate with [eo = 0] and [eslice = 0]. *)
Lemma searchPhase1Core_goal (g : Globals) (co : Z) (maxDepth : Z) :
  searchPhase1Core g {| eo := 0; co := co; eslice := 0 |} maxDepth
  = Some ([], 0, 0).
Proof. reflexivity. Qed.

Lemma solveOutcome_twistedCorners (g : Globals) (config : SolverConfig) :
  solveOutcome g config twistedCornersCube
  = ([], [], [], [], false, Some VerificationFailed).
Proof. reflexivity. Qed.

(* ----------------------------------------------------------------- *)



Lemma solve_flippedEdge (g : Globals) (config : SolverConfig) (r : Ref)
    (w : World) :
  nth_error (heap w) r = Some flippedEdgeCube ->
  let s := fst (solve g config r w) in
  let search :=
    searchPhase1Core g (Coordinates.getPhase1Coord flippedEdgeCube)
                     (maxPhase1Depth config) in
  success s = false
  /\ ((search = None
       /\ error s = Some (Phase1SearchFailed (maxPhase1Depth config)))
      \/ ((exists res, search = Some res)
          /\ error s = Some FailedToReachG1)).
Proof.
  intros H s search.
  pose proof (solve_outcome g config r w flippedEdgeCube H) as O.
  fold s in O. clearbody s.
  pose proof (solveOutcome_flippedEdge g config) as F.
  fold search in F. clearbody search.
  unfold outcome, failure in *.
  destruct search as [res |]; rewrite F in O;
    injection O as _ _ _ _ -> ->; (split; [ reflexivity | ]).
  - right. split; [ now exists res | reflexivity ].
  - left. split; reflexivity.
Qed.


(** C5 (as the code has it).  The phase-1 search returns the empty
    sequence from every coordinate with [eo = 0] and [eslice = 0], whatever
    [co] is; the cube with two twisted corners is such a start, and [solve]
    ends on it with a verification failure. *)
Theorem searchPhase1_ignores_co :
  (forall (g : Globals) (co maxDepth : Z) (w : World),
      searchPhase1Core g {| eo := 0; co := co; eslice := 0 |} maxDepth
      = Some ([], 0, 0)
      /\ option_map solution
           (fst (searchPhase1 g {| eo := 0; co := co; eslice := 0 |}
                              maxDepth w))
         = Some [])
  /\ isValidCube twistedCornersCube = true
  /\ Coordinates.getPhase1Coord twistedCornersCube
     = {| eo := 0; co := 1; eslice := 0 |}
  /\ (forall (g : Globals) (config : SolverConfig),
         outcome (fst (solve g config 0%nat (worldOf twistedCornersCube)))
         = ([], [], [], [], false, Some VerificationFailed)).
Proof.
  split; [ | split; [ | split ] ].
  - intros g co maxDepth w. split; reflexivity.
  - reflexivity.
  - reflexivity.
  - intros g config.
    rewrite (solve_outcome g config 0%nat (worldOf twistedCornersCube)
               twistedCornersCube eq_refl).
    apply solveOutcome_twistedCorners.
Qed.





(** ** solver/kociemba/pruning.ts: the breadth-first construction *)

Section TypedArray.

Lemma tset_nat_length (a : list Z) (i : nat) (v : Z) :
  length (tset_nat a i v) = length a.
Proof.
  revert i; induction a as [| x a IH]; intros [| i]; cbn; auto.
Qed.

Lemma tset_nat_same (a : list Z) (i : nat) (v : Z) :
  (i < length a)%nat -> nth i (tset_nat a i v) 0 = v.
Proof.
  revert i; induction a as [| x a IH]; intros [| i] H; cbn in *;
    try lia; try reflexivity. apply IH; lia.
Qed.

Lemma tset_nat_other (a : list Z) (i j : nat) (v : Z) :
  i <> j -> nth j (tset_nat a i v) 0 = nth j a 0.
Proof.
  revert i j; induction a as [| x a IH]; intros [| i] [| j] H; cbn;
    try reflexivity; try congruence. apply IH. congruence.
Qed.

(** The number of entries still at [UNKNOWN_DISTANCE]. *)
Definition unknownCount (a : list Z) : nat :=
  length (filter (fun x => x =? UNKNOWN_DISTANCE) a).

Lemma unknownCount_tset (a : list Z) (i : nat) (v : Z) :
  (i < length a)%nat -> nth i a 0 = UNKNOWN_DISTANCE ->
  v <> UNKNOWN_DISTANCE ->
  S (unknownCount (tset_nat a i v)) = unknownCount a.
Proof.
  unfold unknownCount.
  revert i; induction a as [| x a IH]; intros [| i] L H Hv; cbn in *;
    try lia.
  - subst x. cbn.
    destruct (v =? UNKNOWN_DISTANCE) eqn:E;
      [ apply Z.eqb_eq in E; contradiction | reflexivity ].
  - destruct (x =? UNKNOWN_DISTANCE); cbn; rewrite <- (IH i); auto; lia.
Qed.

Lemma nth_repeat_in {A : Type} (a d : A) (m i : nat) :
  (i < m)%nat -> nth i (repeat a m) d = a.
Proof.
  revert i; induction m as [| m IH]; intros [| i] H; cbn; try lia;
    [ reflexivity | apply IH; lia ].
Qed.

Lemma unknownCount_repeat (k : nat) :
  unknownCount (repeat UNKNOWN_DISTANCE k) = k.
Proof.
  unfold unknownCount. induction k as [| k IH]; cbn; [ reflexivity | ].
  now rewrite IH.
Qed.

Lemma get_set_same (t : PruningTable) (k d : Z) :
  0 <= k < Z.of_nat (length (data t)) ->
  get (set t k d) k = Z.min d MAX_DISTANCE.
Proof.
  intro H. unfold get, set, aget.
  destruct (k <? 0) eqn:E; [ apply Z.ltb_lt in E; lia | ].
  cbn [data]. apply tset_nat_same. lia.
Qed.

Lemma get_set_other (t : PruningTable) (k k' d : Z) :
  k <> k' -> get (set t k d) k' = get t k'.
Proof.
  intro H. unfold get, set, aget.
  destruct (k <? 0) eqn:E; [ reflexivity | ].
  destruct (k' <? 0) eqn:E'; [ reflexivity | ].
  cbn [data]. apply tset_nat_other.
  apply Z.ltb_ge in E, E'. lia.
Qed.

Lemma set_length (t : PruningTable) (k d : Z) :
  length (data (set t k d)) = length (data t).
Proof.
  unfold set. destruct (k <? 0); [ reflexivity | ].
  cbn [data]. apply tset_nat_length.
Qed.

Lemma set_unknownCount (t : PruningTable) (k d : Z) :
  0 <= k < Z.of_nat (length (data t)) ->
  get t k = UNKNOWN_DISTANCE -> 0 <= d <= MAX_DISTANCE ->
  S (unknownCount (data (set t k d))) = unknownCount (data t).
Proof.
  intros H U Hd. unfold get, aget in U. unfold set.
  destruct (k <? 0) eqn:E; [ apply Z.ltb_lt in E; lia | ].
  cbn [data]. apply unknownCount_tset; [ lia | exact U | ].
  unfold MAX_DISTANCE, UNKNOWN_DISTANCE in *. lia.
Qed.

End TypedArray.

Section BreadthFirst.

Variable applyMoveFunc : Z -> Z -> Z.
Variable allowedMoves : list Z.
Variable goalCoord : Z.
Variable n : nat.

(** The coordinate values the table has entries for, and the moves, form
    a graph: a move takes a value of the table to a value of the table. *)
Hypothesis closed :
  forall k m, 0 <= k < Z.of_nat n -> In m allowedMoves ->
              0 <= applyMoveFunc k m < Z.of_nat n.
Hypothesis goal_in : 0 <= goalCoord < Z.of_nat n.

(** [reach d k]: [d] allowed moves take the goal to [k]. *)
Definition reach (d : Z) (k : Z) : Prop :=
  exists ms, Z.of_nat (length ms) = d
             /\ Forall (fun m => In m allowedMoves) ms
             /\ fold_left applyMoveFunc ms goalCoord = k.

Lemma reach_in (d k : Z) : reach d k -> 0 <= k < Z.of_nat n.
Proof.
  intros [ms [_ [F <-]]]. clear d.
  induction ms as [| m ms IH] using rev_ind; [ exact goal_in | ].
  rewrite fold_left_app. cbn. apply Forall_app in F as [F1 F2].
  apply closed; [ apply IH, F1 | now inversion F2 ].
Qed.

Lemma reach_step (d k m : Z) :
  reach d k -> In m allowedMoves -> reach (d + 1) (applyMoveFunc k m).
Proof.
  intros [ms [L [F E]]] Hm. exists (ms ++ [m]). split; [ | split ].
  - rewrite length_app. cbn. lia.
  - apply Forall_app. split; [ exact F | constructor; [ exact Hm | constructor ] ].
  - rewrite fold_left_app, E. reflexivity.
Qed.

Definition known (t : PruningTable) (k : Z) : Prop :=
  get t k <> UNKNOWN_DISTANCE.

Definition le_label (t : PruningTable) (q q' : Z) : Prop :=
  get t q <= get t q'.

(** The invariant of the [while] loop. *)
Record Inv (t : PruningTable) (Q : list Z) : Prop := mkInv {
  inv_len : length (data t) = n;
  inv_goal : get t goalCoord = 0;
  inv_path : forall k, 0 <= k < Z.of_nat n -> known t k ->
                       0 <= get t k <= MAX_DISTANCE - 1 /\ reach (get t k) k;
  inv_queue : Forall (fun q => 0 <= q < Z.of_nat n /\ known t q) Q;
  inv_sorted : StronglySorted (le_label t) Q;
  inv_top : forall k q, 0 <= k < Z.of_nat n -> known t k -> In q Q ->
                        get t k <= get t q + 1;
  inv_done : forall k, 0 <= k < Z.of_nat n -> known t k -> ~ In k Q ->
                       get t k < MAX_DISTANCE - 1 ->
                       forall m, In m allowedMoves ->
                         known t (applyMoveFunc k m)
                         /\ get t (applyMoveFunc k m) <= get t k + 1
}.

(** What the [for] loop over the moves has done after some of them. *)
Record Expanded (t0 : PruningTable) (c l : Z) (done : list Z)
    (t : PruningTable) (pushed : list Z) : Prop := mkExpanded {
  ex_len : length (data t) = n;
  ex_old : forall k, known t0 k -> get t k = get t0 k;
  ex_new : forall k, 0 <= k < Z.of_nat n -> known t k ->
                     known t0 k
                     \/ (In k pushed /\ get t k = l + 1
                         /\ exists m, In m allowedMoves
                                      /\ applyMoveFunc c m = k);
  ex_pushed : Forall (fun p => 0 <= p < Z.of_nat n /\ ~ known t0 p
                               /\ get t p = l + 1) pushed;
  ex_done : forall m, In m done -> known t (applyMoveFunc c m);
  ex_count : (unknownCount (data t) + length pushed
              = unknownCount (data t0))%nat
}.

Lemma expand_fold (t0 : PruningTable) (c l : Z) :
  length (data t0) = n -> 0 <= c < Z.of_nat n ->
  0 <= l < MAX_DISTANCE - 1 ->
  forall (todo done : list Z) (t : PruningTable) (pushed : list Z),
    Forall (fun m => In m allowedMoves) (done ++ todo) ->
    Expanded t0 c l done t pushed ->
    let r := fold_left (expandStep applyMoveFunc c (l + 1)) todo (t, pushed) in
    Expanded t0 c l (done ++ todo) (fst r) (snd r).
Proof.
  intros L0 Hc Hl.
  induction todo as [| m todo IH]; intros done t pushed F E.
  - cbn. rewrite app_nil_r. exact E.
  - cbn [fold_left]. cbv zeta.
    replace (done ++ m :: todo) with ((done ++ [m]) ++ todo)
      by (rewrite <- app_assoc; reflexivity).
    replace (done ++ m :: todo) with ((done ++ [m]) ++ todo) in F
      by (rewrite <- app_assoc; reflexivity).
    rewrite (surjective_pairing
               (expandStep applyMoveFunc c (l + 1) (t, pushed) m)).
    apply IH; [ exact F | ].
    assert (Hm : In m allowedMoves).
    { rewrite Forall_forall in F. apply F.
      apply in_or_app. left. apply in_or_app. right. now left. }
    pose proof (closed c m Hc Hm) as Hn.
    destruct E as [E1 E2 E3 E4 E5 E6].
    unfold expandStep.
    destruct (get t (applyMoveFunc c m) =? UNKNOWN_DISTANCE) eqn:U;
      cbn [fst snd].
    + apply Z.eqb_eq in U.
      assert (Hmin : Z.min (l + 1) MAX_DISTANCE = l + 1)
        by (unfold MAX_DISTANCE in *; lia).
      assert (Hsame : get (set t (applyMoveFunc c m) (l + 1))
                          (applyMoveFunc c m) = l + 1).
      { rewrite get_set_same by (rewrite E1; exact Hn). exact Hmin. }
      assert (Hnew0 : ~ known t0 (applyMoveFunc c m)).
      { intro K. apply K. rewrite <- (E2 _ K). exact U. }
      constructor.
      * rewrite set_length. exact E1.
      * intros k K.
        destruct (Z.eq_dec (applyMoveFunc c m) k) as [<- | D];
          [ contradiction | ].
        rewrite get_set_other by exact D. apply E2, K.
      * intros k Hk K.
        destruct (Z.eq_dec (applyMoveFunc c m) k) as [<- | D].
        -- right. split; [ apply in_or_app; right; now left | ].
           split; [ exact Hsame | now exists m ].
        -- unfold known in K. rewrite get_set_other in K by exact D.
           destruct (E3 k Hk K) as [A | [A [B C]]]; [ now left | right ].
           split; [ apply in_or_app; now left | ].
           split; [ | exact C ].
           rewrite get_set_other by exact D. exact B.
      * apply Forall_app. split.
        -- rewrite Forall_forall in *. intros p Hp.
           destruct (E4 p Hp) as [A [B C]].
           split; [ exact A | split; [ exact B | ] ].
           destruct (Z.eq_dec (applyMoveFunc c m) p) as [<- | D];
             [ exact Hsame | ].
           rewrite get_set_other by exact D. exact C.
        -- constructor; [ | constructor ].
           split; [ exact Hn | split; [ exact Hnew0 | exact Hsame ] ].
      * intros m' Hm'. apply in_app_or in Hm' as [Hm' | [<- | []]].
        -- unfold known.
           destruct (Z.eq_dec (applyMoveFunc c m) (applyMoveFunc c m'))
             as [<- | D].
           ++ rewrite Hsame. unfold UNKNOWN_DISTANCE, MAX_DISTANCE in *. lia.
           ++ rewrite get_set_other by exact D. apply E5, Hm'.
        -- unfold known. rewrite Hsame.
           unfold UNKNOWN_DISTANCE, MAX_DISTANCE in *. lia.
      * rewrite length_app. cbn [length].
        pose proof (set_unknownCount t (applyMoveFunc c m) (l + 1)) as S1.
        rewrite E1 in S1. specialize (S1 Hn U).
        assert (S2 : 0 <= l + 1 <= MAX_DISTANCE)
          by (unfold MAX_DISTANCE in *; lia).
        specialize (S1 S2). lia.
    + apply Z.eqb_neq in U.
      constructor; try assumption.
      intros m' Hm'. apply in_app_or in Hm' as [Hm' | [<- | []]];
        [ apply E5, Hm' | exact U ].
Qed.

Lemma StronglySorted_app {A : Type} (R : A -> A -> Prop) (a b : list A) :
  StronglySorted R a -> StronglySorted R b ->
  (forall x y, In x a -> In y b -> R x y) ->
  StronglySorted R (a ++ b).
Proof.
  intros Sa Sb H. induction Sa as [| x a Sa IH Fx]; [ exact Sb | ].
  cbn. constructor.
  - apply IH. intros u v Hu Hv. apply H; [ now right | exact Hv ].
  - apply Forall_app. split; [ exact Fx | ].
    apply Forall_forall. intros y Hy. apply H; [ now left | exact Hy ].
Qed.

Lemma StronglySorted_ext {A : Type} (R R' : A -> A -> Prop) (l : list A) :
  (forall x y, In x l -> In y l -> R x y -> R' x y) ->
  StronglySorted R l -> StronglySorted R' l.
Proof.
  intros H S. induction S as [| x l S IH F]; constructor.
  - apply IH. intros u v Hu Hv. apply H; now right.
  - rewrite Forall_forall in *. intros y Hy.
    apply H; [ now left | now right | apply F, Hy ].
Qed.

Lemma StronglySorted_const {A : Type} (R : A -> A -> Prop) (l : list A) :
  (forall x y, In x l -> In y l -> R x y) -> StronglySorted R l.
Proof.
  induction l as [| x l IH]; intro H; constructor.
  - apply IH. intros u v Hu Hv. apply H; now right.
  - apply Forall_forall. intros y Hy. apply H; [ now left | now right ].
Qed.

(** One turn of the [while] loop keeps the invariant, and the number of
    unknown entries plus the length of the queue goes down by one. *)
Lemma bfs_turn (t : PruningTable) (c : Z) (rest : list Z) :
  Inv t (c :: rest) ->
  let l := get t c in
  if l >=? MAX_DISTANCE - 1 then Inv t rest
  else
    let r := fold_left (expandStep applyMoveFunc c (l + 1)) allowedMoves
                       (t, []) in
    Inv (fst r) (rest ++ snd r)
    /\ (unknownCount (data (fst r)) + length (rest ++ snd r)
        = unknownCount (data t) + length rest)%nat.
Proof.
  intros I l. destruct I as [I1 I2 I3 I4 I5 I6 I7].
  inversion I4 as [| ? ? [Hc Kc] I4']; subst.
  inversion I5 as [| ? ? I5' I5'']; subst.
  destruct (l >=? MAX_DISTANCE - 1) eqn:G.
  - rewrite Z.geb_leb in G. apply Z.leb_le in G.
    constructor; try assumption.
    + intros k q Hk K Hq. apply I6; [ exact Hk | exact K | now right ].
    + intros k Hk K Hq Hlt m Hm.
      destruct (Z.eq_dec k c) as [-> | D]; [ fold l in Hlt; lia | ].
      apply I7; try assumption. intros [E | E]; [ congruence | contradiction ].
  - rewrite Z.geb_leb in G. apply Z.leb_gt in G. cbv zeta.
    destruct (I3 c Hc Kc) as [[Hl0 _] _]. fold l in Hl0.
    assert (E0 : Expanded t c l [] t []).
    { constructor.
      - exact I1.
      - reflexivity.
      - intros k _ K. now left.
      - constructor.
      - intros m [].
      - cbn [length]. lia. }
    pose proof (expand_fold t c l I1 Hc (conj Hl0 G) allowedMoves [] t []
                  (proj2 (Forall_forall _ _) (fun m H => H)) E0) as E.
    cbv zeta in E. cbn [app] in E.
    destruct (fold_left (expandStep applyMoveFunc c (l + 1)) allowedMoves
                        (t, [])) as [t' pushed].
    cbn [fst snd] in *.
    destruct E as [E1 E2 E3 E4 E5 E6].
    assert (Kmono : forall k, known t k -> known t' k).
    { intros k K. unfold known. rewrite (E2 k K). exact K. }
    split.
    + constructor.
      * exact E1.
      * rewrite E2; [ exact I2 | ]. unfold known. rewrite I2.
        unfold UNKNOWN_DISTANCE. lia.
      * intros k Hk K.
        destruct (E3 k Hk K) as [A | [A [B [m [Hm C]]]]].
        -- rewrite (E2 k A). apply I3; assumption.
        -- rewrite B. split; [ lia | ]. subst k.
           apply reach_step; [ | exact Hm ].
           apply (I3 c Hc Kc).
      * apply Forall_app. split.
        -- rewrite Forall_forall in *. intros q Hq.
           destruct (I4' q Hq) as [A B]. split; [ exact A | apply Kmono, B ].
        -- rewrite Forall_forall in *. intros p Hp.
           destruct (E4 p Hp) as [A [B C]]. split; [ exact A | ].
           unfold known. rewrite C. unfold UNKNOWN_DISTANCE, MAX_DISTANCE in *.
           lia.
      * apply StronglySorted_app.
        -- apply (StronglySorted_ext (le_label t)); [ | exact I5' ].
           intros x y Hx Hy. unfold le_label.
           rewrite Forall_forall in I4'.
           rewrite (E2 x (proj2 (I4' x Hx))), (E2 y (proj2 (I4' y Hy))).
           auto.
        -- apply StronglySorted_const. intros x y Hx Hy. unfold le_label.
           rewrite Forall_forall in E4.
           destruct (E4 x Hx) as [_ [_ ->]]. destruct (E4 y Hy) as [_ [_ ->]].
           lia.
        -- intros x y Hx Hy. unfold le_label.
           rewrite Forall_forall in E4, I4'.
           destruct (E4 y Hy) as [_ [_ ->]].
           destruct (I4' x Hx) as [Hx1 Hx2].
           rewrite (E2 x Hx2).
           apply (I6 x c Hx1 Hx2). now left.
      * intros k q Hk K Hq.
        assert (Lq : l <= get t' q).
        { apply in_app_or in Hq as [Hq | Hq].
          - rewrite Forall_forall in I4', I5''.
            rewrite (E2 q (proj2 (I4' q Hq))). apply I5'', Hq.
          - rewrite Forall_forall in E4. destruct (E4 q Hq) as [_ [_ ->]]. lia. }
        assert (Lk : get t' k <= l + 1).
        { destruct (E3 k Hk K) as [A | [_ [B _]]]; [ | lia ].
          rewrite (E2 k A). apply (I6 k c Hk A). now left. }
        lia.
      * intros k Hk K Hq Hlt m Hm.
        destruct (Z.eq_dec k c) as [-> | D].
        -- rewrite (E2 c Kc). fold l.
           pose proof (E5 m Hm) as K'. split; [ exact K' | ].
           destruct (E3 _ (closed c m Hc Hm) K') as [A | [_ [B _]]]; [ | lia ].
           rewrite (E2 _ A). apply (I6 _ c (closed c m Hc Hm) A). now left.
        -- assert (K0 : known t k).
           { destruct (E3 k Hk K) as [A | [A _]]; [ exact A | ].
             exfalso. apply Hq. apply in_or_app. now right. }
           rewrite (E2 k K0) in *.
           assert (Hq0 : ~ In k (c :: rest)).
           { intros [X | X]; [ congruence | ].
             apply Hq. apply in_or_app. now left. }
           destruct (I7 k Hk K0 Hq0 Hlt m Hm) as [A B].
           split; [ apply Kmono, A | ]. rewrite (E2 _ A). exact B.
    + rewrite length_app. lia.
Qed.

(** The loop ends within as many turns as there are unknown entries and
    queued values: with that much fuel or more, the result is the same,
    and it satisfies the invariant with an empty queue. *)
Lemma bfsLoop_inv (fuel : nat) :
  forall (t : PruningTable) (Q : list Z),
    Inv t Q -> (unknownCount (data t) + length Q <= fuel)%nat ->
    Inv (bfsLoop fuel applyMoveFunc allowedMoves t Q) []
    /\ forall fuel', (fuel <= fuel')%nat ->
         bfsLoop fuel' applyMoveFunc allowedMoves t Q
         = bfsLoop fuel applyMoveFunc allowedMoves t Q.
Proof.
  induction fuel as [| fuel IH]; intros t Q I M.
  - destruct Q as [| c rest]; [ | cbn in M; lia ].
    split; [ exact I | ]. intros [| fuel'] _; reflexivity.
  - destruct Q as [| c rest].
    { split; [ exact I | ]. intros [| fuel'] _; reflexivity. }
    pose proof (bfs_turn t c rest I) as T. cbv zeta in T.
    cbn [bfsLoop].
    destruct (get t c >=? MAX_DISTANCE - 1) eqn:G.
    + cbn [length] in M.
      destruct (IH t rest T ltac:(lia)) as [A B].
      split; [ exact A | ].
      intros [| fuel'] Hf; [ lia | ]. cbn [bfsLoop]. rewrite G.
      apply B. lia.
    + destruct (fold_left (expandStep applyMoveFunc c (get t c + 1))
                          allowedMoves (t, [])) as [t' pushed] eqn:F.
      cbn [fst snd] in T. destruct T as [T1 T2].
      cbn [length] in M.
      destruct (IH t' (rest ++ pushed) T1 ltac:(lia)) as [A B].
      split; [ exact A | ].
      intros [| fuel'] Hf; [ lia | ]. cbn [bfsLoop]. rewrite G, F.
      apply B. lia.
Qed.

(** The table [buildPruningTable] starts the loop with. *)
Lemma Inv_start (name : String.string) :
  Inv (set (newTable (Z.of_nat n) name) goalCoord 0) [goalCoord].
Proof.
  assert (L : length (data (newTable (Z.of_nat n) name)) = n).
  { unfold newTable. cbn [data]. rewrite repeat_length. lia. }
  assert (G : get (set (newTable (Z.of_nat n) name) goalCoord 0) goalCoord = 0).
  { rewrite get_set_same by (rewrite L; exact goal_in). reflexivity. }
  assert (O : forall k, 0 <= k < Z.of_nat n -> k <> goalCoord ->
                        ~ known (set (newTable (Z.of_nat n) name) goalCoord 0) k).
  { intros k Hk D K. apply K. rewrite get_set_other by congruence.
    unfold get, aget, newTable. cbn [data].
    destruct (k <? 0) eqn:E; [ apply Z.ltb_lt in E; lia | ].
    apply nth_repeat_in. lia. }
  assert (KG : forall k, 0 <= k < Z.of_nat n ->
                 known (set (newTable (Z.of_nat n) name) goalCoord 0) k ->
                 k = goalCoord).
  { intros k Hk K. destruct (Z.eq_dec k goalCoord) as [E | D]; [ exact E | ].
    exfalso. exact (O k Hk D K). }
  constructor.
  - rewrite set_length. exact L.
  - exact G.
  - intros k Hk K. rewrite (KG k Hk K), G. split.
    + unfold MAX_DISTANCE. lia.
    + exists []. repeat split. constructor.
  - constructor; [ | constructor ]. split; [ exact goal_in | ].
    unfold known. rewrite G. unfold UNKNOWN_DISTANCE. lia.
  - constructor; [ constructor | constructor ].
  - intros k q Hk K [<- | []]. rewrite (KG k Hk K). lia.
  - intros k Hk K Hq. exfalso. apply Hq. left. symmetry. apply KG; assumption.
Qed.

Lemma start_count (name : String.string) :
  S (unknownCount (data (set (newTable (Z.of_nat n) name) goalCoord 0))) = n.
Proof.
  rewrite set_unknownCount.
  - unfold newTable. cbn [data]. rewrite Nat2Z.id. apply unknownCount_repeat.
  - unfold newTable. cbn [data]. rewrite repeat_length, Nat2Z.id. exact goal_in.
  - unfold get, aget, newTable. cbn [data].
    destruct (goalCoord <? 0) eqn:E; [ apply Z.ltb_lt in E; lia | ].
    apply nth_repeat_in. lia.
  - unfold MAX_DISTANCE. lia.
Qed.

(** The table [buildPruningTable] returns for a new table. *)
Definition built (name : String.string) : PruningTable :=
  buildPruningTable (newTable (Z.of_nat n) name) applyMoveFunc goalCoord
                    allowedMoves.

Lemma built_inv (name : String.string) : Inv (built name) [].
Proof.
  unfold built, buildPruningTable.
  apply bfsLoop_inv; [ apply Inv_start | ].
  pose proof (start_count name) as C.
  assert (L : length (data (newTable (Z.of_nat n) name)) = n).
  { unfold newTable. cbn [data]. rewrite repeat_length. lia. }
  rewrite L. cbn [length]. lia.
Qed.

(** More turns of the loop change nothing. *)
Lemma built_fuel (name : String.string) (fuel : nat) :
  (S n <= fuel)%nat ->
  bfsLoop fuel applyMoveFunc allowedMoves
          (set (newTable (Z.of_nat n) name) goalCoord 0) [goalCoord]
  = built name.
Proof.
  intro H. unfold built, buildPruningTable.
  assert (L : length (data (newTable (Z.of_nat n) name)) = n).
  { unfold newTable. cbn [data]. rewrite repeat_length. lia. }
  rewrite L.
  pose proof (start_count name) as C.
  apply (bfsLoop_inv (S n) _ _ (Inv_start name)); [ cbn [length]; lia | exact H ].
Qed.

(** A value that at most 19 moves reach from the goal has an entry, which
    is at most the number of moves. *)
Lemma built_reached (name : String.string) (d k : Z) :
  reach d k -> d <= MAX_DISTANCE - 1 ->
  known (built name) k /\ get (built name) k <= d.
Proof.
  intros [ms [L [F E]]]. revert d k L E.
  induction ms as [| m ms IH] using rev_ind; intros d k L E Hd.
  - cbn [length fold_left] in *. subst d k.
    unfold known. rewrite (inv_goal _ _ (built_inv name)).
    unfold UNKNOWN_DISTANCE. lia.
  - rewrite fold_left_app in E. cbn [fold_left] in E.
    rewrite length_app in L. cbn [length] in L.
    apply Forall_app in F as [F1 F2]. inversion F2 as [| ? ? Hm _]; subst.
    destruct (IH F1 (Z.of_nat (length ms)) _ eq_refl eq_refl ltac:(lia))
      as [K B].
    assert (R : reach (Z.of_nat (length ms))
                      (fold_left applyMoveFunc ms goalCoord)).
    { exists ms. repeat split. exact F1. }
    destruct (inv_done _ _ (built_inv name) _ (reach_in _ _ R) K
                (fun X => X) ltac:(lia) m Hm) as [K' B'].
    split; [ exact K' | lia ].
Qed.

(** The entry of a value is the least number of moves that reach it from
    the goal, when that number is at most 19, and [UNKNOWN_DISTANCE]
    otherwise. *)
Lemma built_distance (name : String.string) (k : Z) :
  0 <= k < Z.of_nat n ->
  (known (built name) k ->
   0 <= get (built name) k <= MAX_DISTANCE - 1
   /\ reach (get (built name) k) k
   /\ forall d, reach d k -> get (built name) k <= d)
  /\ (~ known (built name) k ->
      forall d, reach d k -> MAX_DISTANCE - 1 < d).
Proof.
  intro Hk. split.
  - intro K. destruct (inv_path _ _ (built_inv name) k Hk K) as [A B].
    split; [ exact A | split; [ exact B | ] ].
    intros d R. destruct (Z_le_gt_dec d (MAX_DISTANCE - 1)) as [Hd | Hd].
    + apply (built_reached name d k R Hd).
    + lia.
  - intros K d R. destruct (Z_le_gt_dec d (MAX_DISTANCE - 1)) as [Hd | Hd].
    + exfalso. apply K. apply (built_reached name d k R Hd).
    + lia.
Qed.

End BreadthFirst.

(** ** Distances in the graph of a coordinate *)

(** *** A table of distances to check

    The values of a coordinate are in bijection with arrays (orientation
    arrays, masks, permutations), on which a move acts by rearranging.
    The distances of all arrays to the solved one are computed once and
    kept in a tree with the array as the key; each entry gives a distance
    and a move that leads to an array of smaller distance. *)

#[local] Unset Elimination Schemes.
Inductive Trie : Type :=
  | TEmpty
  | TLeaf (label move : Z)
  | TNode (children : list Trie).
#[local] Set Elimination Schemes.

Fixpoint lookup (t : Trie) (key : list Z) {struct key} : option (Z * Z) :=
  match key, t with
  | [], TLeaf l m => Some (l, m)
  | x :: key', TNode cs => lookup (nth (Z.to_nat x) cs TEmpty) key'
  | _, _ => None
  end.

Fixpoint updChild (cs : list Trie) (i : nat) (f : Trie -> Trie)
    : list Trie :=
  match i, cs with
  | O, [] => [f TEmpty]
  | O, c :: r => f c :: r
  | S j, [] => TEmpty :: updChild [] j f
  | S j, c :: r => c :: updChild r j f
  end.

Fixpoint insert (t : Trie) (key : list Z) (l m : Z) {struct key} : Trie :=
  match key with
  | [] => TLeaf l m
  | x :: key' =>
      let cs := match t with TNode cs => cs | _ => [] end in
      TNode (updChild cs (Z.to_nat x) (fun c => insert c key' l m))
  end.

Section Certificate.

Variable step : list Z -> Z -> list Z.
Variable allowed : list Z.
Variable inverse : Z -> Z.
Variable s0 : list Z.

(** Breadth-first from the solved array: an array found at [level + 1]
    by move [m] gets the inverse of [m] as its way back. *)
Definition growStep (level : Z) (s : list Z)
    (st : Trie * list (list Z)) (m : Z) : Trie * list (list Z) :=
  let '(cert, next) := st in
  let s' := step s m in
  match lookup cert s' with
  | Some _ => (cert, next)
  | None => (insert cert s' (level + 1) (inverse m), s' :: next)
  end.

Fixpoint grow (fuel : nat) (level : Z) (cert : Trie)
    (frontier : list (list Z)) : Trie :=
  match fuel with
  | O => cert
  | S fuel' =>
      match frontier with
      | [] => cert
      | _ =>
          let '(cert', next) :=
            fold_left (fun st s => fold_left (growStep level s) allowed st)
                      frontier (cert, []) in
          grow fuel' (level + 1) cert' next
      end
  end.

Definition distances (fuel : nat) : Trie :=
  grow fuel 0 (insert TEmpty s0 0 0) [s0].

Variable cert : Trie.

(** The check of one entry: distance 0 is for the solved array only; an
    entry of distance [lab > 0] names an allowed move to an array of smaller
    distance; no distance is above 19. *)
Definition certCheck (s : list Z) : bool :=
  match lookup cert s with
  | Some (lab, m) =>
      if lab =? 0 then listEqb s s0
      else (0 <? lab) && (lab <=? MAX_DISTANCE - 1)
           && existsb (Z.eqb m) allowed
           && match lookup cert (step s m) with
              | Some (lab', _) => (0 <=? lab') && (lab' <? lab)
              | None => false
              end
  | None => false
  end.

Variable valid : list Z -> Prop.
Hypothesis step_valid :
  forall s m, valid s -> In m allowed -> valid (step s m).
Hypothesis checked : forall s, valid s -> certCheck s = true.

Lemma cert_descent (d : nat) :
  forall s L m, valid s -> lookup cert s = Some (L, m) ->
                0 <= L <= Z.of_nat d ->
    exists ms, Z.of_nat (length ms) <= L
               /\ Forall (fun x => In x allowed) ms
               /\ fold_left step ms s = s0.
Proof.
  induction d as [| d IH]; intros s L m V E H;
    pose proof (checked s V) as C; unfold certCheck in C; rewrite E in C.
  - replace (L =? 0) with true in C by (symmetry; apply Z.eqb_eq; lia).
    apply listEqb_eq in C. exists []. cbn. repeat split; [ lia | constructor | exact C ].
  - destruct (L =? 0) eqn:Z0.
    + apply listEqb_eq in C. exists []. cbn.
      repeat split; [ lia | constructor | exact C ].
    + repeat rewrite andb_true_iff in C. destruct C as [[[C1 C2] C3] C4].
      apply existsb_exists in C3 as [x [Hx Ex]]. apply Z.eqb_eq in Ex. subst x.
      destruct (lookup cert (step s m)) as [[L' m'] |] eqn:E'; [ | discriminate ].
      apply andb_true_iff in C4 as [C4 C5].
      apply Z.leb_le in C4. apply Z.ltb_lt in C5.
      destruct (IH (step s m) L' m' (step_valid s m V Hx) E' ltac:(lia))
        as [ms [A [B D]]].
      exists (m :: ms). cbn [length fold_left]. split; [ lia | ].
      split; [ constructor; assumption | exact D ].
Qed.

Lemma cert_bound (s : list Z) (L m : Z) :
  valid s -> lookup cert s = Some (L, m) -> 0 <= L <= MAX_DISTANCE - 1.
Proof.
  intros V E. pose proof (checked s V) as C. unfold certCheck in C.
  rewrite E in C. destruct (L =? 0) eqn:Z0.
  - apply Z.eqb_eq in Z0. unfold MAX_DISTANCE. lia.
  - repeat rewrite andb_true_iff in C. destruct C as [[[C1 C2] _] _].
    apply Z.ltb_lt in C1. apply Z.leb_le in C2. lia.
Qed.

(** Every array is at most 19 allowed moves from the solved one. *)
Lemma cert_path (s : list Z) :
  valid s ->
  exists ms, Z.of_nat (length ms) <= MAX_DISTANCE - 1
             /\ Forall (fun x => In x allowed) ms
             /\ fold_left step ms s = s0.
Proof.
  intro V. pose proof (checked s V) as C. unfold certCheck in C.
  destruct (lookup cert s) as [[L m] |] eqn:E; [ | discriminate ].
  clear C. pose proof (cert_bound s L m V E) as B.
  destruct (cert_descent (Z.to_nat L) s L m V E ltac:(lia)) as [ms [A R]].
  exists ms. split; [ lia | exact R ].
Qed.

End Certificate.

(** *** All the arrangements of a list *)

Definition without (x : Z) (pool : list Z) : list Z :=
  filter (fun y => negb (y =? x)) pool.

Fixpoint forallPerms (fuel : nat) (pool : list Z) (P : list Z -> bool)
    : bool :=
  match fuel with
  | O => P []
  | S fuel' =>
      forallb (fun x => forallPerms fuel' (without x pool)
                                    (fun l => P (x :: l)))
              pool
  end.

Lemma filter_all {A : Type} (f : A -> bool) (l : list A) :
  (forall z, In z l -> f z = true) -> filter f l = l.
Proof.
  induction l as [| a l IH]; intro H; [ reflexivity | ].
  cbn [filter]. rewrite (H a) by now left.
  f_equal. apply IH. intros z Hz. apply H. now right.
Qed.

Lemma without_perm (x : Z) (pool : list Z) :
  NoDup pool -> In x pool -> Permutation pool (x :: without x pool).
Proof.
  induction pool as [| y pool IH]; intros ND H; [ destruct H | ].
  inversion ND as [| ? ? Hy ND']; subst.
  unfold without in *. cbn [filter].
  destruct (y =? x) eqn:E.
  - apply Z.eqb_eq in E. subst y. cbn [negb].
    apply Permutation_cons; [ reflexivity | ].
    rewrite filter_all; [ reflexivity | ].
    intros z Hz. apply negb_true_iff, Z.eqb_neq.
    intros ->. contradiction.
  - cbn [negb]. destruct H as [H | H]; [ apply Z.eqb_neq in E; congruence | ].
    eapply Permutation_trans;
      [ apply Permutation_cons; [ reflexivity | apply IH; assumption ] | ].
    apply perm_swap.
Qed.

Lemma forallPerms_sound (fuel : nat) :
  forall (pool : list Z) (P : list Z -> bool),
    length pool = fuel -> NoDup pool ->
    forallPerms fuel pool P = true ->
    forall l, Permutation l pool -> P l = true.
Proof.
  induction fuel as [| fuel IH]; intros pool P L ND H l HP.
  - destruct pool; [ | discriminate ].
    apply Permutation_sym, Permutation_nil in HP. subst l. exact H.
  - destruct l as [| x l].
    { apply Permutation_length in HP. cbn in HP. lia. }
    cbn [forallPerms] in H. rewrite forallb_forall in H.
    assert (Hx : In x pool) by (apply (Permutation_in _ HP); now left).
    specialize (H x Hx).
    pose proof (without_perm x pool ND Hx) as W.
    apply (IH (without x pool) (fun l => P (x :: l))); [ | | exact H | ].
    + apply Permutation_length in W. cbn in W. lia.
    + apply NoDup_filter, ND.
    + apply (Permutation_cons_inv (a := x)).
      eapply Permutation_trans; [ exact HP | exact W ].
Qed.

(** *** From the arrays to the table *)

Section CoordinateGraph.

Variable size : Z.
Variable applyMoveFunc : Z -> Z -> Z.
Variable allowedMoves : list Z.
Variable inverse : Z -> Z.
Variable enc : list Z -> Z.
Variable dec : Z -> list Z.
Variable valid : list Z -> Prop.
Variable step : list Z -> Z -> list Z.

Hypothesis size_pos : 0 < size.
Hypothesis enc_dec : forall k, 0 <= k < size -> enc (dec k) = k.
Hypothesis dec_enc : forall s, valid s -> dec (enc s) = s.
Hypothesis valid_dec : forall k, 0 <= k < size -> valid (dec k).
Hypothesis enc_range : forall s, valid s -> 0 <= enc s < size.
Hypothesis step_valid :
  forall s m, valid s -> In m allowedMoves -> valid (step s m).
Hypothesis act_step :
  forall k m, 0 <= k < size -> In m allowedMoves ->
              applyMoveFunc k m = enc (step (dec k) m).
Hypothesis inverse_allowed :
  forall m, In m allowedMoves -> In (inverse m) allowedMoves.
Hypothesis step_inverse :
  forall s m, valid s -> In m allowedMoves -> step (step s m) (inverse m) = s.
Hypothesis near :
  forall s, valid s ->
    exists ms, Z.of_nat (length ms) <= MAX_DISTANCE - 1
               /\ Forall (fun x => In x allowedMoves) ms
               /\ fold_left step ms s = dec 0.

Lemma act_closed (k m : Z) :
  0 <= k < size -> In m allowedMoves ->
  0 <= applyMoveFunc k m < size.
Proof.
  intros Hk Hm. rewrite act_step by assumption.
  apply enc_range, step_valid; [ apply valid_dec, Hk | exact Hm ].
Qed.

Lemma act_inverse (k m : Z) :
  0 <= k < size -> In m allowedMoves ->
  applyMoveFunc (applyMoveFunc k m) (inverse m) = k.
Proof.
  intros Hk Hm.
  rewrite (act_step (applyMoveFunc k m))
    by (try apply act_closed; try apply inverse_allowed; assumption).
  rewrite (act_step k m) by assumption.
  rewrite dec_enc by (apply step_valid; [ apply valid_dec, Hk | exact Hm ]).
  rewrite step_inverse by (try apply valid_dec; assumption).
  apply enc_dec, Hk.
Qed.

Lemma fold_act (ms : list Z) :
  forall k, 0 <= k < size -> Forall (fun x => In x allowedMoves) ms ->
    0 <= fold_left applyMoveFunc ms k < size
    /\ dec (fold_left applyMoveFunc ms k) = fold_left step ms (dec k).
Proof.
  induction ms as [| m ms IH]; intros k Hk F; [ split; [ exact Hk | reflexivity ] | ].
  inversion F as [| ? ? Hm F']; subst. cbn [fold_left].
  destruct (IH (applyMoveFunc k m) (act_closed k m Hk Hm) F') as [A B].
  split; [ exact A | ]. rewrite B. f_equal.
  rewrite act_step by assumption.
  apply dec_enc, step_valid; [ apply valid_dec, Hk | exact Hm ].
Qed.

Lemma fold_act_back (ms : list Z) :
  forall k, 0 <= k < size -> Forall (fun x => In x allowedMoves) ms ->
    fold_left applyMoveFunc (map inverse (rev ms))
              (fold_left applyMoveFunc ms k) = k.
Proof.
  induction ms as [| m ms IH]; intros k Hk F; [ reflexivity | ].
  inversion F as [| ? ? Hm F']; subst. cbn [fold_left rev].
  rewrite map_app, fold_left_app. cbn [map fold_left].
  rewrite IH by (try apply act_closed; assumption).
  apply act_inverse; assumption.
Qed.

Lemma back_allowed (ms : list Z) :
  Forall (fun x => In x allowedMoves) ms ->
  Forall (fun x => In x allowedMoves) (map inverse (rev ms)).
Proof.
  intro F. apply Forall_forall. intros x Hx.
  apply in_map_iff in Hx as [y [<- Hy]]. apply inverse_allowed.
  rewrite Forall_forall in F. apply F. apply in_rev, Hy.
Qed.

(** [solves ms k]: the allowed moves [ms] reduce [k] to 0. *)
Definition solves (ms : list Z) (k : Z) : Prop :=
  Forall (fun x => In x allowedMoves) ms
  /\ fold_left applyMoveFunc ms k = 0.

Lemma zero_in : 0 <= 0 < size.
Proof. lia. Qed.

Lemma solves_reach (ms : list Z) (k : Z) :
  0 <= k < size -> solves ms k ->
  reach applyMoveFunc allowedMoves 0 (Z.of_nat (length ms)) k.
Proof.
  intros Hk [F E]. exists (map inverse (rev ms)). split; [ | split ].
  - now rewrite length_map, length_rev.
  - apply back_allowed, F.
  - rewrite <- E. apply fold_act_back; assumption.
Qed.

Lemma reach_solves (d k : Z) :
  reach applyMoveFunc allowedMoves 0 d k ->
  exists ms, solves ms k /\ Z.of_nat (length ms) = d.
Proof.
  intros [ms [L [F E]]]. exists (map inverse (rev ms)). split; [ split | ].
  - apply back_allowed, F.
  - rewrite <- E. apply fold_act_back; [ apply zero_in | exact F ].
  - now rewrite length_map, length_rev.
Qed.

Lemma near_solves (k : Z) :
  0 <= k < size ->
  exists ms, Z.of_nat (length ms) <= MAX_DISTANCE - 1 /\ solves ms k.
Proof.
  intro Hk. destruct (near (dec k) (valid_dec k Hk)) as [ms [L [F E]]].
  exists ms. split; [ exact L | split; [ exact F | ] ].
  destruct (fold_act ms k Hk F) as [A B].
  rewrite <- (enc_dec _ A), B, E. apply enc_dec, zero_in.
Qed.

(** The entry of [k] in the table that [buildPruningTable] fills from a
    new table is the least number of allowed moves that reduce [k] to 0;
    it is at most 19, so the cap at [MAX_DISTANCE] changes nothing and no
    entry is left at [UNKNOWN_DISTANCE]. *)
Lemma table_entry (name : String.string) (k : Z) :
  0 <= k < size ->
  let v := get (buildPruningTable (newTable size name)
                                  applyMoveFunc 0 allowedMoves) k in
  0 <= v <= MAX_DISTANCE - 1
  /\ (exists ms, solves ms k /\ Z.of_nat (length ms) = v)
  /\ (forall ms, solves ms k -> v <= Z.of_nat (length ms)).
Proof.
  intros Hk v.
  assert (Es : Z.of_nat (Z.to_nat size) = size) by (apply Z2Nat.id; lia).
  assert (C : forall k m, 0 <= k < Z.of_nat (Z.to_nat size) ->
                          In m allowedMoves ->
                          0 <= applyMoveFunc k m < Z.of_nat (Z.to_nat size)).
  { rewrite Es. exact act_closed. }
  assert (Z0 : 0 <= 0 < Z.of_nat (Z.to_nat size)) by (rewrite Es; lia).
  assert (Hk' : 0 <= k < Z.of_nat (Z.to_nat size)) by (rewrite Es; exact Hk).
  destruct (near_solves k Hk) as [ms0 [L0 S0]].
  pose proof (solves_reach ms0 k Hk S0) as R0.
  pose proof (built_reached applyMoveFunc allowedMoves 0 (Z.to_nat size) C Z0
                name _ k R0 L0) as KB.
  pose proof (built_distance applyMoveFunc allowedMoves 0 (Z.to_nat size) C Z0
                name k Hk') as D.
  unfold built in KB, D. rewrite Es in KB, D. fold v in KB, D.
  destruct KB as [K B]. destruct D as [D _].
  destruct (D K) as [V [R M]].
  split; [ exact V | split ].
  - apply reach_solves, R.
  - intros ms Hs. apply M. apply solves_reach; assumption.
Qed.

End CoordinateGraph.

(** *** Checking the arrays of a coordinate *)

Section StateCheck.

Variable validb : list Z -> bool.
Variable step : list Z -> Z -> list Z.
Variable allowed : list Z.
Variable inverse : Z -> Z.
Variable s0 : list Z.
Variable cert : Trie.

(** For a valid array: its entry of the distances passes [certCheck], and
    every allowed move gives a valid array from which the inverse move
    leads back. *)
Definition stateCheck (s : list Z) : bool :=
  if validb s
  then certCheck step allowed s0 cert s
       && forallb (fun m => validb (step s m)
                            && listEqb (step (step s m) (inverse m)) s)
                  allowed
  else true.

Hypothesis all : forall s, validb s = true -> stateCheck s = true.

Lemma checked_step_valid (s : list Z) (m : Z) :
  validb s = true -> In m allowed -> validb (step s m) = true.
Proof.
  intros V Hm. pose proof (all s V) as C. unfold stateCheck in C.
  rewrite V in C. apply andb_true_iff in C as [_ C].
  rewrite forallb_forall in C. specialize (C m Hm).
  now apply andb_true_iff in C as [C _].
Qed.

Lemma checked_step_inverse (s : list Z) (m : Z) :
  validb s = true -> In m allowed -> step (step s m) (inverse m) = s.
Proof.
  intros V Hm. pose proof (all s V) as C. unfold stateCheck in C.
  rewrite V in C. apply andb_true_iff in C as [_ C].
  rewrite forallb_forall in C. specialize (C m Hm).
  apply andb_true_iff in C as [_ C]. now apply listEqb_eq.
Qed.

Lemma checked_near (s : list Z) :
  validb s = true ->
  exists ms, Z.of_nat (length ms) <= MAX_DISTANCE - 1
             /\ Forall (fun x => In x allowed) ms
             /\ fold_left step ms s = s0.
Proof.
  apply (cert_path step allowed s0 cert (fun s => validb s = true)).
  - exact checked_step_valid.
  - intros s' V. pose proof (all s' V) as C. unfold stateCheck in C.
    rewrite V in C. now apply andb_true_iff in C as [C _].
Qed.

End StateCheck.

Lemma stateCheck_lists (validb : list Z -> bool) (P : list Z -> bool)
    (vals : list Z) (n : nat) :
  (forall s, validb s = true ->
             length s = n /\ Forall (fun x => In x vals) s) ->
  forallLists vals n (fun s => if validb s then P s else true) = true ->
  forall s, validb s = true -> P s = true.
Proof.
  intros Hv H s V. destruct (Hv s V) as [L F].
  pose proof (forallLists_sound vals n _ H s L F) as C.
  cbv beta in C. now rewrite V in C.
Qed.

Lemma stateCheck_perms (P : list Z -> bool) (n : nat) :
  forallPerms n (range n) P = true ->
  forall s, isValidPermutation s n = true -> P s = true.
Proof.
  intros H s V.
  apply (forallPerms_sound n (range n) P); try assumption.
  - unfold range. now rewrite length_map, length_seq.
  - apply NoDup_range.
  - apply isValidPermutation_perm, V.
Qed.

(** *** The moves by index *)

Definition invertIndex (m : Z) : Z :=
  match moveKeyAt m with
  | Some key => MoveIndex (invertMoveKey key)
  | None => m
  end.

(** The eighteen move tables, computed once. *)
Definition moveTables : list MoveTable :=
  Eval vm_compute in map ALL_MOVES MOVE_KEYS.

Definition moveAt (m : Z) : MoveTable :=
  nth (Z.to_nat m) moveTables (mkMove [] [] [] []).

Lemma moveAt_key (key : MoveKey) : moveAt (MoveIndex key) = ALL_MOVES key.
Proof. destruct key; vm_compute; reflexivity. Qed.

Lemma all_moves_key (m : Z) :
  In m ALL_MOVE_INDICES -> exists key, moveKeyAt m = Some key.
Proof.
  intro H. cbn in H.
  repeat (destruct H as [<- | H]; [ eexists; reflexivity | ]).
  destruct H.
Qed.

Lemma phase2_moves_key (m : Z) :
  In m Pruning.PHASE2_MOVES ->
  exists key, moveKeyAt m = Some key
              /\ In key [U; U2; Up; D; D2; Dp; R2; L2; F2; B2].
Proof.
  intro H. cbn in H.
  repeat (destruct H as [<- | H];
          [ eexists; split; [ reflexivity | cbn; tauto ] | ]).
  destruct H.
Qed.

Lemma all_moves_inverse (m : Z) :
  In m ALL_MOVE_INDICES -> In (invertIndex m) ALL_MOVE_INDICES.
Proof.
  intro H. cbn in H.
  repeat (destruct H as [<- | H]; [ cbn; tauto | ]).
  destruct H.
Qed.

Lemma phase2_moves_inverse (m : Z) :
  In m Pruning.PHASE2_MOVES -> In (invertIndex m) Pruning.PHASE2_MOVES.
Proof.
  intro H. cbn in H.
  repeat (destruct H as [<- | H]; [ cbn; tauto | ]).
  destruct H.
Qed.

Lemma act_closed_form (size : Z) (getCoord : Cube -> Z)
    (setCoord : Cube -> Z -> Cube) (k m : Z) (key : MoveKey) :
  0 <= k < size -> moveKeyAt m = Some key ->
  tableLookup (buildCoordinateMoveTable size getCoord setCoord) k m
  = getCoord (applyMove (setCoord solvedCube k) (moveAt m)).
Proof.
  intros Hk Hm. rewrite (tableLookup_build _ _ _ _ _ key Hk Hm).
  destruct (moveKeyAt_inv m key Hm) as (_ & _ & ->).
  now rewrite moveAt_key.
Qed.

(** The entry of a table: the least number of allowed moves that reduce
    the coordinate value to 0. *)
Definition leastMoves (applyMoveFunc : Z -> Z -> Z) (allowedMoves : list Z)
    (k d : Z) : Prop :=
  (exists ms, Forall (fun m => In m allowedMoves) ms
              /\ fold_left applyMoveFunc ms k = 0
              /\ Z.of_nat (length ms) = d)
  /\ (forall ms, Forall (fun m => In m allowedMoves) ms ->
                 fold_left applyMoveFunc ms k = 0 ->
                 d <= Z.of_nat (length ms)).

Definition holdsDistance (t : PruningTable) (applyMoveFunc : Z -> Z -> Z)
    (allowedMoves : list Z) (k : Z) : Prop :=
  exists d, leastMoves applyMoveFunc allowedMoves k d
            /\ get t k = Z.min d MAX_DISTANCE
            /\ get t k <> UNKNOWN_DISTANCE.

Lemma holdsDistance_of_entry (t : PruningTable) (act : Z -> Z -> Z)
    (allowed : list Z) (k : Z) :
  (let v := get t k in
   0 <= v <= MAX_DISTANCE - 1
   /\ (exists ms, solves act allowed ms k /\ Z.of_nat (length ms) = v)
   /\ (forall ms, solves act allowed ms k -> v <= Z.of_nat (length ms))) ->
  holdsDistance t act allowed k.
Proof.
  cbv zeta. intros [V [[ms [[F E] L]] M]]. exists (get t k).
  split; [ split | split ].
  - exists ms. auto.
  - intros ms' F' E'. apply M. split; assumption.
  - unfold MAX_DISTANCE in *. lia.
  - unfold MAX_DISTANCE, UNKNOWN_DISTANCE in *. lia.
Qed.

(** *** Edge orientation *)

Section EdgeOrientationTable.

Import Coordinates.

Definition validEO (l : list Z) : bool :=
  Nat.eqb (length l) 12 && inRange 0 1 l && (Z.rem (sumArray l) 2 =? 0).

Definition encEO (l : list Z) : Z := getEdgeOrientation (withEOri l).
Definition decEO (k : Z) : list Z := eOri (setEdgeOrientation solvedCube k).

Definition stepEO (l : list Z) (m : Z) : list Z :=
  let sigma := edgePerm (moveAt m) in
  let delta := edgeOriDelta (moveAt m) in
  map (fun i => Z.lxor (aget l (aget sigma i)) (aget delta i)) (range 12).

Definition eoDistances : Trie :=
  Eval vm_compute in
    distances stepEO ALL_MOVE_INDICES invertIndex (decEO 0) 25.

Lemma eo_checked :
  forallLists [0; 1] 12
    (fun s => if validEO s
              then stateCheck validEO stepEO ALL_MOVE_INDICES invertIndex
                              (decEO 0) eoDistances s
              else true) = true.
Proof. vm_compute. reflexivity. Qed.

Lemma validEO_inv (l : list Z) :
  validEO l = true ->
  length l = 12%nat /\ inRange 0 1 l = true /\ Z.rem (sumArray l) 2 = 0.
Proof.
  unfold validEO. rewrite !andb_true_iff, Nat.eqb_eq, Z.eqb_eq. tauto.
Qed.

Lemma eo_all (s : list Z) :
  validEO s = true ->
  stateCheck validEO stepEO ALL_MOVE_INDICES invertIndex (decEO 0)
             eoDistances s = true.
Proof.
  apply (stateCheck_lists validEO _ [0; 1] 12); [ | exact eo_checked ].
  intros l V. destruct (validEO_inv l V) as (L & R & _).
  split; [ exact L | ].
  apply (inRange_In 0 1); [ intros x Hx; cbn; lia | exact R ].
Qed.

Lemma eo_valid_dec_all :
  forallb (fun k => validEO (decEO k)) (range 2048) = true.
Proof. vm_compute. reflexivity. Qed.

Lemma eo_entry (k : Z) :
  0 <= k < EO_SIZE ->
  holdsDistance EOPruningTable applyMoveToEO ALL_MOVE_INDICES k.
Proof.
  intro Hk. apply holdsDistance_of_entry. unfold EOPruningTable.
  apply (table_entry EO_SIZE applyMoveToEO ALL_MOVE_INDICES invertIndex
           encEO decEO (fun s => validEO s = true) stepEO).
  - reflexivity.
  - intros j Hj. unfold encEO, decEO.
    rewrite getEdgeOrientation_withEOri.
    apply Z.eqb_eq. apply (forallb_range _ 2048 eo_round_trip_all j Hj).
  - intros s V. destruct (validEO_inv s V) as (L & R & S).
    apply (eo_encode_decode (withEOri s) L R S).
  - intros j Hj. apply (forallb_range _ 2048 eo_valid_dec_all j Hj).
  - intros s V. destruct (validEO_inv s V) as (L & R & S).
    apply (eo_encode_decode (withEOri s) L R S).
  - apply (checked_step_valid _ _ _ _ _ _ eo_all).
  - intros j m Hj Hm. destruct (all_moves_key m Hm) as [key Hkey].
    unfold applyMoveToEO, EO_MOVE_TABLE.
    rewrite (act_closed_form _ _ _ j m key Hj Hkey).
    unfold encEO, stepEO, decEO, getEdgeOrientation, applyMove, withEOri.
    cbn [eOri]. reflexivity.
  - exact all_moves_inverse.
  - apply (checked_step_inverse _ _ _ _ _ _ eo_all).
  - apply (checked_near _ _ _ _ _ _ eo_all).
  - exact Hk.
Qed.

End EdgeOrientationTable.

(** *** Corner orientation *)

Section CornerOrientationTable.

Import Coordinates.

Definition validCO (l : list Z) : bool :=
  Nat.eqb (length l) 8 && inRange 0 2 l && (Z.rem (sumArray l) 3 =? 0).

Definition encCO (l : list Z) : Z := getCornerOrientation (withCOri l).
Definition decCO (k : Z) : list Z := cOri (setCornerOrientation solvedCube k).

Definition stepCO (l : list Z) (m : Z) : list Z :=
  let sigma := cornerPerm (moveAt m) in
  let delta := cornerOriDelta (moveAt m) in
  map (fun i => Z.rem (aget l (aget sigma i) + aget delta i) 3) (range 8).

Definition coDistances : Trie :=
  Eval vm_compute in
    distances stepCO ALL_MOVE_INDICES invertIndex (decCO 0) 25.

Lemma co_checked :
  forallLists [0; 1; 2] 8
    (fun s => if validCO s
              then stateCheck validCO stepCO ALL_MOVE_INDICES invertIndex
                              (decCO 0) coDistances s
              else true) = true.
Proof. vm_compute. reflexivity. Qed.

Lemma validCO_inv (l : list Z) :
  validCO l = true ->
  length l = 8%nat /\ inRange 0 2 l = true /\ Z.rem (sumArray l) 3 = 0.
Proof.
  unfold validCO. rewrite !andb_true_iff, Nat.eqb_eq, Z.eqb_eq. tauto.
Qed.

Lemma co_all (s : list Z) :
  validCO s = true ->
  stateCheck validCO stepCO ALL_MOVE_INDICES invertIndex (decCO 0)
             coDistances s = true.
Proof.
  apply (stateCheck_lists validCO _ [0; 1; 2] 8); [ | exact co_checked ].
  intros l V. destruct (validCO_inv l V) as (L & R & _).
  split; [ exact L | ].
  apply (inRange_In 0 2); [ intros x Hx; cbn; lia | exact R ].
Qed.

Lemma co_valid_dec_all :
  forallb (fun k => validCO (decCO k)) (range 2187) = true.
Proof. vm_compute. reflexivity. Qed.

Lemma co_entry (k : Z) :
  0 <= k < CO_SIZE ->
  holdsDistance COPruningTable applyMoveToCO ALL_MOVE_INDICES k.
Proof.
  intro Hk. apply holdsDistance_of_entry. unfold COPruningTable.
  apply (table_entry CO_SIZE applyMoveToCO ALL_MOVE_INDICES invertIndex
           encCO decCO (fun s => validCO s = true) stepCO).
  - reflexivity.
  - intros j Hj. unfold encCO, decCO.
    rewrite getCornerOrientation_withCOri.
    apply Z.eqb_eq. apply (forallb_range _ 2187 co_round_trip_all j Hj).
  - intros s V. destruct (validCO_inv s V) as (L & R & S).
    apply (co_encode_decode (withCOri s) L R S).
  - intros j Hj. apply (forallb_range _ 2187 co_valid_dec_all j Hj).
  - intros s V. destruct (validCO_inv s V) as (L & R & S).
    apply (co_encode_decode (withCOri s) L R S).
  - apply (checked_step_valid _ _ _ _ _ _ co_all).
  - intros j m Hj Hm. destruct (all_moves_key m Hm) as [key Hkey].
    unfold applyMoveToCO, CO_MOVE_TABLE.
    rewrite (act_closed_form _ _ _ j m key Hj Hkey).
    unfold encCO, stepCO, decCO, getCornerOrientation, applyMove, withCOri.
    cbn [cOri]. reflexivity.
  - exact all_moves_inverse.
  - apply (checked_step_inverse _ _ _ _ _ _ co_all).
  - apply (checked_near _ _ _ _ _ _ co_all).
  - exact Hk.
Qed.

End CornerOrientationTable.

(** *** The E-slice coordinate *)

Section ESliceTable.

Import Coordinates.

Definition validMask (l : list Z) : bool :=
  Nat.eqb (length l) 12 && inRange 0 1 l && (sumArray l =? 4).

Definition decESlice (k : Z) : list Z :=
  sliceMask (ePerm (setESlice solvedCube k)).

Definition stepESlice (mask : list Z) (m : Z) : list Z :=
  moveMask (edgePerm (moveAt m)) mask.

Definition esliceDistances : Trie :=
  Eval vm_compute in
    distances stepESlice ALL_MOVE_INDICES invertIndex (decESlice 0) 25.

Lemma eslice_checked :
  forallLists [0; 1] 12
    (fun s => if validMask s
              then stateCheck validMask stepESlice ALL_MOVE_INDICES invertIndex
                              (decESlice 0) esliceDistances s
              else true) = true.
Proof. vm_compute. reflexivity. Qed.

Lemma validMask_inv (l : list Z) :
  validMask l = true ->
  length l = 12%nat /\ Forall (fun x => In x [0; 1]) l /\ sumArray l = 4.
Proof.
  unfold validMask. rewrite !andb_true_iff, Nat.eqb_eq, Z.eqb_eq.
  intros [[L R] S]. split; [ exact L | split; [ | exact S ] ].
  apply (inRange_In 0 1); [ intros x Hx; cbn; lia | exact R ].
Qed.

Lemma eslice_all (s : list Z) :
  validMask s = true ->
  stateCheck validMask stepESlice ALL_MOVE_INDICES invertIndex (decESlice 0)
             esliceDistances s = true.
Proof.
  apply (stateCheck_lists validMask _ [0; 1] 12); [ | exact eslice_checked ].
  intros l V. destruct (validMask_inv l V) as (L & R & _). auto.
Qed.

Lemma eslice_valid_dec_all :
  forallb (fun k => validMask (decESlice k)) (range 495) = true.
Proof. vm_compute. reflexivity. Qed.

Lemma maskCheck_of_valid (s : list Z) :
  validMask s = true ->
  decESlice (getESliceMask s) = s /\ 0 <= getESliceMask s < ESLICE_SIZE.
Proof.
  intro V. destruct (validMask_inv s V) as (L & F & S).
  pose proof (forallLists_sound _ _ _ maskCheck_all s L F) as C.
  cbv beta in C. rewrite S in C. cbn [Z.eqb Pos.eqb] in C.
  unfold maskCheck in C.
  do 4 (apply andb_true_iff in C as [C ?]).
  repeat match goal with
  | H : (_ <=? _) = true |- _ => apply Z.leb_le in H
  | H : (_ <? _) = true |- _ => apply Z.ltb_lt in H
  end.
  apply listEqb_eq in C. split; [ exact C | lia ].
Qed.

Lemma eslice_entry (k : Z) :
  0 <= k < ESLICE_SIZE ->
  holdsDistance ESlicePruningTable applyMoveToESlice ALL_MOVE_INDICES k.
Proof.
  intro Hk. apply holdsDistance_of_entry. unfold ESlicePruningTable.
  apply (table_entry ESLICE_SIZE applyMoveToESlice ALL_MOVE_INDICES
           invertIndex getESliceMask decESlice (fun s => validMask s = true)
           stepESlice).
  - reflexivity.
  - intros j Hj. unfold decESlice. rewrite <- getESlice_mask.
    apply Z.eqb_eq. apply (forallb_range _ 495 eslice_round_trip_all j Hj).
  - intros s V. apply (maskCheck_of_valid s V).
  - intros j Hj. apply (forallb_range _ 495 eslice_valid_dec_all j Hj).
  - intros s V. apply (maskCheck_of_valid s V).
  - apply (checked_step_valid _ _ _ _ _ _ eslice_all).
  - intros j m Hj Hm. destruct (all_moves_key m Hm) as [key Hkey].
    unfold applyMoveToESlice, ESLICE_MOVE_TABLE.
    rewrite (act_closed_form _ _ _ j m key Hj Hkey).
    destruct (moveKeyAt_inv m key Hkey) as (_ & _ & ->).
    rewrite moveAt_key, getESlice_mask.
    rewrite sliceMask_applyMove by apply edgePerm_inRange.
    unfold stepESlice, decESlice. now rewrite moveAt_key.
  - exact all_moves_inverse.
  - apply (checked_step_inverse _ _ _ _ _ _ eslice_all).
  - apply (checked_near _ _ _ _ _ _ eslice_all).
  - exact Hk.
Qed.

End ESliceTable.

(** *** The permutation coordinates *)

Section PermutationTables.

Import Coordinates.

Lemma indexToPermutation_valid (n : nat) (k : Z) :
  0 <= k < factorialOf n -> isValidPermutation (indexToPermutation k n) n = true.
Proof.
  intro H. apply isValidPermutation_complete.
  rewrite indexToPermutation_unrank by exact H.
  apply unrank_perm; [ | exact H ].
  unfold range. now rewrite length_map, length_seq.
Qed.

(** Corner permutation. *)
Definition stepCP (p : list Z) (m : Z) : list Z :=
  let sigma := cornerPerm (moveAt m) in
  map (fun i => aget p (aget sigma i)) (range 8).

Definition cpDistances : Trie :=
  Eval vm_compute in
    distances stepCP Pruning.PHASE2_MOVES invertIndex (range 8) 25.

Lemma cp_checked :
  forallPerms 8 (range 8)
    (certCheck stepCP Pruning.PHASE2_MOVES (range 8) cpDistances) = true.
Proof. vm_compute. reflexivity. Qed.

Lemma stepCP_valid (p : list Z) (m : Z) :
  isValidPermutation p 8 = true -> In m Pruning.PHASE2_MOVES ->
  isValidPermutation (stepCP p m) 8 = true.
Proof.
  intros V Hm. destruct (phase2_moves_key m Hm) as [key [Hkey _]].
  destruct (moveKeyAt_inv m key Hkey) as (_ & _ & ->).
  unfold stepCP. cbv zeta. rewrite moveAt_key.
  apply isValidPermutation_complete.
  eapply Permutation_trans;
    [ apply permute_corners, (isValidPermutation_length _ _ V)
    | apply isValidPermutation_perm, V ].
Qed.

Lemma stepCP_inverse (p : list Z) (m : Z) :
  isValidPermutation p 8 = true -> In m Pruning.PHASE2_MOVES ->
  stepCP (stepCP p m) (invertIndex m) = p.
Proof.
  intros V Hm. pose proof (isValidPermutation_length _ _ V) as L.
  explode_list p L. cbn in Hm.
  repeat (destruct Hm as [<- | Hm]; [ reflexivity | ]).
  destruct Hm.
Qed.

Lemma cp_entry (k : Z) :
  0 <= k < CP_SIZE ->
  holdsDistance CPPruningTable applyMoveToCP Pruning.PHASE2_MOVES k.
Proof.
  intro Hk. apply holdsDistance_of_entry. unfold CPPruningTable.
  apply (table_entry CP_SIZE applyMoveToCP Pruning.PHASE2_MOVES invertIndex
           permutationToIndex (fun j => indexToPermutation j 8)
           (fun s => isValidPermutation s 8 = true) stepCP).
  - reflexivity.
  - intros j Hj. apply permutationToIndex_indexToPermutation. exact Hj.
  - intros s V. apply (indexToPermutation_permutationToIndex s 8 V).
  - intros j Hj. apply indexToPermutation_valid. exact Hj.
  - intros s V. apply (indexToPermutation_permutationToIndex s 8 V).
  - exact stepCP_valid.
  - intros j m Hj Hm. destruct (phase2_moves_key m Hm) as [key [Hkey _]].
    unfold applyMoveToCP, CP_MOVE_TABLE.
    rewrite (act_closed_form _ _ _ j m key Hj Hkey). reflexivity.
  - exact phase2_moves_inverse.
  - exact stepCP_inverse.
  - intros s V.
    apply (cert_path stepCP Pruning.PHASE2_MOVES (range 8) cpDistances
             (fun s => isValidPermutation s 8 = true) stepCP_valid).
    + apply stateCheck_perms, cp_checked.
    + exact V.
  - exact Hk.
Qed.

(** The permutation of the edges of the U and D layers. *)
Definition stepUDEP (p : list Z) (m : Z) : list Z :=
  let sigma := edgePerm (moveAt m) in
  map (fun i => aget p (aget sigma i)) (range 8).

Definition udepDistances : Trie :=
  Eval vm_compute in
    distances stepUDEP Pruning.PHASE2_MOVES invertIndex (range 8) 25.

Lemma udep_checked :
  forallPerms 8 (range 8)
    (certCheck stepUDEP Pruning.PHASE2_MOVES (range 8) udepDistances) = true.
Proof. vm_compute. reflexivity. Qed.

Lemma stepUDEP_perm (p : list Z) (m : Z) :
  length p = 8%nat -> In m Pruning.PHASE2_MOVES ->
  Permutation (stepUDEP p m) p.
Proof.
  intros L Hm. unfold stepUDEP. cbv zeta.
  rewrite <- (map_map (aget (edgePerm (moveAt m))) (aget p)).
  rewrite <- (map_aget_range8 p L) at 2.
  apply Permutation_map, isValidPermutation_perm.
  cbn in Hm.
  repeat (destruct Hm as [<- | Hm]; [ reflexivity | ]).
  destruct Hm.
Qed.

Lemma stepUDEP_valid (p : list Z) (m : Z) :
  isValidPermutation p 8 = true -> In m Pruning.PHASE2_MOVES ->
  isValidPermutation (stepUDEP p m) 8 = true.
Proof.
  intros V Hm. apply isValidPermutation_complete.
  eapply Permutation_trans;
    [ apply stepUDEP_perm; [ apply (isValidPermutation_length _ _ V) | exact Hm ]
    | apply isValidPermutation_perm, V ].
Qed.

Lemma stepUDEP_inverse (p : list Z) (m : Z) :
  isValidPermutation p 8 = true -> In m Pruning.PHASE2_MOVES ->
  stepUDEP (stepUDEP p m) (invertIndex m) = p.
Proof.
  intros V Hm. pose proof (isValidPermutation_length _ _ V) as L.
  explode_list p L. cbn in Hm.
  repeat (destruct Hm as [<- | Hm]; [ reflexivity | ]).
  destruct Hm.
Qed.

Lemma udep_act_step (j m : Z) :
  0 <= j < UDEP_SIZE -> In m Pruning.PHASE2_MOVES ->
  applyMoveToUDEP j m = permutationToIndex (stepUDEP (indexToPermutation j 8) m).
Proof.
  intros Hj Hm. destruct (phase2_moves_key m Hm) as [key [Hkey _]].
  unfold applyMoveToUDEP, UDEP_MOVE_TABLE.
  rewrite (act_closed_form _ _ _ j m key Hj Hkey).
  pose proof (indexToPermutation_length 8 j Hj) as L.
  unfold getUDEdgePermutation, setUDEdgePermutation, applyMove.
  cbn [ePerm]. f_equal.
  remember (indexToPermutation j 8) as p eqn:Ep. clear Ep.
  explode_list p L. rewrite udep_write. cbn in Hm.
  repeat (destruct Hm as [<- | Hm]; [ reflexivity | ]).
  destruct Hm.
Qed.

Lemma udep_entry (k : Z) :
  0 <= k < UDEP_SIZE ->
  holdsDistance UDEPPruningTable applyMoveToUDEP Pruning.PHASE2_MOVES k.
Proof.
  intro Hk. apply holdsDistance_of_entry. unfold UDEPPruningTable.
  apply (table_entry UDEP_SIZE applyMoveToUDEP Pruning.PHASE2_MOVES
           invertIndex permutationToIndex (fun j => indexToPermutation j 8)
           (fun s => isValidPermutation s 8 = true) stepUDEP).
  - reflexivity.
  - intros j Hj. apply permutationToIndex_indexToPermutation. exact Hj.
  - intros s V. apply (indexToPermutation_permutationToIndex s 8 V).
  - intros j Hj. apply indexToPermutation_valid. exact Hj.
  - intros s V. apply (indexToPermutation_permutationToIndex s 8 V).
  - exact stepUDEP_valid.
  - exact udep_act_step.
  - exact phase2_moves_inverse.
  - exact stepUDEP_inverse.
  - intros s V.
    apply (cert_path stepUDEP Pruning.PHASE2_MOVES (range 8) udepDistances
             (fun s => isValidPermutation s 8 = true) stepUDEP_valid).
    + apply stateCheck_perms, udep_checked.
    + exact V.
  - exact Hk.
Qed.

(** The permutation of the E-slice edges. *)
Definition validEP (p : list Z) : bool := isValidPermutation p 4.

Definition stepEP (p : list Z) (m : Z) : list Z :=
  let sigma := edgePerm (moveAt m) in
  map (fun i => aget p (aget sigma (8 + i) - 8)) (range 4).

Definition epDistances : Trie :=
  Eval vm_compute in
    distances stepEP Pruning.PHASE2_MOVES invertIndex (range 4) 25.

Lemma ep_checked :
  forallPerms 4 (range 4)
    (stateCheck validEP stepEP Pruning.PHASE2_MOVES invertIndex (range 4)
                epDistances) = true.
Proof. vm_compute. reflexivity. Qed.

Lemma ep_all (s : list Z) :
  validEP s = true ->
  stateCheck validEP stepEP Pruning.PHASE2_MOVES invertIndex (range 4)
             epDistances s = true.
Proof. apply stateCheck_perms, ep_checked. Qed.

(** On the 24 values, the move table agrees with the move of the array. *)
Lemma ep_act_step_all :
  forallb (fun j =>
             forallb (fun m =>
                        getESlicePermutation
                          (applyMove (setESlicePermutation solvedCube j)
                                     (moveAt m))
                        =? permutationToIndex
                             (stepEP (indexToPermutation j 4) m))
                     Pruning.PHASE2_MOVES)
          (range 24) = true.
Proof. vm_compute. reflexivity. Qed.

Lemma ep_entry (k : Z) :
  0 <= k < EP_SIZE ->
  holdsDistance EPPruningTable applyMoveToEP Pruning.PHASE2_MOVES k.
Proof.
  intro Hk. apply holdsDistance_of_entry. unfold EPPruningTable.
  apply (table_entry EP_SIZE applyMoveToEP Pruning.PHASE2_MOVES
           invertIndex permutationToIndex (fun j => indexToPermutation j 4)
           (fun s => validEP s = true) stepEP).
  - reflexivity.
  - intros j Hj. apply permutationToIndex_indexToPermutation. exact Hj.
  - intros s V. apply (indexToPermutation_permutationToIndex s 4 V).
  - intros j Hj. apply indexToPermutation_valid. exact Hj.
  - intros s V. apply (indexToPermutation_permutationToIndex s 4 V).
  - apply (checked_step_valid _ _ _ _ _ _ ep_all).
  - intros j m Hj Hm. destruct (phase2_moves_key m Hm) as [key [Hkey _]].
    unfold applyMoveToEP, EP_MOVE_TABLE.
    rewrite (act_closed_form _ _ _ j m key Hj Hkey).
    pose proof (forallb_range _ 24 ep_act_step_all j Hj) as C.
    cbv beta in C. rewrite forallb_forall in C.
    apply Z.eqb_eq, C, Hm.
  - exact phase2_moves_inverse.
  - apply (checked_step_inverse _ _ _ _ _ _ ep_all).
  - apply (checked_near _ _ _ _ _ _ ep_all).
  - exact Hk.
Qed.

End PermutationTables.

(* ----------------------------------------------------------------- *)



(* ================================================================= *)
(** * Part III: further properties of the code *)
(* ================================================================= *)

(** ** core/cubie.ts, core/moves.ts and core/notation.ts: how the moves
    compose *)

Section MoveAlgebra.

(** Equalities between cubes moved by given tables, for a cube given
    element by element. *)
Ltac moved_cubes_equal :=
  repeat match goal with
  | |- context [ALL_MOVES ?k] =>
      let m := eval vm_compute in (ALL_MOVES k) in
      change (ALL_MOVES k) with m
  end;
  cbv - [Z.rem Z.add Z.lxor];
  f_equal; repeat apply cons_eq; try reflexivity;
  cases_small; reflexivity.

Ltac explode_cube c Hwf :=
  destruct c as [cp co ep eo];
  apply wellFormed_inv in Hwf; simpl in Hwf;
  let Lcp := fresh "Lcp" in let Lco := fresh "Lco" in
  let Lep := fresh "Lep" in let Leo := fresh "Leo" in
  let Rco := fresh "Rco" in let Reo := fresh "Reo" in
  destruct Hwf as (Lcp & Lco & Lep & Leo & Rco & Reo);
  explode_list cp Lcp; explode_list co Lco;
  explode_list ep Lep; explode_list eo Leo;
  clear Lcp Lco Lep Leo;
  split_ranges Rco; split_ranges Reo.

(** The move of the inverted key undoes the move. *)
Lemma applyMove_undo (c : Cube) (key : MoveKey) :
  wellFormed c = true ->
  applyMove (applyMove c (ALL_MOVES key)) (ALL_MOVES (invertMoveKey key)) = c.
Proof.
  intro Hwf. explode_cube c Hwf.
  destruct key; cbn [invertMoveKey]; moved_cubes_equal.
Qed.

(** [turns face k c]: [k] quarter turns of a face. *)
Definition turns (face : FaceLetter) (k : nat) (c : Cube) : Cube :=
  Nat.iter k (fun x => applyMove x (ALL_MOVES (faceKey face))) c.

(** The half turn of a face is its quarter turn twice, the
    counterclockwise turn is the quarter turn three times. *)
Lemma face_powers (c : Cube) (face : FaceLetter) :
  wellFormed c = true ->
  applyMove c (ALL_MOVES (faceKey2 face)) = turns face 2 c
  /\ applyMove c (ALL_MOVES (faceKeyp face)) = turns face 3 c.
Proof.
  intro Hwf. explode_cube c Hwf. unfold turns, Nat.iter. cbn [nat_rect].
  destruct face; cbn [faceKey faceKey2 faceKeyp];
    (split; moved_cubes_equal).
Qed.

Lemma turns_add (face : FaceLetter) (a b : nat) (c : Cube) :
  turns face (a + b) c = turns face b (turns face a c).
Proof.
  unfold turns. rewrite Nat.add_comm. apply Nat.iter_add.
Qed.

Lemma turns_wellFormed (face : FaceLetter) (k : nat) (c : Cube) :
  wellFormed c = true -> wellFormed (turns face k c) = true.
Proof.
  intro W. induction k as [| k IH]; [ exact W | ].
  change (turns face (S k) c)
    with (applyMove (turns face k c) (ALL_MOVES (faceKey face))).
  apply wellFormed_applyMove;
    [ exact IH | apply moveShape_ALL_MOVES ].
Qed.

Lemma turns_4 (face : FaceLetter) (c : Cube) :
  wellFormed c = true -> turns face 4 c = c.
Proof.
  intro W. unfold turns, Nat.iter. cbn [nat_rect].
  set (q := ALL_MOVES (faceKey face)).
  assert (W1 : wellFormed (applyMove c q) = true)
    by (apply wellFormed_applyMove; [ exact W | apply moveShape_ALL_MOVES ]).
  destruct (face_powers (applyMove c q) face W1) as [_ P3].
  unfold turns, Nat.iter in P3. cbn [nat_rect] in P3. fold q in P3.
  rewrite <- P3.
  replace (faceKeyp face) with (invertMoveKey (faceKey face))
    by (destruct face; reflexivity).
  apply applyMove_undo, W.
Qed.

Lemma turns_mod4 (face : FaceLetter) (k : nat) (c : Cube) :
  wellFormed c = true -> turns face k c = turns face (k mod 4) c.
Proof.
  intro W. rewrite (Nat.div_mod_eq k 4) at 1.
  generalize (k / 4)%nat as d. generalize (k mod 4)%nat as r. intros r d.
  induction d as [| d IH]; [ now rewrite Nat.mul_0_r | ].
  replace (4 * S d + r)%nat with (4 + (4 * d + r))%nat by lia.
  rewrite turns_add, turns_4 by exact W. exact IH.
Qed.

Lemma move_turns (c : Cube) (m : MoveKey) :
  wellFormed c = true ->
  applyMove c (ALL_MOVES m)
  = turns (getFaceFromMove m) (Z.to_nat (getMoveQuarterTurns m)) c.
Proof.
  intro W.
  destruct m; cbn [getFaceFromMove getMoveQuarterTurns];
    first [ change (Z.to_nat 1) with 1%nat; reflexivity
          | change (Z.to_nat 2) with 2%nat;
            match goal with
            | |- _ = turns ?f _ _ => exact (proj1 (face_powers c f W))
            end
          | change (Z.to_nat 3) with 3%nat;
            match goal with
            | |- _ = turns ?f _ _ => exact (proj2 (face_powers c f W))
            end ].
Qed.

(** Two moves of one face, combined. *)
Lemma combine_turns (c : Cube) (m1 m2 : MoveKey) :
  wellFormed c = true -> getFaceFromMove m1 = getFaceFromMove m2 ->
  match combineSameFaceMoves m1 m2 with
  | None => False
  | Some None => applyMove (applyMove c (ALL_MOVES m1)) (ALL_MOVES m2) = c
  | Some (Some k) =>
      applyMove (applyMove c (ALL_MOVES m1)) (ALL_MOVES m2)
      = applyMove c (ALL_MOVES k)
      /\ getFaceFromMove k = getFaceFromMove m1
  end.
Proof.
  intros W E.
  assert (W1 : wellFormed (applyMove c (ALL_MOVES m1)) = true)
    by (apply wellFormed_applyMove; [ exact W | apply moveShape_ALL_MOVES ]).
  rewrite (move_turns _ m2 W1), (move_turns c m1 W), <- E, <- turns_add.
  rewrite turns_mod4 by exact W.
  unfold combineSameFaceMoves.
  destruct m1, m2; try discriminate E;
    cbn [getFaceFromMove getMoveQuarterTurns quarterTurnsToMove
         faceKey faceKey2 faceKeyp];
    match goal with
    | |- context [Z.rem ?a 4] =>
        let r := eval vm_compute in (Z.rem a 4) in
        change (Z.rem a 4) with r
    end;
    match goal with
    | |- context [Nat.modulo ?a 4] =>
        let r := eval vm_compute in (Nat.modulo a 4) in
        change (Nat.modulo a 4) with r
    end;
    cbn [Z.eqb Pos.eqb];
    first [ reflexivity
          | split; [ | reflexivity ];
            first [ reflexivity
                  | symmetry;
                    match goal with
                    | |- _ = turns ?f 2%nat _ =>
                        exact (proj1 (face_powers c f W))
                    | |- _ = turns ?f 3%nat _ =>
                        exact (proj2 (face_powers c f W))
                    end ] ].
Qed.

(** *** [simplifyMoveSequence] *)

(** No two neighbours of a sequence are moves of the same face. *)
Fixpoint noRepeatedFace (moves : list MoveKey) : bool :=
  match moves with
  | a :: (b :: _) as rest =>
      negb (faceEqb (getFaceFromMove a) (getFaceFromMove b))
      && noRepeatedFace rest
  | _ => true
  end.

Lemma faceEqb_eq (a b : FaceLetter) : faceEqb a b = true <-> a = b.
Proof. destruct a, b; cbn; split; intro H; try reflexivity; discriminate. Qed.

Lemma noRepeatedFace_tail (a : MoveKey) (l : list MoveKey) :
  noRepeatedFace (a :: l) = true -> noRepeatedFace l = true.
Proof.
  destruct l as [| b l]; [ reflexivity | ].
  cbn [noRepeatedFace]. intro H. now apply andb_true_iff in H as [_ H].
Qed.

Lemma absorbMove_spec (result : list MoveKey) :
  forall (currentMove : MoveKey) (c : Cube),
    wellFormed c = true -> noRepeatedFace result = true ->
    exists result',
      absorbMove result (getFaceFromMove currentMove) currentMove
      = Some result'
      /\ noRepeatedFace result' = true
      /\ (length result' <= S (length result))%nat
      /\ applyMoveSequence c (rev result')
         = applyMove (applyMoveSequence c (rev result))
                     (ALL_MOVES currentMove).
Proof.
  induction result as [| lastMove rest IH]; intros currentMove c W N.
  - exists [currentMove]. repeat split; auto.
  - cbn [absorbMove].
    destruct (faceEqb (getFaceFromMove lastMove)
                      (getFaceFromMove currentMove)) eqn:E.
    + apply faceEqb_eq in E.
      assert (W1 : wellFormed (applyMoveSequence c (rev rest)) = true)
        by (apply wellFormed_applyMoveSequence, W).
      pose proof (combine_turns _ lastMove currentMove W1 E) as C.
      assert (S1 : applyMoveSequence c (rev (lastMove :: rest))
                   = applyMove (applyMoveSequence c (rev rest))
                               (ALL_MOVES lastMove)).
      { cbn [rev]. rewrite applyMoveSequence_app. reflexivity. }
      rewrite S1.
      destruct (combineSameFaceMoves lastMove currentMove) as [[k |] |];
        [ | | destruct C ].
      * destruct C as [C Fk].
        destruct (IH k c W (noRepeatedFace_tail _ _ N)) as (r & A1 & A2 & A3 & A4).
        exists r. rewrite <- E, <- Fk. split; [ exact A1 | ].
        split; [ exact A2 | ]. split; [ cbn [length]; lia | ].
        rewrite A4. symmetry. exact C.
      * exists rest. split; [ reflexivity | ].
        split; [ apply (noRepeatedFace_tail _ _ N) | ].
        split; [ cbn [length]; lia | ]. symmetry. exact C.
    + exists (currentMove :: lastMove :: rest). split; [ reflexivity | ].
      split.
      * cbn [noRepeatedFace].
        replace (faceEqb (getFaceFromMove currentMove)
                         (getFaceFromMove lastMove)) with false.
        -- exact N.
        -- destruct (getFaceFromMove currentMove), (getFaceFromMove lastMove);
             cbn in *; congruence.
      * split; [ cbn [length]; lia | ].
        cbn [rev]. rewrite !applyMoveSequence_app. reflexivity.
Qed.

Lemma noRepeatedFace_rev (l : list MoveKey) :
  noRepeatedFace (rev l) = noRepeatedFace l.
Proof.
  assert (A : forall a l, noRepeatedFace (l ++ [a])
              = noRepeatedFace l
                && match rev l with
                   | b :: _ => negb (faceEqb (getFaceFromMove b)
                                             (getFaceFromMove a))
                   | [] => true
                   end).
  { intros a l0. induction l0 as [| x l0 IH]; [ reflexivity | ].
    destruct l0 as [| y l0].
    - cbn. now rewrite andb_true_r.
    - change ((x :: y :: l0) ++ [a]) with (x :: (y :: l0) ++ [a]).
      change (noRepeatedFace (x :: (y :: l0) ++ [a]))
        with (negb (faceEqb (getFaceFromMove x) (getFaceFromMove y))
              && noRepeatedFace ((y :: l0) ++ [a])).
      rewrite IH. cbn [noRepeatedFace]. rewrite <- andb_assoc. f_equal. f_equal.
      cbn [rev]. destruct (rev l0 ++ [y]) eqn:R.
      + destruct (rev l0); discriminate.
      + reflexivity. }
  induction l as [| x l IH]; [ reflexivity | ].
  cbn [rev]. rewrite A, IH, rev_involutive.
  destruct l as [| y l]; [ reflexivity | ].
  cbn [noRepeatedFace]. rewrite andb_comm. f_equal.
  destruct (getFaceFromMove x), (getFaceFromMove y); reflexivity.
Qed.

Lemma simplify_fold (moves : list MoveKey) :
  forall (result : list MoveKey) (c : Cube),
    wellFormed c = true -> noRepeatedFace result = true ->
    exists result',
      fold_left (fun acc move =>
                   match acc with
                   | None => None
                   | Some r => absorbMove r (getFaceFromMove move) move
                   end)
                moves (Some result) = Some result'
      /\ noRepeatedFace result' = true
      /\ (length result' <= length result + length moves)%nat
      /\ applyMoveSequence c (rev result')
         = applyMoveSequence (applyMoveSequence c (rev result)) moves.
Proof.
  induction moves as [| m moves IH]; intros result c W N.
  - exists result. repeat split; auto. cbn [length]. lia.
  - cbn [fold_left].
    destruct (absorbMove_spec result m c W N) as (r & A1 & A2 & A3 & A4).
    rewrite A1.
    destruct (IH r c W A2) as (r' & B1 & B2 & B3 & B4).
    exists r'. split; [ exact B1 | ]. split; [ exact B2 | ].
    split; [ cbn [length]; lia | ]. rewrite B4, A4. reflexivity.
Qed.

(** *** [composeMoves] *)

Definition moveWellFormed (m : MoveTable) : bool :=
  Nat.eqb (length (cornerPerm m)) 8 && inRange 0 7 (cornerPerm m) &&
  Nat.eqb (length (cornerOriDelta m)) 8 && inRange 0 2 (cornerOriDelta m) &&
  Nat.eqb (length (edgePerm m)) 12 && inRange 0 11 (edgePerm m) &&
  Nat.eqb (length (edgeOriDelta m)) 12 && inRange 0 1 (edgeOriDelta m).

Lemma moveWellFormed_inv (m : MoveTable) :
  moveWellFormed m = true ->
  inRange 0 7 (cornerPerm m) = true /\ inRange 0 2 (cornerOriDelta m) = true
  /\ inRange 0 11 (edgePerm m) = true /\ inRange 0 1 (edgeOriDelta m) = true.
Proof.
  unfold moveWellFormed. rewrite !andb_true_iff. tauto.
Qed.

Lemma rem3_regroup (x a b : Z) :
  0 <= x -> 0 <= a -> 0 <= b ->
  Z.rem (x + Z.rem (a + b) 3) 3 = Z.rem (Z.rem (x + b) 3 + a) 3.
Proof.
  intros Hx Ha Hb.
  pose proof (Z.rem_bound_pos (a + b) 3).
  pose proof (Z.rem_bound_pos (x + b) 3).
  rewrite !Z.rem_mod_nonneg by lia.
  rewrite Z.add_mod_idemp_r, Z.add_mod_idemp_l by lia.
  f_equal. lia.
Qed.

Lemma composeMoves_applyMove (c : Cube) (m1 m2 : MoveTable) :
  wellFormed c = true -> moveWellFormed m1 = true ->
  moveWellFormed m2 = true ->
  applyMove c (composeMoves m1 m2) = applyMove (applyMove c m2) m1.
Proof.
  intros W W1 W2.
  destruct (moveWellFormed_inv m1 W1) as (P1 & D1 & Q1 & E1).
  destruct (moveWellFormed_inv m2 W2) as (P2 & D2 & Q2 & E2).
  destruct (wellFormed_inv c W) as (_ & _ & _ & _ & Rco & Reo).
  unfold applyMove, composeMoves.
  cbn [cPerm cOri ePerm eOri cornerPerm cornerOriDelta edgePerm edgeOriDelta].
  f_equal; apply map_ext_in; intros i Hi; apply In_range in Hi.
  - rewrite (aget_map_range _ 8 i) by exact Hi.
    rewrite (aget_map_range _ 8 (aget (cornerPerm m1) i))
      by (pose proof (aget_inRange 0 7 _ i P1); cbn; lia).
    reflexivity.
  - rewrite !(aget_map_range _ 8 i) by exact Hi.
    rewrite (aget_map_range _ 8 (aget (cornerPerm m1) i))
      by (pose proof (aget_inRange 0 7 _ i P1); cbn; lia).
    apply rem3_regroup.
    + apply (aget_inRange 0 2); [ exact Rco | lia ].
    + apply (aget_inRange 0 2); [ exact D1 | lia ].
    + apply (aget_inRange 0 2); [ exact D2 | lia ].
  - rewrite (aget_map_range _ 12 i) by exact Hi.
    rewrite (aget_map_range _ 12 (aget (edgePerm m1) i))
      by (pose proof (aget_inRange 0 11 _ i Q1); cbn; lia).
    reflexivity.
  - rewrite !(aget_map_range _ 12 i) by exact Hi.
    rewrite (aget_map_range _ 12 (aget (edgePerm m1) i))
      by (pose proof (aget_inRange 0 11 _ i Q1); cbn; lia).
    rewrite (Z.lxor_comm (aget (edgeOriDelta m1) i)), Z.lxor_assoc.
    reflexivity.
Qed.

Lemma moveWellFormed_ALL_MOVES (key : MoveKey) :
  moveWellFormed (ALL_MOVES key) = true.
Proof. destruct key; reflexivity. Qed.

(** *** Sequences and their inverses *)

Lemma invertMoveKey_involutive (key : MoveKey) :
  invertMoveKey (invertMoveKey key) = key.
Proof. destruct key; reflexivity. Qed.

Lemma invertMoveSequence_involutive (moves : list MoveKey) :
  invertMoveSequence (invertMoveSequence moves) = moves.
Proof.
  unfold invertMoveSequence. rewrite <- map_rev, rev_involutive, map_map.
  rewrite <- (map_id moves) at 2. apply map_ext, invertMoveKey_involutive.
Qed.

Lemma applyMoveSequence_undo (moves : list MoveKey) :
  forall c, wellFormed c = true ->
    applyMoveSequence (applyMoveSequence c moves) (invertMoveSequence moves)
    = c.
Proof.
  induction moves as [| m moves IH]; intros c W; [ reflexivity | ].
  unfold invertMoveSequence. cbn [rev]. rewrite map_app. cbn [map].
  rewrite applyMoveSequence_app.
  change (applyMoveSequence c (m :: moves))
    with (applyMoveSequence (applyMove c (ALL_MOVES m)) moves).
  fold (invertMoveSequence moves).
  rewrite IH by (apply wellFormed_applyMove;
                 [ exact W | apply moveShape_ALL_MOVES ]).
  apply applyMove_undo, W.
Qed.

End MoveAlgebra.

(** ** solver/kociemba/ida.ts: what a search returns *)

Section SearchResults.

Variable g : Globals.

Definition move1 (c : Phase1Coord) (m : Z) : Phase1Coord :=
  {| eo := gMoveEO g (eo c) m; co := gMoveCO g (co c) m;
     eslice := gMoveESlice g (eslice c) m |}.

Definition move2 (c : Phase2Coord) (m : Z) : Phase2Coord :=
  {| cp := gMoveCP g (cp c) m; udep := gMoveUDEP g (udep c) m;
     ep := gMoveEP g (ep c) m |}.

Definition goal1 (c : Phase1Coord) : bool := (eo c =? 0) && (eslice c =? 0).

Definition goal2 (c : Phase2Coord) : bool :=
  (cp c =? 0) && (udep c =? 0) && (ep c =? 0).

(** No move of a sequence is on the face of the move before it. *)
Fixpoint facesChange (lastMove : Z) (sol : list Z) : bool :=
  match sol with
  | [] => true
  | m :: rest =>
      negb (shouldSkipMove m lastMove []) && facesChange m rest
  end.

Lemma shouldSkipMove_allowed (m last : Z) (a b : list Z) :
  shouldSkipMove m last a = shouldSkipMove m last b.
Proof. reflexivity. Qed.

Definition found {C : Type} (moveC : C -> Z -> C) (goal : C -> bool)
    (allowed : list Z) (coord : C) (depth currentDepth lastMove : Z)
    (sol : list Z) : Prop :=
  Forall (fun m => In m allowed) sol
  /\ goal (fold_left moveC sol coord) = true
  /\ facesChange lastMove sol = true
  /\ (sol <> [] -> currentDepth + Z.of_nat (length sol) <= depth).

Lemma searchPhase1Depth_found (fuel : nat) :
  forall coord depth currentDepth lastMove sol n,
    searchPhase1Depth g fuel coord depth currentDepth lastMove
    = (Some sol, n) ->
    found move1 goal1 IDA.PHASE1_MOVES coord depth currentDepth lastMove sol.
Proof.
  induction fuel as [| fuel IH]; intros coord depth cur last sol n H.
  - cbn [searchPhase1Depth] in H.
    destruct ((eo coord =? 0) && (eslice coord =? 0)) eqn:G.
    + injection H as <- _. repeat split; auto. intro X; now destruct X.
    + destruct (cur + phase1Heuristic g (eo coord) (co coord) (eslice coord)
                >? depth); [ discriminate | ].
      destruct (cur >=? depth); discriminate.
  - cbn [searchPhase1Depth] in H.
    destruct ((eo coord =? 0) && (eslice coord =? 0)) eqn:G.
    + injection H as <- _. repeat split; auto. intro X; now destruct X.
    + destruct (cur + phase1Heuristic g (eo coord) (co coord) (eslice coord)
                >? depth); [ discriminate | ].
      destruct (cur >=? depth) eqn:D; [ discriminate | ].
      rewrite Z.geb_leb in D. apply Z.leb_gt in D.
      match type of H with
      | ?f IDA.PHASE1_MOVES 1 = _ =>
          cut (forall moves acc, incl moves IDA.PHASE1_MOVES ->
                 f moves acc = (Some sol, n) ->
                 found move1 goal1 IDA.PHASE1_MOVES coord depth cur last sol);
            [ intro AUX; exact (AUX _ _ (incl_refl _) H) | clear H ]
      end.
      intros moves.
      induction moves as [| m moves IHm]; intros acc A H.
      * lazy beta iota fix in H. discriminate.
      * lazy beta iota zeta fix in H.
        destruct (shouldSkipMove m last IDA.PHASE1_MOVES) eqn:K.
        -- apply (IHm acc (fun x Hx => A x (or_intror Hx)) H).
        -- destruct (searchPhase1Depth g fuel
                       {| eo := gMoveEO g (eo coord) m;
                          co := gMoveCO g (co coord) m;
                          eslice := gMoveESlice g (eslice coord) m |}
                       depth (cur + 1) m) as [[s |] k] eqn:R.
           ++ cbn [fst snd] in H. injection H as <- _.
              destruct (IH _ _ _ _ _ _ R) as (F1 & F2 & F3 & F4).
              split; [ constructor; [ apply A; now left | exact F1 ] | ].
              split; [ exact F2 | ].
              split; [ cbn [facesChange];
                       rewrite (shouldSkipMove_allowed m last [] IDA.PHASE1_MOVES), K;
                       exact F3 | ].
              intros _. cbn [length].
              destruct s as [| x s]; [ cbn [length]; lia | ].
              specialize (F4 ltac:(discriminate)). cbn [length] in *. lia.
           ++ cbn [fst snd] in H.
              apply (IHm _ (fun x Hx => A x (or_intror Hx)) H).
Qed.


Lemma searchPhase2Depth_found (fuel : nat) :
  forall coord depth currentDepth lastMove sol n,
    searchPhase2Depth g fuel coord depth currentDepth lastMove
    = (Some sol, n) ->
    found move2 goal2 IDA.PHASE2_MOVES coord depth currentDepth lastMove sol.
Proof.
  induction fuel as [| fuel IH]; intros coord depth cur last sol n H.
  - cbn [searchPhase2Depth] in H.
    destruct ((cp coord =? 0) && (udep coord =? 0) && (ep coord =? 0)) eqn:G.
    + injection H as <- _. repeat split; auto. intro X; now destruct X.
    + destruct (cur + phase2Heuristic g (cp coord) (udep coord) (ep coord)
                >? depth); [ discriminate | ].
      destruct (cur >=? depth); discriminate.
  - cbn [searchPhase2Depth] in H.
    destruct ((cp coord =? 0) && (udep coord =? 0) && (ep coord =? 0)) eqn:G.
    + injection H as <- _. repeat split; auto. intro X; now destruct X.
    + destruct (cur + phase2Heuristic g (cp coord) (udep coord) (ep coord)
                >? depth); [ discriminate | ].
      destruct (cur >=? depth) eqn:D; [ discriminate | ].
      rewrite Z.geb_leb in D. apply Z.leb_gt in D.
      match type of H with
      | ?f IDA.PHASE2_MOVES 1 = _ =>
          cut (forall moves acc, incl moves IDA.PHASE2_MOVES ->
                 f moves acc = (Some sol, n) ->
                 found move2 goal2 IDA.PHASE2_MOVES coord depth cur last sol);
            [ intro AUX; exact (AUX _ _ (incl_refl _) H) | clear H ]
      end.
      intros moves.
      induction moves as [| m moves IHm]; intros acc A H.
      * lazy beta iota fix in H. discriminate.
      * lazy beta iota zeta fix in H.
        destruct (shouldSkipMove m last IDA.PHASE2_MOVES) eqn:K.
        -- apply (IHm acc (fun x Hx => A x (or_intror Hx)) H).
        -- destruct (searchPhase2Depth g fuel
                       {| cp := gMoveCP g (cp coord) m;
                          udep := gMoveUDEP g (udep coord) m;
                          ep := gMoveEP g (ep coord) m |}
                       depth (cur + 1) m) as [[s |] k] eqn:R.
           ++ cbn [fst snd] in H. injection H as <- _.
              destruct (IH _ _ _ _ _ _ R) as (F1 & F2 & F3 & F4).
              split; [ constructor; [ apply A; now left | exact F1 ] | ].
              split; [ exact F2 | ].
              split; [ cbn [facesChange];
                       rewrite (shouldSkipMove_allowed m last [] IDA.PHASE2_MOVES), K;
                       exact F3 | ].
              intros _. cbn [length].
              destruct s as [| x s]; [ cbn [length]; lia | ].
              specialize (F4 ltac:(discriminate)). cbn [length] in *. lia.
           ++ cbn [fst snd] in H.
              apply (IHm _ (fun x Hx => A x (or_intror Hx)) H).
Qed.

(** The iterative deepening. *)
Lemma In_depthsFrom (first maxDepth d : Z) :
  In d (depthsFrom first maxDepth) <-> first <= d <= maxDepth.
Proof.
  unfold depthsFrom. rewrite in_map_iff. split.
  - intros [k [<- Hk]]. apply in_seq in Hk. lia.
  - intro H. exists (Z.to_nat (d - first)). split; [ lia | ].
    apply in_seq. lia.
Qed.

Lemma deepen_found (searchDepth : Z -> option (list Z) * Z)
    (depths : list Z) :
  forall acc sol d n,
    deepen searchDepth depths acc = Some (sol, d, n) ->
    In d depths /\ fst (searchDepth d) = Some sol.
Proof.
  induction depths as [| x depths IH]; intros acc sol d n H; [ discriminate | ].
  cbn [deepen] in H.
  destruct (fst (searchDepth x)) as [s |] eqn:E.
  - injection H as <- <- _. split; [ now left | exact E ].
  - destruct (IH _ _ _ _ H) as [A B]. split; [ now right | exact B ].
Qed.

Lemma deepen_nil (searchDepth : Z -> option (list Z) * Z) (acc : Z) :
  deepen searchDepth [] acc = None.
Proof. reflexivity. Qed.

Lemma depthsFrom_empty (first maxDepth : Z) :
  maxDepth < first -> depthsFrom first maxDepth = [].
Proof.
  intro H. unfold depthsFrom.
  replace (Z.to_nat (maxDepth - first + 1)) with 0%nat by lia. reflexivity.
Qed.

Lemma searchPhase1Core_found (start : Phase1Coord) (maxDepth : Z)
    (sol : list Z) (d n : Z) :
  searchPhase1Core g start maxDepth = Some (sol, d, n) ->
  (goal1 start = true /\ sol = [] /\ d = 0 /\ n = 0)
  \/ (goal1 start = false
      /\ Z.max 1 (phase1Heuristic g (eo start) (co start) (eslice start))
         <= d <= maxDepth
      /\ sol <> []
      /\ found move1 goal1 IDA.PHASE1_MOVES start d 0 (-1) sol).
Proof.
  unfold searchPhase1Core. fold (goal1 start).
  destruct (goal1 start) eqn:G; intro H.
  - injection H as <- <- <-. left. auto.
  - right. cbv zeta in H. apply deepen_found in H as [A B].
    apply In_depthsFrom in A. split; [ reflexivity | ]. split; [ exact A | ].
    destruct (searchPhase1Depth g (Z.to_nat d) start d 0 (-1)) as [s k] eqn:R.
    cbn [fst] in B. subst s.
    pose proof (searchPhase1Depth_found _ _ _ _ _ _ _ R) as F.
    split; [ | exact F ].
    intros ->. destruct F as (_ & F2 & _). cbn [fold_left] in F2. congruence.
Qed.

Lemma searchPhase2Core_found (start : Phase2Coord) (maxDepth : Z)
    (sol : list Z) (d n : Z) :
  searchPhase2Core g start maxDepth = Some (sol, d, n) ->
  (goal2 start = true /\ sol = [] /\ d = 0 /\ n = 0)
  \/ (goal2 start = false
      /\ Z.max 1 (phase2Heuristic g (cp start) (udep start) (ep start))
         <= d <= maxDepth
      /\ sol <> []
      /\ found move2 goal2 IDA.PHASE2_MOVES start d 0 (-1) sol).
Proof.
  unfold searchPhase2Core. fold (goal2 start).
  destruct (goal2 start) eqn:G; intro H.
  - injection H as <- <- <-. left. auto.
  - right. cbv zeta in H. apply deepen_found in H as [A B].
    apply In_depthsFrom in A. split; [ reflexivity | ]. split; [ exact A | ].
    destruct (searchPhase2Depth g (Z.to_nat d) start d 0 (-1)) as [s k] eqn:R.
    cbn [fst] in B. subst s.
    pose proof (searchPhase2Depth_found _ _ _ _ _ _ _ R) as F.
    split; [ | exact F ].
    intros ->. destruct F as (_ & F2 & _). cbn [fold_left] in F2. congruence.
Qed.

Lemma searchPhase1Core_short (start : Phase1Coord) (maxDepth : Z) :
  goal1 start = false ->
  maxDepth < Z.max 1 (phase1Heuristic g (eo start) (co start) (eslice start)) ->
  searchPhase1Core g start maxDepth = None.
Proof.
  intros G H. unfold searchPhase1Core. fold (goal1 start). rewrite G.
  cbv zeta. now rewrite depthsFrom_empty.
Qed.

Lemma searchPhase2Core_short (start : Phase2Coord) (maxDepth : Z) :
  goal2 start = false ->
  maxDepth < Z.max 1 (phase2Heuristic g (cp start) (udep start) (ep start)) ->
  searchPhase2Core g start maxDepth = None.
Proof.
  intros G H. unfold searchPhase2Core. fold (goal2 start). rewrite G.
  cbv zeta. now rewrite depthsFrom_empty.
Qed.

End SearchResults.

(** ** solver/kociemba/solver.ts: the shape of a result *)

Section SolveShape.

Variable g : Globals.
Variable config : SolverConfig.

Definition phase2Keys : list MoveKey :=
  [U; U2; Up; D; D2; Dp; R2; L2; F2; B2].

Lemma moveIndicesToKeys_phase2 (sol : list Z) :
  Forall (fun m => In m IDA.PHASE2_MOVES) sol ->
  Forall (fun key => In key phase2Keys) (moveIndicesToKeys sol).
Proof.
  intro F. unfold moveIndicesToKeys. apply Forall_forall. intros key Hk.
  apply in_map_iff in Hk as [m [<- Hm]].
  rewrite Forall_forall in F. specialize (F m Hm). cbn in F.
  repeat (destruct F as [<- | F]; [ cbn; tauto | ]). destruct F.
Qed.

Lemma moveIndicesToKeys_length (sol : list Z) :
  length (moveIndicesToKeys sol) = length sol.
Proof. apply length_map. Qed.

Lemma found_length {C : Type} (moveC : C -> Z -> C) (goal : C -> bool)
    (allowed : list Z) (coord : C) (d : Z) (sol : list Z) :
  found moveC goal allowed coord d 0 (-1) sol -> 0 <= d ->
  Z.of_nat (length sol) <= d.
Proof.
  intros (_ & _ & _ & H) Hd. destruct sol as [| x sol]; [ cbn; lia | ].
  specialize (H ltac:(discriminate)). lia.
Qed.

Lemma phase1Seq_length (c : Cube) (p1 : list MoveKey) :
  phase1Seq g config c = Some p1 ->
  Z.of_nat (length p1) <= Z.max 0 (maxPhase1Depth config).
Proof.
  unfold phase1Seq. destruct (Coordinates.isInG1 c).
  - intros [= <-]. cbn. lia.
  - destruct (searchPhase1Core g _ _) as [[[sol d] n] |] eqn:E;
      [ | discriminate ].
    intros [= <-]. rewrite moveIndicesToKeys_length.
    apply searchPhase1Core_found in E as [(_ & -> & _) | (_ & B & _ & F)].
    + cbn. lia.
    + pose proof (found_length _ _ _ _ _ _ F ltac:(lia)). lia.
Qed.

Lemma phase2Seq_shape (c : Cube) (p2 : list MoveKey) :
  phase2Seq g config c = Some p2 ->
  Z.of_nat (length p2) <= Z.max 0 (maxPhase2Depth config)
  /\ Forall (fun key => In key phase2Keys) p2.
Proof.
  unfold phase2Seq. destruct (isSolved c).
  - intros [= <-]. split; [ cbn; lia | constructor ].
  - destruct (searchPhase2Core g _ _) as [[[sol d] n] |] eqn:E;
      [ | discriminate ].
    intros [= <-]. rewrite moveIndicesToKeys_length.
    apply searchPhase2Core_found in E as [(_ & -> & _) | (_ & B & _ & F)].
    + split; [ cbn; lia | constructor ].
    + split.
      * pose proof (found_length _ _ _ _ _ _ F ltac:(lia)). lia.
      * apply moveIndicesToKeys_phase2. apply F.
Qed.

(** What every result of [solve] looks like. *)
Lemma outcome_shape (s : Solution) (c : Cube) :
  outcome s = solveOutcome g config c ->
  (success s = true <-> error s = None)
  /\ scramble s = invertMoveSequence (moves s)
  /\ (moves s = [] \/ moves s = phase1Moves s ++ phase2Moves s)
  /\ (success s = true -> moves s = phase1Moves s ++ phase2Moves s)
  /\ Z.of_nat (length (phase1Moves s)) <= Z.max 0 (maxPhase1Depth config)
  /\ Z.of_nat (length (phase2Moves s)) <= Z.max 0 (maxPhase2Depth config)
  /\ Forall (fun key => In key phase2Keys) (phase2Moves s).
Proof.
  unfold outcome, solveOutcome, failure. intro H.
  destruct (isSolved c).
  { injection H as -> -> -> -> -> ->.
    repeat split; auto; try (cbn; lia). }
  destruct (phase1Seq g config c) as [p1 |] eqn:E1.
  2: { injection H as -> -> -> -> -> ->.
       repeat split; auto; try discriminate; try (cbn; lia). }
  cbv zeta in H.
  pose proof (phase1Seq_length c p1 E1) as L1.
  destruct (negb (Coordinates.isInG1 (applyMoveSequence c p1))).
  { injection H as -> -> -> -> -> ->.
    repeat split; auto; try discriminate; try (cbn; lia). }
  destruct (phase2Seq g config (applyMoveSequence c p1)) as [p2 |] eqn:E2.
  2: { injection H as -> -> -> -> -> ->.
       repeat split; auto; try discriminate; try (cbn; lia). }
  destruct (phase2Seq_shape _ p2 E2) as [L2 F2].
  injection H as -> -> -> -> -> ->.
  destruct (isSolved (applyMoveSequence c (p1 ++ p2)));
    repeat split; auto; try discriminate.
Qed.

(** The scramble of a successful result leads from the solved cube to the
    cube that was given. *)
Lemma outcome_scramble (s : Solution) (c : Cube) :
  wellFormed c = true ->
  outcome s = solveOutcome g config c -> success s = true ->
  applyMoveSequence solvedCube (scramble s) = c.
Proof.
  intros W H S.
  pose proof (outcome_success g config s c H S) as A.
  destruct (outcome_shape s c H) as (_ & -> & _).
  rewrite <- A. apply applyMoveSequence_undo, W.
Qed.

(** [solveCubes]: the results are those of [solve] on each cube, in
    order; the cubes are as they were. *)
Lemma spec_solveEach (cubes : list Ref) :
  forall w, Forall (fun r => (r < length (heap w))%nat) cubes ->
    spec (solveEach g config cubes) w
         (fun results _ =>
            map outcome results
            = map (fun r => solveOutcome g config (nth r (heap w) solvedCube))
                  cubes).
Proof.
  induction cubes as [| r cubes IH]; intros w F.
  - apply spec_ret. reflexivity.
  - inversion F as [| ? ? Hr F']; subst. cbn [solveEach].
    eapply spec_bind; [ apply spec_solve; exact Hr | ].
    intros s w1 Hs E1. cbv beta in Hs.
    assert (F1 : Forall (fun r => (r < length (heap w1))%nat) cubes).
    { rewrite Forall_forall in *. intros x Hx.
      apply (extends_nth w w1 x E1 (F' x Hx)). }
    eapply spec_bind; [ apply IH; exact F1 | ].
    intros results w2 Hres E2. cbv beta in Hres.
    apply spec_ret. cbn [map]. rewrite Hs, Hres. f_equal.
    apply map_ext_in. intros x Hx. f_equal.
    rewrite Forall_forall in F'.
    apply (extends_nth w w1 x E1 (F' x Hx)).
Qed.

Lemma spec_solveCubes (cubes : list Ref) (w : World) :
  Forall (fun r => (r < length (heap w))%nat) cubes ->
  spec (solveCubes g config cubes) w
       (fun results _ =>
          map outcome results
          = map (fun r => solveOutcome g config (nth r (heap w) solvedCube))
                cubes).
Proof.
  intro F. unfold solveCubes.
  eapply spec_bind; [ apply spec_initialize | ].
  intros u w1 Hh E1. cbv beta in Hh.
  eapply spec_weaken; [ apply spec_solveEach; rewrite Hh; exact F | ].
  intros results w2 H _. cbv beta in H. rewrite Hh in H. exact H.
Qed.

End SolveShape.

(** Tables to run the solver with: the move functions compute the entry of
    the move table when it is asked for, and the pruning tables have no
    entry, which makes every heuristic 0. *)
Definition emptyTable : PruningTable :=
  {| data := []; size := 0; name := ""%string |}.

Definition tablelessGlobals : Globals :=
  {| gMoveEO := fun k m =>
       getEdgeOrientation
         (applyMove (setEdgeOrientation solvedCube k) (moveAt m));
     gMoveCO := fun k m =>
       getCornerOrientation
         (applyMove (setCornerOrientation solvedCube k) (moveAt m));
     gMoveESlice := fun k m =>
       Coordinates.getESlice
         (applyMove (Coordinates.setESlice solvedCube k) (moveAt m));
     gMoveCP := fun k m =>
       getCornerPermutation
         (applyMove (setCornerPermutation solvedCube k) (moveAt m));
     gMoveUDEP := fun k m =>
       Coordinates.getUDEdgePermutation
         (applyMove (Coordinates.setUDEdgePermutation solvedCube k) (moveAt m));
     gMoveEP := fun k m =>
       Coordinates.getESlicePermutation
         (applyMove (Coordinates.setESlicePermutation solvedCube k) (moveAt m));
     gPruneEO := emptyTable; gPruneCO := emptyTable;
     gPruneESlice := emptyTable; gPruneCP_EP := emptyTable;
     gPruneUDEP_EP := emptyTable |}.

(** A cube to solve: the solved cube after the moves R and U. *)
Definition cubeRU : Cube := applyMoveSequence solvedCube [R; U].

Lemma solve_cubeRU :
  outcome (fst (solve tablelessGlobals DEFAULT_CONFIG 0%nat (worldOf cubeRU)))
  = ([Up; R; R2], [R2; Rp; U], [Up; R], [R2], true, None).
Proof. vm_compute. reflexivity. Qed.

(** ** G1 and the phase-1 coordinates *)

Section G1Coordinates.

Import Coordinates.

Lemma isInG1_eOri_zero (c : Cube) :
  length (eOri c) = 12%nat ->
  existsb (nonZeroAt (eOri c)) (range 12) = false ->
  eOri c = map (fun _ => 0) (range 12).
Proof.
  intros L E. rewrite existsb_false in E.
  rewrite <- (map_aget_range12 (eOri c) L) at 1.
  apply map_ext_in. intros i Hi.
  apply nonZeroAt_false; [ apply In_range in Hi; lia | apply E, Hi ].
Qed.

Lemma slice_positions (perm : list Z) :
  isValidPermutation perm 12 = true ->
  sliceMask perm = solvedMask ->
  forallb (includes (map (aget perm) [8; 9; 10; 11])) E_EDGES = true.
Proof.
  intros V M. pose proof (isValidPermutation_length _ _ V) as L.
  pose proof (isValidPermutation_perm _ _ V) as P.
  apply forallb_forall. intros v Hv.
  assert (Hin : In v perm).
  { apply (Permutation_in _ (Permutation_sym P)), In_range.
    cbn in Hv. lia. }
  destruct (In_nth _ _ 0 Hin) as [i [Hi Ei]].
  assert (A : aget perm (Z.of_nat i) = v).
  { unfold aget. destruct (Z.of_nat i <? 0) eqn:X;
      [ apply Z.ltb_lt in X; lia | now rewrite Nat2Z.id ]. }
  assert (B : aget (sliceMask perm) (Z.of_nat i) = 1).
  { rewrite aget_sliceMask by lia. rewrite A.
    replace (v >=? 8) with true; [ reflexivity | ].
    symmetry. rewrite Z.geb_leb. apply Z.leb_le. cbn in Hv. lia. }
  rewrite M in B.
  assert (C : (8 <= i < 12)%nat).
  { destruct (Nat.lt_ge_cases i 8) as [X | X]; [ | lia ].
    exfalso. revert B. clear - X.
    do 8 (destruct i as [| i]; [ discriminate | ]). lia. }
  unfold includes. apply existsb_exists. exists v. split; [ | apply Z.eqb_refl ].
  rewrite <- A.
  assert (D : i = 8%nat \/ i = 9%nat \/ i = 10%nat \/ i = 11%nat) by lia.
  cbn [map]. destruct D as [-> | [-> | [-> | ->]]]; cbn; tauto.
Qed.

Lemma sliceMask_G1 (c : Cube) :
  isValidPermutation (ePerm c) 12 = true -> isInG1 c = true ->
  sliceMask (ePerm c) = solvedMask.
Proof.
  intros V G.
  destruct (G1_edges c V G) as (q & s & E & Lq & Ls & Pq & Ps).
  rewrite E. explode_list q Lq. explode_list s Ls.
  assert (Q : forall x, In x [z; z0; z1; z2; z3; z4; z5; z6] -> x < 8).
  { intros x Hx. apply (Permutation_in _ Pq), In_range in Hx. lia. }
  assert (S : forall x, In x [z7; z8; z9; z10] -> 8 <= x).
  { intros x Hx. apply (Permutation_in _ Ps) in Hx. cbn in Hx. lia. }
  unfold sliceMask, solvedMask. cbn [map range seq app].
  cbv [aget Z.of_nat Z.ltb Z.compare Z.to_nat Pos.to_nat Pos.iter_op nth Nat.add
       Pos.of_succ_nat Pos.succ].
  repeat apply cons_eq; try reflexivity;
    first [ replace (_ >=? 8) with false
              by (symmetry; rewrite Z.geb_leb; apply Z.leb_gt, Q; cbn; tauto);
            reflexivity
          | replace (_ >=? 8) with true
              by (symmetry; rewrite Z.geb_leb; apply Z.leb_le, S; cbn; tauto);
            reflexivity ].
Qed.

(** A cube with valid edge arrays is in G1 exactly when its edge
    orientation and E-slice coordinates are 0; the corner orientation is
    no part of the test. *)
Lemma isInG1_coordinates (c : Cube) :
  wellFormed c = true -> isValidPermutation (ePerm c) 12 = true ->
  Z.rem (sumArray (eOri c)) 2 = 0 ->
  (isInG1 c = true <-> getEdgeOrientation c = 0 /\ getESlice c = 0).
Proof.
  intros W V S. destruct (wellFormed_inv c W) as (_ & _ & _ & L & _ & R).
  split.
  - intro G. split.
    + pose proof G as G'. unfold isInG1 in G'.
      destruct (existsb (nonZeroAt (eOri c)) (range 12)) eqn:E;
        [ discriminate | ].
      rewrite <- getEdgeOrientation_withEOri.
      rewrite (isInG1_eOri_zero c L E). reflexivity.
    + rewrite getESlice_mask, (sliceMask_G1 c V G). reflexivity.
  - intros [E0 E1]. unfold isInG1.
    destruct (eo_encode_decode c L R S) as [D _]. rewrite E0 in D.
    rewrite <- D.
    change (existsb (nonZeroAt (eOri (setEdgeOrientation solvedCube 0)))
                    (range 12)) with false.
    cbv iota zeta. apply slice_positions; [ exact V | ].
    pose proof (maskCheck_valid _ V) as C. unfold maskCheck in C.
    rewrite <- getESlice_mask, E1 in C.
    apply andb_true_iff in C as [_ C]. cbn [Z.eqb] in C.
    apply listEqb_eq. destruct (listEqb (sliceMask (ePerm c)) solvedMask);
      [ reflexivity | discriminate ].
Qed.

End G1Coordinates.

(** ** The heuristic of phase 1 *)

Lemma entry_le (t : PruningTable) (act : Z -> Z -> Z) (allowed : list Z)
    (k : Z) (ms : list Z) :
  holdsDistance t act allowed k ->
  Forall (fun m => In m allowed) ms -> fold_left act ms k = 0 ->
  get t k <= Z.of_nat (length ms).
Proof.
  intros [d [[_ M] [E _]]] F H. specialize (M ms F H). lia.
Qed.

(** With the tables [initializePruningTables] builds, [phase1Heuristic]
    never exceeds the length of a move sequence that takes the three
    coordinates to 0. *)
Lemma phase1Heuristic_le (eo co eslice : Z) (ms : list Z) :
  0 <= eo < EO_SIZE -> 0 <= co < CO_SIZE ->
  0 <= eslice < Coordinates.ESLICE_SIZE ->
  Forall (fun m => In m ALL_MOVE_INDICES) ms ->
  fold_left Coordinates.applyMoveToEO ms eo = 0 ->
  fold_left Coordinates.applyMoveToCO ms co = 0 ->
  fold_left Coordinates.applyMoveToESlice ms eslice = 0 ->
  phase1Heuristic builtGlobals eo co eslice <= Z.of_nat (length ms).
Proof.
  intros H1 H2 H3 F E1 E2 E3.
  unfold phase1Heuristic, builtGlobals.
  cbn [gPruneEO gPruneCO gPruneESlice].
  pose proof (entry_le _ _ _ _ ms (eo_entry eo H1) F E1).
  pose proof (entry_le _ _ _ _ ms (co_entry co H2) F E2).
  pose proof (entry_le _ _ _ _ ms (eslice_entry eslice H3) F E3).
  lia.
Qed.

(** ** core/cubie.ts *)



(** X3.  [isValidPermutation perm n] holds exactly when [perm] is a
    rearrangement of [0 .. n-1]. *)
Theorem isValidPermutation_iff (perm : list Z) (n : nat) :
  isValidPermutation perm n = true <-> Permutation perm (range n).
Proof.
  split; [ apply isValidPermutation_perm | apply isValidPermutation_complete ].
Qed.

(** X4.  For a cube that [isValidCube] accepts, the coordinates are below
    their sizes and decoding them gives the arrays back: the edge
    orientations, the corner orientations, the corner permutation, and the
    positions of the E-slice edges. *)
Theorem valid_cube_coordinates (cube : Cube) :
  wellFormed cube = true -> isValidCube cube = true ->
  (0 <= getEdgeOrientation cube < EO_SIZE
   /\ eOri (setEdgeOrientation solvedCube (getEdgeOrientation cube))
      = eOri cube)
  /\ (0 <= getCornerOrientation cube < CO_SIZE
      /\ cOri (setCornerOrientation solvedCube (getCornerOrientation cube))
         = cOri cube)
  /\ (0 <= getCornerPermutation cube < CP_SIZE
      /\ cPerm (setCornerPermutation solvedCube (getCornerPermutation cube))
         = cPerm cube)
  /\ (0 <= Coordinates.getESlice cube < Coordinates.ESLICE_SIZE
      /\ sliceMask (ePerm (Coordinates.setESlice solvedCube
                             (Coordinates.getESlice cube)))
         = sliceMask (ePerm cube)).
Proof.
  intros W V.
  destruct (wellFormed_inv cube W) as (L1 & L2 & L3 & L4 & R1 & R2).
  destruct (isValidCube_inv cube V) as (V1 & V2 & _ & S1 & S2).
  destruct (eo_encode_decode cube L4 R2 S2) as [A1 A2].
  destruct (co_encode_decode cube L2 R1 S1) as [B1 B2].
  destruct (indexToPermutation_permutationToIndex _ 8 V1) as [C1 C2].
  destruct (eslice_encode_decode cube V2) as [D1 D2].
  repeat split; try assumption; try apply A2; try apply B2; try apply C2;
    try apply D2.
Qed.

Lemma valid_cube_coordinates_witness :
  eOri (setEdgeOrientation solvedCube (getEdgeOrientation cubeRU))
  = eOri cubeRU
  /\ cPerm (setCornerPermutation solvedCube (getCornerPermutation cubeRU))
     = cPerm cubeRU.
Proof.
  pose proof (valid_cube_coordinates cubeRU eq_refl eq_refl) as H.
  split; [ apply H | apply H ].
Defined.



(** X6.  [composeMoves move1 move2] is the table of [move2] followed by
    [move1]: applying it is applying [move2] and then [move1].  It is not,
    in general, [move1] followed by [move2]. *)
Theorem composeMoves_order :
  (forall (c : Cube) (m1 m2 : MoveTable),
      wellFormed c = true -> moveWellFormed m1 = true ->
      moveWellFormed m2 = true ->
      applyMove c (composeMoves m1 m2) = applyMove (applyMove c m2) m1)
  /\ applyMove solvedCube (composeMoves (ALL_MOVES U) (ALL_MOVES R))
     <> applyMove (applyMove solvedCube (ALL_MOVES U)) (ALL_MOVES R).
Proof.
  split; [ exact composeMoves_applyMove | ].
  intro H. apply (f_equal cPerm) in H. vm_compute in H. discriminate H.
Qed.

Lemma composeMoves_order_witness :
  applyMove flippedEdgeCube (composeMoves (ALL_MOVES U) (ALL_MOVES R))
  = applyMove (applyMove flippedEdgeCube (ALL_MOVES R)) (ALL_MOVES U).
Proof.
  apply (proj1 composeMoves_order flippedEdgeCube (ALL_MOVES U) (ALL_MOVES R));
    reflexivity.
Defined.

(** X24.  [cubesEqual] decides the equality of cubes; [isSolved] holds for
    the solved cube only, and a copy is equal to its original. *)
Theorem cubesEqual_iff (a b : Cube) :
  (cubesEqual a b = true <-> a = b)
  /\ (isSolved a = true <-> a = solvedCube)
  /\ cubesEqual (copyCube a) a = true.
Proof.
  assert (E : forall x y, cubesEqual x y = true <-> x = y).
  { intros x y. unfold cubesEqual.
    rewrite !andb_true_iff, !arraysEqual_eq.
    destruct x, y. cbn [cPerm cOri ePerm eOri]. split.
    - intros [[[-> ->] ->] ->]. reflexivity.
    - intros [= -> -> -> ->]. auto. }
  split; [ apply E | ]. split; [ apply isSolved_eq | ].
  apply E. destruct a. reflexivity.
Qed.

(** ** core/moves.ts *)





(** X23.  [moveIndicesToKeys] and [moveKeysToIndices] are inverse to each
    other on the keys and on the indices 0 to 17, and [getMoveByIndex] at
    the index of a key is [getMoveByKey] of the key. *)
Theorem move_index_round_trip :
  (forall keys, moveIndicesToKeys (moveKeysToIndices keys) = keys)
  /\ (forall idxs, Forall (fun i => 0 <= i < 18) idxs ->
        moveKeysToIndices (moveIndicesToKeys idxs) = idxs)
  /\ (forall key, getMoveByIndex (MoveIndex key) = Some (getMoveByKey key)).
Proof.
  split; [ | split ].
  - intro keys. unfold moveIndicesToKeys, moveKeysToIndices.
    rewrite map_map. rewrite <- (map_id keys) at 2. apply map_ext.
    intro key. destruct key; reflexivity.
  - intros idxs F. unfold moveIndicesToKeys, moveKeysToIndices.
    rewrite map_map. rewrite <- (map_id idxs) at 2. apply map_ext_in.
    intros i Hi. rewrite Forall_forall in F. specialize (F i Hi).
    assert (C : i = 0 \/ i = 1 \/ i = 2 \/ i = 3 \/ i = 4 \/ i = 5 \/ i = 6
                \/ i = 7 \/ i = 8 \/ i = 9 \/ i = 10 \/ i = 11 \/ i = 12
                \/ i = 13 \/ i = 14 \/ i = 15 \/ i = 16 \/ i = 17) by lia.
    repeat (destruct C as [-> | C]; [ reflexivity | ]). subst i. reflexivity.
  - intro key. destruct key; reflexivity.
Qed.

Lemma move_index_round_trip_witness :
  moveKeysToIndices (moveIndicesToKeys [4; 17; 0]) = [4; 17; 0].
Proof.
  apply (proj1 (proj2 move_index_round_trip)).
  repeat constructor; lia.
Defined.

(** ** core/notation.ts *)





(** ** solver/kociemba/pruning.ts *)



(** X12.  [buildPruningTable] on a new table, for moves that keep the
    coordinate inside the table: an entry that left [UNKNOWN_DISTANCE] is
    at most 19 and is the least number of allowed moves that take the goal
    to the coordinate; an entry still at [UNKNOWN_DISTANCE] belongs to a
    coordinate that no 19 moves reach.  No entry is [MAX_DISTANCE]. *)
Theorem buildPruningTable_distances (applyMoveFunc : Z -> Z -> Z)
    (allowedMoves : list Z) (goalCoord : Z) (n : nat) (name : String.string)
    (k : Z) :
  (forall c m, 0 <= c < Z.of_nat n -> In m allowedMoves ->
               0 <= applyMoveFunc c m < Z.of_nat n) ->
  0 <= goalCoord < Z.of_nat n ->
  0 <= k < Z.of_nat n ->
  let t := buildPruningTable (newTable (Z.of_nat n) name) applyMoveFunc
                             goalCoord allowedMoves in
  (get t k <> UNKNOWN_DISTANCE ->
   0 <= get t k <= MAX_DISTANCE - 1
   /\ reach applyMoveFunc allowedMoves goalCoord (get t k) k
   /\ forall d, reach applyMoveFunc allowedMoves goalCoord d k ->
                get t k <= d)
  /\ (get t k = UNKNOWN_DISTANCE ->
      forall d, reach applyMoveFunc allowedMoves goalCoord d k ->
                MAX_DISTANCE - 1 < d)
  /\ get t k <> MAX_DISTANCE.
Proof.
  intros C G Hk t.
  destruct (built_distance applyMoveFunc allowedMoves goalCoord n C G name k Hk)
    as [A B].
  unfold known, built in A, B. fold t in A, B.
  split; [ exact A | ]. split.
  - intro E. apply B. intro X. apply X. exact E.
  - intro E.
    assert (K : get t k <> UNKNOWN_DISTANCE)
      by (rewrite E; unfold MAX_DISTANCE, UNKNOWN_DISTANCE; lia).
    destruct (A K) as [[_ U] _]. lia.
Qed.

Lemma buildPruningTable_distances_witness :
  let act := fun c m : Z => (c + m) mod 30 in
  let t := buildPruningTable (newTable 30 "ring") act 0 [1] in
  (get t 7 <> UNKNOWN_DISTANCE ->
   0 <= get t 7 <= MAX_DISTANCE - 1
   /\ reach act [1] 0 (get t 7) 7
   /\ forall d, reach act [1] 0 d 7 -> get t 7 <= d)
  /\ (get t 7 = UNKNOWN_DISTANCE ->
      forall d, reach act [1] 0 d 7 -> MAX_DISTANCE - 1 < d)
  /\ get t 7 <> MAX_DISTANCE.
Proof.
  intros act t.
  apply (buildPruningTable_distances act [1] 0 30%nat "ring" 7).
  - intros c m Hc _. unfold act. apply Z.mod_pos_bound. lia.
  - lia.
  - lia.
Defined.

(** X13.  The loop of [buildPruningTable] ends: on a new table of [n]
    entries it has nothing left to do after [n + 1] turns, so more turns
    give the same table. *)
Theorem buildPruningTable_ends (applyMoveFunc : Z -> Z -> Z)
    (allowedMoves : list Z) (goalCoord : Z) (n : nat) (name : String.string)
    (fuel : nat) :
  (forall c m, 0 <= c < Z.of_nat n -> In m allowedMoves ->
               0 <= applyMoveFunc c m < Z.of_nat n) ->
  0 <= goalCoord < Z.of_nat n ->
  (S n <= fuel)%nat ->
  bfsLoop fuel applyMoveFunc allowedMoves
          (set (newTable (Z.of_nat n) name) goalCoord 0) [goalCoord]
  = buildPruningTable (newTable (Z.of_nat n) name) applyMoveFunc goalCoord
                      allowedMoves.
Proof.
  intros C G H.
  apply (built_fuel applyMoveFunc allowedMoves goalCoord n C G name fuel H).
Qed.

Lemma buildPruningTable_ends_witness :
  bfsLoop 100 (fun c m => (c + m) mod 30) [1]
          (set (newTable 30 "ring") 0 0) [0]
  = buildPruningTable (newTable 30 "ring") (fun c m => (c + m) mod 30) 0 [1].
Proof.
  apply (buildPruningTable_ends (fun c m => (c + m) mod 30) [1] 0 30%nat
                                "ring" 100%nat).
  - intros c m Hc _. apply Z.mod_pos_bound. lia.
  - lia.
  - lia.
Defined.



(** ** solver/kociemba/coordinates.ts *)

(** X16.  For a cube of the right shape whose edge array is a permutation
    and whose edge orientations add up to an even number, [isInG1] holds
    exactly when the edge orientation coordinate and the E-slice coordinate
    are both 0; the corner orientation plays no part. *)
Theorem isInG1_iff_coordinates (c : Cube) :
  wellFormed c = true -> isValidPermutation (ePerm c) 12 = true ->
  Z.rem (sumArray (eOri c)) 2 = 0 ->
  (Coordinates.isInG1 c = true
   <-> getEdgeOrientation c = 0 /\ Coordinates.getESlice c = 0).
Proof. apply isInG1_coordinates. Qed.

Lemma isInG1_iff_coordinates_witness :
  Coordinates.isInG1 twistedCornersCube = true
  <-> getEdgeOrientation twistedCornersCube = 0
      /\ Coordinates.getESlice twistedCornersCube = 0.
Proof. apply (isInG1_iff_coordinates twistedCornersCube); reflexivity. Defined.

(** ** solver/kociemba/ida.ts *)

(** The results of [searchPhase1] and [searchPhase2] without the time. *)
Lemma searchPhase1_core (g : Globals) (start : Phase1Coord) (maxDepth : Z)
    (w : World) :
  option_map (fun r => (solution r, depth r, nodesSearched r))
             (fst (searchPhase1 g start maxDepth w))
  = searchPhase1Core g start maxDepth.
Proof.
  unfold searchPhase1, bind.
  destruct (searchPhase1Core g start maxDepth) as [[[sol d] n] |];
    reflexivity.
Qed.

Lemma searchPhase2_core (g : Globals) (start : Phase2Coord) (maxDepth : Z)
    (w : World) :
  option_map (fun r => (solution r, depth r, nodesSearched r))
             (fst (searchPhase2 g start maxDepth w))
  = searchPhase2Core g start maxDepth.
Proof.
  unfold searchPhase2, bind.
  destruct (searchPhase2Core g start maxDepth) as [[[sol d] n] |];
    reflexivity.
Qed.

(** X17.  [searchPhase1]: a result is either the empty solution at depth
    0, when the start has [eo] and [eslice] 0, or a sequence of moves
    0..17, not empty, no longer than the depth it was found at, in which no
    move is on the face of the move before it, and which takes [eo] and
    [eslice] to 0; that depth is between [max(1, heuristic)] and
    [maxDepth].  When [maxDepth] is below [max(1, heuristic)] and the start
    is no goal, the result is [null]. *)
Theorem searchPhase1_result (g : Globals) (start : Phase1Coord)
    (maxDepth : Z) (w : World) :
  match fst (searchPhase1 g start maxDepth w) with
  | Some r =>
      (goal1 start = true /\ solution r = [] /\ depth r = 0)
      \/ (goal1 start = false
          /\ Z.max 1 (phase1Heuristic g (eo start) (co start) (eslice start))
             <= depth r <= maxDepth
          /\ solution r <> []
          /\ found (move1 g) goal1 IDA.PHASE1_MOVES start (depth r) 0 (-1)
                   (solution r))
  | None => goal1 start = false
  end
  /\ (goal1 start = false ->
      maxDepth < Z.max 1 (phase1Heuristic g (eo start) (co start)
                                          (eslice start)) ->
      fst (searchPhase1 g start maxDepth w) = None).
Proof.
  pose proof (searchPhase1_core g start maxDepth w) as E.
  split.
  - destruct (searchPhase1Core g start maxDepth) as [[[sol d] k] |] eqn:C.
    + destruct (fst (searchPhase1 g start maxDepth w)) as [r |];
        [ | discriminate E ].
      cbn [option_map] in E. injection E as E1 E2 E3.
      destruct (searchPhase1Core_found g start maxDepth sol d k C)
        as [(A & B & D & _) | (A & B & D & F)].
      * left. rewrite E1, E2. auto.
      * right. rewrite E1, E2. auto.
    + destruct (fst (searchPhase1 g start maxDepth w)) as [r |];
        [ discriminate E | ].
      unfold searchPhase1Core in C. fold (goal1 start) in C.
      destruct (goal1 start); [ discriminate C | reflexivity ].
  - intros G H. rewrite (searchPhase1Core_short g start maxDepth G H) in E.
    destruct (fst (searchPhase1 g start maxDepth w)); [ discriminate E | ].
    reflexivity.
Qed.

Lemma searchPhase1_result_witness :
  fst (searchPhase1 tablelessGlobals {| eo := 1; co := 0; eslice := 0 |} 0
                    (worldOf solvedCube)) = None.
Proof.
  apply (proj2 (searchPhase1_result tablelessGlobals
                  {| eo := 1; co := 0; eslice := 0 |} 0 (worldOf solvedCube)));
    [ reflexivity | vm_compute; reflexivity ].
Defined.

(** X18.  [searchPhase2]: a result is either the empty solution at depth
    0, when the start has [cp], [udep] and [ep] 0, or a sequence of moves
    of [PHASE2_MOVES], not empty, no longer than the depth it was found at, in which no
    move is on the face of the move before it, and which takes the three
    coordinates to 0; that depth is between [max(1, heuristic)] and
    [maxDepth].  When [maxDepth] is below [max(1, heuristic)] and the start
    is no goal, the result is [null]. *)
Theorem searchPhase2_result (g : Globals) (start : Phase2Coord)
    (maxDepth : Z) (w : World) :
  match fst (searchPhase2 g start maxDepth w) with
  | Some r =>
      (goal2 start = true /\ solution r = [] /\ depth r = 0)
      \/ (goal2 start = false
          /\ Z.max 1 (phase2Heuristic g (cp start) (udep start) (ep start))
             <= depth r <= maxDepth
          /\ solution r <> []
          /\ found (move2 g) goal2 IDA.PHASE2_MOVES start (depth r) 0 (-1)
                   (solution r))
  | None => goal2 start = false
  end
  /\ (goal2 start = false ->
      maxDepth < Z.max 1 (phase2Heuristic g (cp start) (udep start)
                                          (ep start)) ->
      fst (searchPhase2 g start maxDepth w) = None).
Proof.
  pose proof (searchPhase2_core g start maxDepth w) as E.
  split.
  - destruct (searchPhase2Core g start maxDepth) as [[[sol d] k] |] eqn:C.
    + destruct (fst (searchPhase2 g start maxDepth w)) as [r |];
        [ | discriminate E ].
      cbn [option_map] in E. injection E as E1 E2 E3.
      destruct (searchPhase2Core_found g start maxDepth sol d k C)
        as [(A & B & D & _) | (A & B & D & F)].
      * left. rewrite E1, E2. auto.
      * right. rewrite E1, E2. auto.
    + destruct (fst (searchPhase2 g start maxDepth w)) as [r |];
        [ discriminate E | ].
      unfold searchPhase2Core in C. fold (goal2 start) in C.
      destruct (goal2 start); [ discriminate C | reflexivity ].
  - intros G H. rewrite (searchPhase2Core_short g start maxDepth G H) in E.
    destruct (fst (searchPhase2 g start maxDepth w)); [ discriminate E | ].
    reflexivity.
Qed.

Lemma searchPhase2_result_witness :
  fst (searchPhase2 tablelessGlobals {| cp := 1; udep := 0; ep := 0 |} 0
                    (worldOf solvedCube)) = None.
Proof.
  apply (proj2 (searchPhase2_result tablelessGlobals
                  {| cp := 1; udep := 0; ep := 0 |} 0 (worldOf solvedCube)));
    [ reflexivity | vm_compute; reflexivity ].
Defined.

(** ** solver/kociemba/solver.ts *)








